(** * Ownership discipline of [unique_ptr] and [shared_ptr]

    A shallow embedding of [src/unique_ptr.hpp] and [src/shared_ptr.hpp].

    The C++ free store is modelled explicitly: smart pointer instances are
    named storage locations holding their member fields, heap objects and
    heap-allocated [size_t] use counts live at addresses, and every
    [delete] is recorded in a trace.  Member functions are computations in
    a state-and-fault monad; an access the C++ standard leaves undefined
    (reading or writing a freed use count, deleting an object that is not
    live) ends the computation with a [fault].

    Modelling assumptions: addresses are never handed out twice by [new];
    [new] does not fail.

    Both headers are templates over [object_type], and [delete m_object]
    runs [~object_type], which is code of the caller.  The modules [Shared]
    and [Unique] embed the headers for an [object_type] whose destructor
    touches no smart pointer.  The modules [SharedT] and [UniqueT] embed
    the member functions that delete for any [object_type]: there the
    destructor is a parameter, and an object may destroy smart pointers
    that are stored in it, as the node of a list does with its [next]. *)

From stdpp Require Import gmap strings list fin_maps.
From Stdlib Require Import ZArith Lia.

Local Open Scope Z_scope.
Set Warnings "-clear-no-such-hyp".

(** ** Common vocabulary *)

(** Raw pointers: [None] is [nullptr]. *)
Definition addr := positive.
Abbreviation pointer := (option addr).

(** The name of the storage of an instance ([this], [&other]). *)
Abbreviation var := string.

Inductive fault :=
| use_after_free   (* access to a use count that has been deleted *)
| double_free      (* delete of something that is not live *)
| dead_instance.   (* use of an instance outside its lifetime *)

Inductive result (A : Type) :=
| Ok (a : A)
| Undefined (f : fault).
Arguments Ok {A} a.
Arguments Undefined {A} f.

Inductive event :=
| destroyed_object (p : addr)   (* [delete m_object] ran the destructor of [p] *)
| freed_counter (c : addr).     (* [delete m_use_count] freed [c] *)

Global Instance fault_eq_dec : EqDecision fault.
Proof. solve_decision. Defined.
Global Instance event_eq_dec : EqDecision event.
Proof. solve_decision. Defined.
Global Instance result_eq_dec {A} `{EqDecision A} : EqDecision (result A).
Proof. solve_decision. Defined.

(** The object a raw pointer points to, and the trace of deleting it. *)
Definition pointee (p : pointer) : gset addr :=
  match p with Some a => {[a]} | None => ∅ end.

Definition destruction (p : pointer) : list event :=
  match p with Some a => [destroyed_object a] | None => [] end.

(** What [*p] denotes: an object when [p] points to a live one; on a null
    or a dangling [p] the behaviour of the dereference is undefined. *)
Inductive lvalue :=
| object_at (a : addr)
| null_dereference
| dangling_dereference.

Global Instance lvalue_eq_dec : EqDecision lvalue.
Proof. solve_decision. Defined.

Definition dereference (live : gset addr) (p : pointer) : lvalue :=
  match p with
  | None => null_dereference
  | Some a => if decide (a ∈ live) then object_at a else dangling_dereference
  end.

(** [size_t] is the platform's: an unsigned integer type with the values
    [0..SIZE_MAX], and the C standard has [SIZE_MAX] at least 65535. *)
Class size_type := {
  SIZE_MAX : Z;
  SIZE_MAX_least : 65535 ≤ SIZE_MAX
}.

(** Arithmetic on [size_t] is modulo [SIZE_MAX + 1]. *)
Definition wrap `{size_type} (z : Z) : Z := z mod (SIZE_MAX + 1).

(** AVR boards: 16 bits. *)
Definition avr_size_t : size_type.
Proof. refine {| SIZE_MAX := 65535 |}. lia. Defined.

(** ARM and ESP boards: 32 bits. *)
Definition arm_size_t : size_type.
Proof. refine {| SIZE_MAX := 4294967295 |}. lia. Defined.

(** *** The monad: a computation over a world [W] ends in a fault or
    returns a value and the next world. *)

Definition comp (W A : Type) : Type := W → result (A * W).

Global Instance comp_ret {W} : MRet (comp W) := λ A a w, Ok (a, w).
Global Instance comp_bind {W} : MBind (comp W) := λ A B k m w,
  match m w with
  | Ok (a, w') => k a w'
  | Undefined f => Undefined f
  end.

(** The value a computation returns. *)
Definition value {W A} (r : result (A * W)) : result A :=
  match r with Ok (a, _) => Ok a | Undefined f => Undefined f end.

(** The world a computation ends in. *)
Definition final {W A} (r : result (A * W)) : option W :=
  match r with Ok (_, w) => Some w | Undefined _ => None end.

(** ** shared_ptr.hpp *)
Module Shared.

(** [object_type* m_object; size_t* m_use_count;] *)
Record shared_ptr := mk_shared_ptr {
  m_object : pointer;
  m_use_count : pointer
}.

Global Instance shared_ptr_eq_dec : EqDecision shared_ptr.
Proof. solve_decision. Defined.

(** The fields of a default-constructed instance. *)
Definition null : shared_ptr := mk_shared_ptr None None.

Record world := mk_world {
  instances : gmap var shared_ptr;   (* instances within their lifetime *)
  objects : gset addr;               (* live [object_type] objects *)
  counters : gmap addr Z;            (* live [size_t] cells and their value *)
  next : addr;                       (* the address [new] hands out next *)
  trace : list event                 (* every [delete] so far, oldest first *)
}.

Definition init : world := mk_world ∅ ∅ ∅ 1%positive [].

Abbreviation M := (comp world).

Section SizeT.

Context `{ST : size_type}.

(** *** Storage of instances *)

Definition field (v : var) : M shared_ptr := λ w,
  match instances w !! v with
  | Some sp => Ok (sp, w)
  | None => Undefined dead_instance
  end.

Definition load_object (v : var) : M pointer :=
  sp ← field v; mret (m_object sp).

Definition load_use_count (v : var) : M pointer :=
  sp ← field v; mret (m_use_count sp).

Definition put (v : var) (sp : shared_ptr) : M unit := λ w,
  Ok (tt, mk_world (<[v := sp]> (instances w)) (objects w) (counters w)
                   (next w) (trace w)).

Definition store_object (v : var) (p : pointer) : M unit :=
  sp ← field v; put v (mk_shared_ptr p (m_use_count sp)).

Definition store_use_count (v : var) (c : pointer) : M unit :=
  sp ← field v; put v (mk_shared_ptr (m_object sp) c).

(** The member initialiser list of a constructor running on fresh storage. *)
Definition begin_lifetime (v : var) (sp : shared_ptr) : M unit := λ w,
  match instances w !! v with
  | None => put v sp w
  | Some _ => Undefined dead_instance
  end.

(** The storage of [v] goes away once the destructor body has run. *)
Definition end_lifetime (v : var) : M unit := λ w,
  match instances w !! v with
  | Some _ =>
      Ok (tt, mk_world (delete v (instances w)) (objects w) (counters w)
                       (next w) (trace w))
  | None => Undefined dead_instance
  end.

(** *** The free store *)

(** [new object_type(arguments...)] *)
Definition new_object : M addr := λ w,
  Ok (next w, mk_world (instances w) ({[next w]} ∪ objects w) (counters w)
                       (Pos.succ (next w)) (trace w)).

(** [new size_t(n)] *)
Definition new_size_t (n : Z) : M addr := λ w,
  Ok (next w, mk_world (instances w) (objects w)
                       (<[next w := wrap n]> (counters w))
                       (Pos.succ (next w)) (trace w)).

(** [*c] as an rvalue *)
Definition read_size_t (c : addr) : M Z := λ w,
  match counters w !! c with
  | Some n => Ok (n, w)
  | None => Undefined use_after_free
  end.

(** [*c = n] *)
Definition write_size_t (c : addr) (n : Z) : M unit := λ w,
  match counters w !! c with
  | Some _ =>
      Ok (tt, mk_world (instances w) (objects w) (<[c := wrap n]> (counters w))
                       (next w) (trace w))
  | None => Undefined use_after_free
  end.

(** [delete p] for an [object_type* p] whose destructor touches no smart
    pointer; deleting [nullptr] does nothing.  ([SharedT.delete_object] is
    [delete p] with a destructor that does.) *)
Definition delete_object (p : pointer) : M unit := λ w,
  match p with
  | None => Ok (tt, w)
  | Some a =>
      if decide (a ∈ objects w)
      then Ok (tt, mk_world (instances w) (objects w ∖ {[a]}) (counters w)
                            (next w) (trace w ++ [destroyed_object a]))
      else Undefined double_free
  end.

(** [delete c] for a [size_t* c]. *)
Definition delete_size_t (c : pointer) : M unit := λ w,
  match c with
  | None => Ok (tt, w)
  | Some a =>
      match counters w !! a with
      | Some _ =>
          Ok (tt, mk_world (instances w) (objects w) (delete a (counters w))
                           (next w) (trace w ++ [freed_counter a]))
      | None => Undefined double_free
      end
  end.

(** *** Member functions, in the order of the header *)

(** [void increment_use_count()]:
    [if(m_use_count) { ++( *m_use_count ); }] *)
Definition increment_use_count (this : var) : M unit :=
  c ← load_use_count this;
  match c with
  | Some c => n ← read_size_t c; write_size_t c (n + 1)
  | None => mret tt
  end.

(** [void decrement_use_count()]:
    [if(m_use_count && --( *m_use_count ) == 0)
       { delete m_object; delete m_use_count; }]
    where [&&] does not evaluate its right operand for a null
    [m_use_count]. *)
Definition decrement_use_count (this : var) : M unit :=
  c ← load_use_count this;
  match c with
  | Some c =>
      n ← read_size_t c;
      write_size_t c (n - 1);;
      if wrap (n - 1) =? 0
      then (p ← load_object this; delete_object p;;
            c' ← load_use_count this; delete_size_t c')
      else mret tt
  | None => mret tt
  end.

(** [shared_ptr() : m_object(nullptr), m_use_count(nullptr) {}] *)
Definition construct (this : var) : M unit :=
  begin_lifetime this (mk_shared_ptr None None).

(** [shared_ptr(object_type* pointer)
      : m_object(pointer), m_use_count(new size_t(1)) {}] *)
Definition construct_ptr (this : var) (p : pointer) : M unit :=
  c ← new_size_t 1;
  begin_lifetime this (mk_shared_ptr p (Some c)).

(** [shared_ptr(const shared_ptr& other)
      : m_object(other.m_object), m_use_count(other.m_use_count)
    { increment_use_count(); }] *)
Definition copy_construct (this other : var) : M unit :=
  p ← load_object other;
  c ← load_use_count other;
  begin_lifetime this (mk_shared_ptr p c);;
  increment_use_count this.

(** [shared_ptr(shared_ptr&& other)
      : m_object(other.m_object), m_use_count(other.m_use_count)
    { other.m_object = nullptr; other.m_use_count = nullptr; }] *)
Definition move_construct (this other : var) : M unit :=
  p ← load_object other;
  c ← load_use_count other;
  begin_lifetime this (mk_shared_ptr p c);;
  store_object other None;;
  store_use_count other None.

(** [~shared_ptr() { decrement_use_count(); }] *)
Definition destroy (this : var) : M unit :=
  decrement_use_count this;;
  end_lifetime this.

(** [void reset()
    { decrement_use_count(); m_object = nullptr; m_use_count = nullptr; }] *)
Definition reset (this : var) : M unit :=
  decrement_use_count this;;
  store_object this None;;
  store_use_count this None.

(** [void reset(object_type* pointer)
    { decrement_use_count(); m_object = pointer;
      m_use_count = new size_t(1); }] *)
Definition reset_ptr (this : var) (p : pointer) : M unit :=
  decrement_use_count this;;
  store_object this p;;
  c ← new_size_t 1;
  store_use_count this (Some c).

(** [operator=(const shared_ptr& other)
    { decrement_use_count(); m_object = other.m_object;
      m_use_count = other.m_use_count; increment_use_count(); }];
    [this] and [other] may name the same instance. *)
Definition copy_assign (this other : var) : M unit :=
  decrement_use_count this;;
  p ← load_object other;
  store_object this p;;
  c ← load_use_count other;
  store_use_count this c;;
  increment_use_count this.

(** [operator=(shared_ptr&& other)
    { decrement_use_count(); m_object = other.m_object;
      m_use_count = other.m_use_count;
      other.m_object = nullptr; other.m_use_count = nullptr; }] *)
Definition move_assign (this other : var) : M unit :=
  decrement_use_count this;;
  p ← load_object other;
  store_object this p;;
  c ← load_use_count other;
  store_use_count this c;;
  store_object other None;;
  store_use_count other None.

(** [object_type* get() const] *)
Definition get (this : var) : M pointer := load_object this.

(** The objects that are live at this point. *)
Definition live_objects : M (gset addr) := λ w, Ok (objects w, w).

(** [object_type* operator->() const { return m_object; }] *)
Definition operator_arrow (this : var) : M pointer := load_object this.

(** [object_type& operator*() const { return *m_object; }] *)
Definition operator_star (this : var) : M lvalue :=
  p ← load_object this;
  live ← live_objects;
  mret (dereference live p).

(** [operator bool() const { return m_object != nullptr; }] *)
Definition operator_bool (this : var) : M bool :=
  p ← load_object this;
  mret (bool_decide (p ≠ None)).

(** [size_t use_count() const
    { if(m_use_count) return *m_use_count; else return 0; }] *)
Definition use_count (this : var) : M Z :=
  c ← load_use_count this;
  match c with
  | Some c => read_size_t c
  | None => mret 0
  end.

(** [bool unique() const
    { if(m_use_count) return *m_use_count == 1; else return false; }] *)
Definition unique (this : var) : M bool :=
  c ← load_use_count this;
  match c with
  | Some c => n ← read_size_t c; mret (n =? 1)
  | None => mret false
  end.

(** [make_shared<object_type>(arguments...)], the result constructed in
    place in the storage [this] of the caller. *)
Definition make_shared (this : var) : M unit :=
  p ← new_object;
  construct_ptr this (Some p).

(** *** Programs over shared pointers *)

Inductive op :=
| New                               (* the caller's own [new object_type] *)
| Construct (v : var)
| ConstructPtr (v : var) (p : pointer)
| MakeShared (v : var)
| CopyConstruct (v other : var)
| MoveConstruct (v other : var)
| Destroy (v : var)
| Reset (v : var)
| ResetPtr (v : var) (p : pointer)
| CopyAssign (v other : var)
| MoveAssign (v other : var).

Definition exec (o : op) : M unit :=
  match o with
  | New => new_object;; mret tt
  | Construct v => construct v
  | ConstructPtr v p => construct_ptr v p
  | MakeShared v => make_shared v
  | CopyConstruct v other => copy_construct v other
  | MoveConstruct v other => move_construct v other
  | Destroy v => destroy v
  | Reset v => reset v
  | ResetPtr v p => reset_ptr v p
  | CopyAssign v other => copy_assign v other
  | MoveAssign v other => move_assign v other
  end.

Fixpoint run (os : list op) : M unit :=
  match os with
  | [] => mret tt
  | o :: os => exec o;; run os
  end.

(** The world a program leaves when run from the initial one. *)
Definition after (os : list op) : world :=
  match run os init with
  | Ok (_, w) => w
  | Undefined _ => init
  end.

(** *** Vocabulary of the specification *)

(** The number of live instances whose [m_use_count] is [c]. *)
Definition refs (c : addr) (m : gmap var shared_ptr) : nat :=
  size (filter (λ kv, m_use_count kv.2 = Some c) m).

(** Whether an instance, if there is one, holds the use count [c]. *)
Definition holds (c : addr) (o : option shared_ptr) : nat :=
  match o with
  | Some sp => if decide (m_use_count sp = Some c) then 1 else 0
  | None => 0
  end.

(** A raw pointer the caller may hand to a constructor or to [reset]:
    [nullptr], or a live object that no shared pointer manages yet. *)
Definition unmanaged (w : world) (p : pointer) : Prop :=
  match p with
  | None => True
  | Some a =>
      a ∈ objects w ∧ map_Forall (λ _ sp, m_object sp ≠ Some a) (instances w)
  end.

(** The use count of [v], if it has one, satisfies [P]. *)
Definition count_is (P : Z → Prop) (w : world) (v : var) : Prop :=
  match instances w !! v with
  | Some sp =>
      match m_use_count sp with
      | Some c =>
          match counters w !! c with Some n => P n | None => False end
      | None => True
      end
  | None => False
  end.

(** What a caller has to respect for an operation to be in contract: the
    lifetime of the instances involved, raw pointers that are fresh, a use
    count that has room for one more owner, and no copy assignment of a
    sole owner to itself. *)
Definition contract (w : world) (o : op) : Prop :=
  match o with
  | New => True
  | Construct v => instances w !! v = None
  | ConstructPtr v p => instances w !! v = None ∧ unmanaged w p
  | MakeShared v => instances w !! v = None
  | CopyConstruct v other =>
      instances w !! v = None ∧ count_is (λ n, n < SIZE_MAX) w other
  | MoveConstruct v other =>
      instances w !! v = None ∧ is_Some (instances w !! other)
  | Destroy v => is_Some (instances w !! v)
  | Reset v => is_Some (instances w !! v)
  | ResetPtr v p => is_Some (instances w !! v) ∧ unmanaged w p
  | CopyAssign v other =>
      is_Some (instances w !! v) ∧ count_is (λ n, n < SIZE_MAX) w other ∧
      (v = other → count_is (λ n, n ≠ 1) w v)
  | MoveAssign v other =>
      is_Some (instances w !! v) ∧ is_Some (instances w !! other)
  end.

Global Instance unmanaged_dec w p : Decision (unmanaged w p).
Proof. destruct p; simpl; apply _. Defined.

Global Instance count_is_dec P `{∀ n, Decision (P n)} w v :
  Decision (count_is P w v).
Proof.
  unfold count_is. destruct (instances w !! v) as [sp|]; [|apply _].
  destruct (m_use_count sp) as [c|]; [|apply _].
  destruct (counters w !! c); apply _.
Defined.

Global Instance contract_dec w o : Decision (contract w o).
Proof. destruct o; simpl; apply _. Defined.

(** The worlds a program in contract can be in. *)
Inductive reachable : world → Prop :=
| reachable_init : reachable init
| reachable_step w o w' :
    reachable w → contract w o → exec o w = Ok (tt, w') → reachable w'.

(** The contract of a whole program, checked as it runs. *)
Fixpoint contracts (os : list op) (w : world) : Prop :=
  match os with
  | [] => True
  | o :: os =>
      contract w o ∧
      match exec o w with
      | Ok (_, w') => contracts os w'
      | Undefined _ => False
      end
  end.

Global Instance contracts_dec os w : Decision (contracts os w).
Proof.
  revert w. induction os as [|o os IH]; intros w; simpl; [apply _|].
  destruct (exec o w) as [[? w']|]; apply _.
Defined.

(** The reference counting discipline, as a property of a world. *)
Record inv (w : world) : Prop := {
  (* a live use count counts the live instances that hold it *)
  inv_count : ∀ c n, counters w !! c = Some n →
    n = Z.of_nat (refs c (instances w)) ∧ 1 ≤ n ≤ SIZE_MAX;
  (* the use count an instance holds is live *)
  inv_held : ∀ v sp c, instances w !! v = Some sp →
    m_use_count sp = Some c → is_Some (counters w !! c);
  (* an object comes with a use count *)
  inv_paired : ∀ v sp, instances w !! v = Some sp →
    is_Some (m_object sp) → is_Some (m_use_count sp);
  (* the object an instance holds is live *)
  inv_live : ∀ v sp p, instances w !! v = Some sp →
    m_object sp = Some p → p ∈ objects w;
  (* instances that share a use count or an object share both *)
  inv_alias : ∀ v1 v2 sp1 sp2,
    instances w !! v1 = Some sp1 → instances w !! v2 = Some sp2 →
    (is_Some (m_use_count sp1) ∧ m_use_count sp1 = m_use_count sp2) ∨
    (is_Some (m_object sp1) ∧ m_object sp1 = m_object sp2) →
    sp1 = sp2;
  (* [new] has not yet handed out the address [next w] *)
  inv_next_objects : ∀ p, p ∈ objects w → (p < next w)%positive;
  inv_next_counters : ∀ c, is_Some (counters w !! c) → (c < next w)%positive;
  (* nothing is deleted twice, and what was deleted is gone *)
  inv_trace : NoDup (trace w);
  inv_destroyed : ∀ p, destroyed_object p ∈ trace w →
    (p ∉ objects w) ∧ (p < next w)%positive;
  inv_freed : ∀ c, freed_counter c ∈ trace w →
    counters w !! c = None ∧ (c < next w)%positive
}.

End SizeT.

End Shared.

(** ** unique_ptr.hpp *)
Module Unique.

(** [object_type* m_object;] *)
Record unique_ptr := mk_unique_ptr {
  m_object : pointer
}.

Global Instance unique_ptr_eq_dec : EqDecision unique_ptr.
Proof. solve_decision. Defined.

Record world := mk_world {
  instances : gmap var unique_ptr;   (* instances within their lifetime *)
  objects : gset addr;               (* live [object_type] objects *)
  next : addr;                       (* the address [new] hands out next *)
  trace : list event                 (* every [delete] so far, oldest first *)
}.

Definition init : world := mk_world ∅ ∅ 1%positive [].

Abbreviation M := (comp world).

(** *** Storage of instances and the free store *)

Definition load_object (v : var) : M pointer := λ w,
  match instances w !! v with
  | Some up => Ok (m_object up, w)
  | None => Undefined dead_instance
  end.

Definition put (v : var) (up : unique_ptr) : M unit := λ w,
  Ok (tt, mk_world (<[v := up]> (instances w)) (objects w) (next w) (trace w)).

Definition store_object (v : var) (p : pointer) : M unit :=
  load_object v;; put v (mk_unique_ptr p).

Definition begin_lifetime (v : var) (up : unique_ptr) : M unit := λ w,
  match instances w !! v with
  | None => put v up w
  | Some _ => Undefined dead_instance
  end.

Definition end_lifetime (v : var) : M unit := λ w,
  match instances w !! v with
  | Some _ =>
      Ok (tt, mk_world (delete v (instances w)) (objects w) (next w) (trace w))
  | None => Undefined dead_instance
  end.

(** [new object_type(arguments...)] *)
Definition new_object : M addr := λ w,
  Ok (next w, mk_world (instances w) ({[next w]} ∪ objects w)
                       (Pos.succ (next w)) (trace w)).

(** [delete p] for an [object_type* p] whose destructor touches no smart
    pointer; deleting [nullptr] does nothing.  ([UniqueT.delete_object] is
    [delete p] with a destructor that does.) *)
Definition delete_object (p : pointer) : M unit := λ w,
  match p with
  | None => Ok (tt, w)
  | Some a =>
      if decide (a ∈ objects w)
      then Ok (tt, mk_world (instances w) (objects w ∖ {[a]}) (next w)
                            (trace w ++ [destroyed_object a]))
      else Undefined double_free
  end.

(** *** Member functions, in the order of the header *)

(** [unique_ptr()] *)
Definition construct (this : var) : M unit :=
  begin_lifetime this (mk_unique_ptr None).

(** [unique_ptr(object_type* pointer)] *)
Definition construct_ptr (this : var) (p : pointer) : M unit :=
  begin_lifetime this (mk_unique_ptr p).

(** [unique_ptr(unique_ptr&& other) : m_object(other.m_object)
    { other.m_object = nullptr; }] *)
Definition move_construct (this other : var) : M unit :=
  p ← load_object other;
  begin_lifetime this (mk_unique_ptr p);;
  store_object other None.

(** [~unique_ptr() { delete m_object; }] *)
Definition destroy (this : var) : M unit :=
  p ← load_object this;
  delete_object p;;
  end_lifetime this.

(** [void reset()] *)
Definition reset (this : var) : M unit :=
  p ← load_object this;
  delete_object p;;
  store_object this None.

(** [void reset(object_type* pointer)] *)
Definition reset_ptr (this : var) (p : pointer) : M unit :=
  old ← load_object this;
  delete_object old;;
  store_object this p.

(** [operator=(unique_ptr&& other)
    { delete m_object; m_object = other.m_object;
      other.m_object = nullptr; }] *)
Definition move_assign (this other : var) : M unit :=
  old ← load_object this;
  delete_object old;;
  p ← load_object other;
  store_object this p;;
  store_object other None.

(** [object_type* get() const] *)
Definition get (this : var) : M pointer := load_object this.

(** [operator bool() const] *)
Definition operator_bool (this : var) : M bool :=
  p ← load_object this;
  mret (bool_decide (p ≠ None)).

(** [make_unique<object_type>(arguments...)], the result constructed in
    place in the storage [this] of the caller. *)
Definition make_unique (this : var) : M unit :=
  p ← new_object;
  construct_ptr this (Some p).

(** The objects that are live at this point. *)
Definition live_objects : M (gset addr) := λ w, Ok (objects w, w).

(** [object_type* operator->() const { return m_object; }] *)
Definition operator_arrow (this : var) : M pointer := load_object this.

(** [object_type& operator*() const { return *m_object; }] *)
Definition operator_star (this : var) : M lvalue :=
  p ← load_object this;
  live ← live_objects;
  mret (dereference live p).

(** *** Programs over unique pointers *)

Inductive op :=
| New                               (* the caller's own [new object_type] *)
| Construct (v : var)
| ConstructPtr (v : var) (p : pointer)
| MakeUnique (v : var)
| MoveConstruct (v other : var)
| Destroy (v : var)
| Reset (v : var)
| ResetPtr (v : var) (p : pointer)
| MoveAssign (v other : var).

Definition exec (o : op) : M unit :=
  match o with
  | New => new_object;; mret tt
  | Construct v => construct v
  | ConstructPtr v p => construct_ptr v p
  | MakeUnique v => make_unique v
  | MoveConstruct v other => move_construct v other
  | Destroy v => destroy v
  | Reset v => reset v
  | ResetPtr v p => reset_ptr v p
  | MoveAssign v other => move_assign v other
  end.

Fixpoint run (os : list op) : M unit :=
  match os with
  | [] => mret tt
  | o :: os => exec o;; run os
  end.

Definition after (os : list op) : world :=
  match run os init with
  | Ok (_, w) => w
  | Undefined _ => init
  end.

(** *** Vocabulary of the specification *)

(** A raw pointer the caller may hand over: [nullptr], or a live object
    that no unique pointer owns. *)
Definition unmanaged (w : world) (p : pointer) : Prop :=
  match p with
  | None => True
  | Some a =>
      a ∈ objects w ∧ map_Forall (λ _ up, m_object up ≠ Some a) (instances w)
  end.

(** What a caller has to respect: the lifetime of the instances involved
    and raw pointers that are fresh. *)
Definition contract (w : world) (o : op) : Prop :=
  match o with
  | New => True
  | Construct v => instances w !! v = None
  | ConstructPtr v p => instances w !! v = None ∧ unmanaged w p
  | MakeUnique v => instances w !! v = None
  | MoveConstruct v other =>
      instances w !! v = None ∧ is_Some (instances w !! other)
  | Destroy v => is_Some (instances w !! v)
  | Reset v => is_Some (instances w !! v)
  | ResetPtr v p => is_Some (instances w !! v) ∧ unmanaged w p
  | MoveAssign v other =>
      is_Some (instances w !! v) ∧ is_Some (instances w !! other)
  end.

Global Instance unmanaged_dec w p : Decision (unmanaged w p).
Proof. destruct p; simpl; apply _. Defined.

Global Instance contract_dec w o : Decision (contract w o).
Proof. destruct o; simpl; apply _. Defined.

Inductive reachable : world → Prop :=
| reachable_init : reachable init
| reachable_step w o w' :
    reachable w → contract w o → exec o w = Ok (tt, w') → reachable w'.

Fixpoint contracts (os : list op) (w : world) : Prop :=
  match os with
  | [] => True
  | o :: os =>
      contract w o ∧
      match exec o w with
      | Ok (_, w') => contracts os w'
      | Undefined _ => False
      end
  end.

Global Instance contracts_dec os w : Decision (contracts os w).
Proof.
  revert w. induction os as [|o os IH]; intros w; simpl; [apply _|].
  destruct (exec o w) as [[? w']|]; apply _.
Defined.

(** Exclusive ownership, as a property of a world. *)
Record inv (w : world) : Prop := {
  (* the object an instance owns is live *)
  inv_live : ∀ v up p, instances w !! v = Some up →
    m_object up = Some p → p ∈ objects w;
  (* no two instances own the same object *)
  inv_exclusive : ∀ v1 v2 up1 up2 p,
    instances w !! v1 = Some up1 → instances w !! v2 = Some up2 →
    m_object up1 = Some p → m_object up2 = Some p → v1 = v2;
  (* [new] has not yet handed out the address [next w] *)
  inv_next : ∀ p, p ∈ objects w → (p < next w)%positive;
  (* nothing is destroyed twice, and what was destroyed is gone *)
  inv_trace : NoDup (trace w);
  inv_destroyed : ∀ e, e ∈ trace w →
    ∃ p, e = destroyed_object p ∧ (p ∉ objects w) ∧ (p < next w)%positive
}.

End Unique.

(** ** shared_ptr.hpp, for an [object_type] with a destructor of its own *)
Module SharedT.

Import Shared.

Section Destructor.

Context `{ST : size_type}.

(** [~object_type()]: what destroying the object at an address does to the
    instances, the use counts and the objects of the world. *)
Variable destructor : addr → M unit.

(** [delete p]: on a live object the destructor runs and then the storage
    is released; deleting [nullptr] does nothing. *)
Definition delete_object (p : pointer) : M unit := λ w,
  match p with
  | None => Ok (tt, w)
  | Some a =>
      if decide (a ∈ objects w)
      then (destructor a;; Shared.delete_object (Some a)) w
      else Undefined double_free
  end.

(** [void decrement_use_count()]:
    [if(m_use_count && --( *m_use_count ) == 0)
       { delete m_object; delete m_use_count; }];
    [m_use_count] is read again from [this] once [delete m_object] is
    back. *)
Definition decrement_use_count (this : var) : M unit :=
  c ← load_use_count this;
  match c with
  | Some c =>
      n ← read_size_t c;
      write_size_t c (n - 1);;
      if wrap (n - 1) =? 0
      then (p ← load_object this; delete_object p;;
            c' ← load_use_count this; delete_size_t c')
      else mret tt
  | None => mret tt
  end.

(** [~shared_ptr() { decrement_use_count(); }] *)
Definition destroy (this : var) : M unit :=
  decrement_use_count this;;
  end_lifetime this.

(** [void reset()
    { decrement_use_count(); m_object = nullptr; m_use_count = nullptr; }] *)
Definition reset (this : var) : M unit :=
  decrement_use_count this;;
  store_object this None;;
  store_use_count this None.

(** [void reset(object_type* pointer)
    { decrement_use_count(); m_object = pointer;
      m_use_count = new size_t(1); }] *)
Definition reset_ptr (this : var) (p : pointer) : M unit :=
  decrement_use_count this;;
  store_object this p;;
  c ← new_size_t 1;
  store_use_count this (Some c).

(** [operator=(const shared_ptr& other)
    { decrement_use_count(); m_object = other.m_object;
      m_use_count = other.m_use_count; increment_use_count(); }] *)
Definition copy_assign (this other : var) : M unit :=
  decrement_use_count this;;
  p ← load_object other;
  store_object this p;;
  c ← load_use_count other;
  store_use_count this c;;
  increment_use_count this.

(** [operator=(shared_ptr&& other)
    { decrement_use_count(); m_object = other.m_object;
      m_use_count = other.m_use_count;
      other.m_object = nullptr; other.m_use_count = nullptr; }] *)
Definition move_assign (this other : var) : M unit :=
  decrement_use_count this;;
  p ← load_object other;
  store_object this p;;
  c ← load_use_count other;
  store_use_count this c;;
  store_object other None;;
  store_use_count other None.

(** The operations of [Shared.op]; the constructors delete nothing. *)
Definition exec (o : op) : M unit :=
  match o with
  | Destroy v => destroy v
  | Reset v => reset v
  | ResetPtr v p => reset_ptr v p
  | CopyAssign v other => copy_assign v other
  | MoveAssign v other => move_assign v other
  | New | Construct _ | ConstructPtr _ _ | MakeShared _
  | CopyConstruct _ _ | MoveConstruct _ _ => Shared.exec o
  end.

End Destructor.

(** A destructor that touches no smart pointer. *)
Definition inert (destructor : addr → M unit) : Prop :=
  ∀ a w, destructor a w = Ok (tt, w).

End SharedT.

(** ** unique_ptr.hpp, for an [object_type] with a destructor of its own *)
Module UniqueT.

Import Unique.

Section Destructor.

(** [~object_type()]: what destroying the object at an address does to the
    instances and the objects of the world. *)
Variable destructor : addr → M unit.

(** [delete p]: on a live object the destructor runs and then the storage
    is released; deleting [nullptr] does nothing. *)
Definition delete_object (p : pointer) : M unit := λ w,
  match p with
  | None => Ok (tt, w)
  | Some a =>
      if decide (a ∈ objects w)
      then (destructor a;; Unique.delete_object (Some a)) w
      else Undefined double_free
  end.

(** [~unique_ptr() { delete m_object; }] *)
Definition destroy (this : var) : M unit :=
  p ← load_object this;
  delete_object p;;
  end_lifetime this.

(** [void reset() { delete m_object; m_object = nullptr; }] *)
Definition reset (this : var) : M unit :=
  p ← load_object this;
  delete_object p;;
  store_object this None.

(** [void reset(object_type* pointer)
    { delete m_object; m_object = pointer; }] *)
Definition reset_ptr (this : var) (p : pointer) : M unit :=
  old ← load_object this;
  delete_object old;;
  store_object this p.

(** [operator=(unique_ptr&& other)
    { delete m_object; m_object = other.m_object;
      other.m_object = nullptr; }] *)
Definition move_assign (this other : var) : M unit :=
  old ← load_object this;
  delete_object old;;
  p ← load_object other;
  store_object this p;;
  store_object other None.

(** The operations of [Unique.op]; the constructors delete nothing. *)
Definition exec (o : op) : M unit :=
  match o with
  | Destroy v => destroy v
  | Reset v => reset v
  | ResetPtr v p => reset_ptr v p
  | MoveAssign v other => move_assign v other
  | New | Construct _ | ConstructPtr _ _ | MakeUnique _
  | MoveConstruct _ _ => Unique.exec o
  end.

End Destructor.

(** A destructor that touches no smart pointer. *)
Definition inert (destructor : addr → M unit) : Prop :=
  ∀ a w, destructor a w = Ok (tt, w).

End UniqueT.

(** * Example programs *)

(** [shared_ptr<T> a(new T);] *)
Definition one_owner : list Shared.op := [Shared.MakeShared "a"].

(** [shared_ptr<T> a(new T); shared_ptr<T> b(a);] *)
Definition two_aliases : list Shared.op := [Shared.MakeShared "a"; Shared.CopyConstruct "b" "a"].

(** [shared_ptr<T> a(new T); shared_ptr<T> b(new T);] *)
Definition two_owners : list Shared.op := [Shared.MakeShared "a"; Shared.MakeShared "b"].

(** [unique_ptr<T> a(new T); unique_ptr<T> b(new T);] *)
Definition two_unique : Unique.world :=
  Unique.mk_world
    (<["b" := Unique.mk_unique_ptr (Some 2%positive)]>
       (<["a" := Unique.mk_unique_ptr (Some 1%positive)]> ∅))
    {[1%positive; 2%positive]} 3%positive [].

(** [unique_ptr<T> a(new T); unique_ptr<T> b(new T);] as a program. *)
Definition two_unique_owners : list Unique.op :=
  [Unique.MakeUnique "a"; Unique.MakeUnique "b"].

(** [struct node { shared_ptr<node> next; };] with the node at address 1:
    its member [next] is the instance ["n"], and [~node] destroys it. *)
Definition node_destructor `{size_type} (a : addr) : Shared.M unit :=
  if decide (a = 1%positive) then Shared.destroy "n" else mret tt.

(** [shared_ptr<node> head(new node);], the member [head->next] empty. *)
Definition one_node : list Shared.op :=
  [Shared.New; Shared.Construct "n"; Shared.ConstructPtr "head" (Some 1%positive)].

(** [shared_ptr<node> head(new node); shared_ptr<node> x(new node);],
    the member [head->next] empty and the node of [x] left to itself. *)
Definition node_and_owner : list Shared.op :=
  one_node ++ [Shared.MakeShared "x"].

(** [struct item { unique_ptr<item> next; };] with the item at address 1:
    its member [next] is the instance ["n"], and [~item] destroys it. *)
Definition item_destructor (a : addr) : Unique.M unit :=
  if decide (a = 1%positive) then Unique.destroy "n" else mret tt.

(** [unique_ptr<item> head(new item);], the member [head->next] empty. *)
Definition one_item : list Unique.op :=
  [Unique.New; Unique.Construct "n"; Unique.ConstructPtr "head" (Some 1%positive)].

(** [unique_ptr<item> head(new item); unique_ptr<item> x(new item);],
    the member [head->next] empty and the item of [x] left to itself. *)
Definition item_and_owner : list Unique.op :=
  one_item ++ [Unique.MakeUnique "x"].


(** What is left of a world once [head] has released its node: the node,
    its member ["n"] and the use count are gone, [head] still holds the
    two pointers. *)
Definition node_released (w : Shared.world) : Shared.world :=
  Shared.mk_world (delete "n" (Shared.instances w)) (Shared.objects w ∖ {[1%positive]})
    (delete 2%positive (Shared.counters w)) (Shared.next w)
    (Shared.trace w ++ [destroyed_object 1%positive; freed_counter 2%positive]).

(** What is left of a world once the item of [head] is deleted. *)
Definition item_released (w : Unique.world) : Unique.world :=
  Unique.mk_world (delete "n" (Unique.instances w)) (Unique.objects w ∖ {[1%positive]})
    (Unique.next w) (Unique.trace w ++ [destroyed_object 1%positive]).

(** * Verification *)

(** ** Facts about shared_ptr.hpp *)

Section Verification.

Import Shared.
Context `{ST : size_type}.

Lemma wrap_small z : 0 ≤ z ≤ SIZE_MAX → wrap z = z.
Proof. intros Hz. unfold wrap. apply Z.mod_small. lia. Qed.

Lemma wrap_1 : wrap 1 = 1.
Proof. apply wrap_small. pose proof SIZE_MAX_least. lia. Qed.

(** *** Counting the instances that hold a use count *)

Lemma refs_delete c v (m : gmap var shared_ptr) :
  (refs c (delete v m) + holds c (m !! v) = refs c m)%nat.
Proof.
  unfold refs, holds. rewrite map_filter_delete, map_size_delete.
  destruct (m !! v) as [sp|] eqn:Hv.
  - destruct (decide (m_use_count sp = Some c)) as [Hc|Hc].
    + assert (Hf : filter (λ kv : var * shared_ptr, m_use_count kv.2 = Some c) m !! v
                   = Some sp) by (by apply map_lookup_filter_Some).
      rewrite Hf. simpl.
      assert (size (filter (λ kv : var * shared_ptr, m_use_count kv.2 = Some c) m) ≠ 0%nat).
      { apply map_size_non_empty_iff. intros He. rewrite He in Hf.
        by rewrite lookup_empty in Hf. }
      lia.
    + assert (Hf : filter (λ kv : var * shared_ptr, m_use_count kv.2 = Some c) m !! v
                   = None).
      { apply map_lookup_filter_None. right. intros sp' Hsp'. simpl. congruence. }
      rewrite Hf. simpl. lia.
  - assert (Hf : filter (λ kv : var * shared_ptr, m_use_count kv.2 = Some c) m !! v
                 = None) by (apply map_lookup_filter_None; by left).
    rewrite Hf. simpl. lia.
Qed.

Lemma refs_insert c v sp (m : gmap var shared_ptr) :
  (refs c (<[v := sp]> m) + holds c (m !! v) = refs c m + holds c (Some sp))%nat.
Proof.
  pose proof (refs_delete c v m) as H1.
  pose proof (refs_delete c v (<[v := sp]> m)) as H2.
  rewrite delete_insert_eq, lookup_insert_eq in H2. lia.
Qed.

Lemma refs_positive c v sp (m : gmap var shared_ptr) :
  m !! v = Some sp → m_use_count sp = Some c → (1 ≤ refs c m)%nat.
Proof.
  intros Hv Hc. pose proof (refs_delete c v m) as H. rewrite Hv in H.
  simpl in H. rewrite decide_True in H by done. lia.
Qed.

Lemma refs_unheld c (m : gmap var shared_ptr) :
  (∀ v sp, m !! v = Some sp → m_use_count sp ≠ Some c) → refs c m = 0%nat.
Proof.
  intros H. unfold refs. apply map_size_empty_iff, map_eq. intros v.
  rewrite lookup_empty. apply map_lookup_filter_None. right.
  intros sp Hv. simpl. by apply (H v).
Qed.

(** The sole holder of a use count: nobody else holds it. *)
Lemma refs_sole c v sp (m : gmap var shared_ptr) :
  m !! v = Some sp → m_use_count sp = Some c → refs c m = 1%nat →
  ∀ v' sp', m !! v' = Some sp' → m_use_count sp' = Some c → v' = v.
Proof.
  intros Hv Hc H1 v' sp' Hv' Hc'.
  destruct (decide (v' = v)) as [|Hne]; [done|].
  pose proof (refs_delete c v m) as Hd. rewrite Hv in Hd. simpl in Hd.
  rewrite decide_True in Hd by done.
  assert (1 ≤ refs c (delete v m))%nat; [|lia].
  apply (refs_positive c v' sp'); [|done]. by rewrite lookup_delete_ne.
Qed.

(** *** Running the primitives *)

Ltac unfold_comp :=
  unfold mbind, comp_bind, mret, comp_ret.

Ltac unfold_prims :=
  unfold load_object, load_use_count, store_object, store_use_count, field, put,
    begin_lifetime, end_lifetime, new_object, new_size_t, read_size_t,
    write_size_t, delete_object, delete_size_t;
  unfold_comp.

(** Rewrite every lookup the hypotheses or the map laws determine. *)
Ltac lookups :=
  repeat first
    [ progress simpl
    | rewrite lookup_insert_eq
    | rewrite lookup_delete_eq
    | rewrite lookup_insert_ne by congruence
    | rewrite lookup_delete_ne by congruence
    | rewrite insert_insert_eq
    | match goal with
      | H : ?m !! ?k = _ |- context [?m !! ?k] => rewrite H
      | H : ?a = _ |- context [match ?a with _ => _ end] => rewrite H
      end
    | rewrite decide_True by assumption
    | rewrite decide_False by assumption ].

Lemma bind_Ok {W A B} (m : comp W A) (k : A → comp W B) w a w' :
  m w = Ok (a, w') → (m ≫= k) w = k a w'.
Proof. intros H. unfold_comp. by rewrite H. Qed.

Lemma bind_Undefined {W A B} (m : comp W A) (k : A → comp W B) w f :
  m w = Undefined f → (m ≫= k) w = Undefined f.
Proof. intros H. unfold_comp. by rewrite H. Qed.

(** The two stores that empty an instance. *)
Lemma clear_fields w v sp :
  instances w !! v = Some sp →
  (store_object v None;; store_use_count v None) w
  = Ok (tt, mk_world (<[v := null]> (instances w)) (objects w) (counters w)
                     (next w) (trace w)).
Proof. intros Hv. unfold_prims. by lookups. Qed.

(** *** [decrement_use_count], case by case *)

Lemma decrement_none w v sp :
  instances w !! v = Some sp → m_use_count sp = None →
  decrement_use_count v w = Ok (tt, w).
Proof. intros Hv Hc. unfold decrement_use_count. unfold_prims. by lookups. Qed.

Lemma decrement_dangling w v sp c :
  instances w !! v = Some sp → m_use_count sp = Some c →
  counters w !! c = None →
  decrement_use_count v w = Undefined use_after_free.
Proof. intros Hv Hc Hn. unfold decrement_use_count. unfold_prims. by lookups. Qed.

Lemma decrement_shared w v sp c n :
  instances w !! v = Some sp → m_use_count sp = Some c →
  counters w !! c = Some n → wrap (n - 1) ≠ 0 →
  decrement_use_count v w
  = Ok (tt, mk_world (instances w) (objects w)
                     (<[c := wrap (n - 1)]> (counters w)) (next w) (trace w)).
Proof.
  intros Hv Hc Hn Hz. unfold decrement_use_count. unfold_prims. lookups.
  apply Z.eqb_neq in Hz. by rewrite Hz.
Qed.

Lemma decrement_last w v sp c n p :
  instances w !! v = Some sp → m_use_count sp = Some c →
  counters w !! c = Some n → wrap (n - 1) = 0 →
  m_object sp = Some p → p ∈ objects w →
  decrement_use_count v w
  = Ok (tt, mk_world (instances w) (objects w ∖ {[p]})
                     (delete c (counters w)) (next w)
                     (trace w ++ [destroyed_object p; freed_counter c])).
Proof.
  intros Hv Hc Hn Hz Hp Hlive. unfold decrement_use_count. unfold_prims. lookups.
  rewrite Hz. lookups. rewrite delete_insert_eq, <- app_assoc. done.
Qed.

Lemma decrement_last_null w v sp c n :
  instances w !! v = Some sp → m_use_count sp = Some c →
  counters w !! c = Some n → wrap (n - 1) = 0 →
  m_object sp = None →
  decrement_use_count v w
  = Ok (tt, mk_world (instances w) (objects w)
                     (delete c (counters w)) (next w)
                     (trace w ++ [freed_counter c])).
Proof.
  intros Hv Hc Hn Hz Hp. unfold decrement_use_count. unfold_prims. lookups.
  rewrite Hz. lookups. by rewrite delete_insert_eq.
Qed.

Lemma decrement_last_dangling w v sp c n p :
  instances w !! v = Some sp → m_use_count sp = Some c →
  counters w !! c = Some n → wrap (n - 1) = 0 →
  m_object sp = Some p → p ∉ objects w →
  decrement_use_count v w = Undefined double_free.
Proof.
  intros Hv Hc Hn Hz Hp Hlive. unfold decrement_use_count. unfold_prims. lookups.
  rewrite Hz. by lookups.
Qed.

(** Whatever it does to the free store, [decrement_use_count] leaves the
    fields of every instance alone. *)
Lemma decrement_instances w v w' :
  decrement_use_count v w = Ok (tt, w') →
  instances w' = instances w ∧ next w' = next w ∧ is_Some (instances w !! v).
Proof.
  intros H.
  destruct (instances w !! v) as [sp|] eqn:Hv; cycle 1.
  { revert H. unfold decrement_use_count. unfold_prims. by lookups. }
  destruct (m_use_count sp) as [c|] eqn:Hc; cycle 1.
  { rewrite (decrement_none w v sp) in H by done. naive_solver. }
  destruct (counters w !! c) as [n|] eqn:Hn; cycle 1.
  { by rewrite (decrement_dangling w v sp c) in H. }
  destruct (decide (wrap (n - 1) = 0)) as [Hz|Hz]; cycle 1.
  { rewrite (decrement_shared w v sp c n) in H by done. naive_solver. }
  destruct (m_object sp) as [p|] eqn:Hp; cycle 1.
  { rewrite (decrement_last_null w v sp c n) in H by done. naive_solver. }
  destruct (decide (p ∈ objects w)).
  - rewrite (decrement_last w v sp c n p) in H by done. naive_solver.
  - by rewrite (decrement_last_dangling w v sp c n p) in H.
Qed.

(** Case analysis on the lookups in an updated map. *)
Ltac map_cases :=
  repeat match goal with
  | H : <[_ := _]> _ !! _ = Some _ |- _ =>
      apply lookup_insert_Some in H; destruct H as [[<- <-]|[? H]]
  | H : <[_ := _]> _ !! _ = None |- _ =>
      apply lookup_insert_None in H; destruct H as [H ?]
  | H : delete _ _ !! _ = Some _ |- _ =>
      apply lookup_delete_Some in H; destruct H as [? H]
  | H : is_Some (<[_ := _]> _ !! _) |- _ =>
      apply lookup_insert_is_Some in H; destruct H as [<-|[? H]]
  | H : is_Some (delete _ _ !! _) |- _ =>
      apply lookup_delete_is_Some in H; destruct H as [? H]
  | H : _ ∈ _ ++ _ |- _ => apply elem_of_app in H; destruct H as [H|H]
  | H : _ ∈ _ :: _ |- _ => apply elem_of_cons in H; destruct H as [H|H]
  | H : _ ∈ [] |- _ => by apply elem_of_nil in H
  | H : _ ∈ _ ∪ _ |- _ => apply elem_of_union in H; destruct H as [H|H]
  | H : _ ∈ {[ _ ]} |- _ => apply elem_of_singleton in H; subst
  | H : _ ∈ _ ∖ _ |- _ => apply elem_of_difference in H; destruct H as [H ?]
  | H : is_Some None |- _ => by destruct H
  | H : is_Some (m_object null) |- _ => by destruct H
  | H : is_Some (m_use_count null) |- _ => by destruct H
  | H : m_object null = Some _ |- _ => discriminate H
  | H : m_use_count null = Some _ |- _ => discriminate H
  end.

(** Bring the clauses of the discipline into the context. *)
Ltac inv_facts I :=
  pose proof (inv_count _ I); pose proof (inv_held _ I);
  pose proof (inv_paired _ I); pose proof (inv_live _ I);
  pose proof (inv_alias _ I); pose proof (inv_next_objects _ I);
  pose proof (inv_next_counters _ I); pose proof (inv_trace _ I);
  pose proof (inv_destroyed _ I); pose proof (inv_freed _ I).

(** *** The steps that keep the discipline *)

Lemma inv_init : inv init.
Proof.
  constructor; simpl; intros; rewrite ?lookup_empty in *;
    try done; try set_solver.
  apply NoDup_nil_2.
Qed.

Lemma inv_count_value w c n :
  inv w → counters w !! c = Some n → wrap (n - 1) = n - 1 ∧ 1 ≤ n ≤ SIZE_MAX.
Proof.
  intros I Hn. destruct (inv_count w I c n Hn) as [_ Hr].
  split; [|done]. apply wrap_small. lia.
Qed.

(** Relate the number of holders before and after an update. *)
Ltac count_holders :=
  repeat match goal with
  | |- context [refs ?c (<[?v := ?sp]> ?m)] =>
      lazymatch goal with
      | _ : (refs c (<[v := sp]> m) + _ = _)%nat |- _ => fail
      | _ => pose proof (refs_insert c v sp m)
      end
  | _ : context [refs ?c (<[?v := ?sp]> ?m)] |- _ =>
      lazymatch goal with
      | _ : (refs c (<[v := sp]> m) + _ = _)%nat |- _ => fail
      | _ => pose proof (refs_insert c v sp m)
      end
  | |- context [refs ?c (delete ?v ?m)] =>
      lazymatch goal with
      | _ : (refs c (delete v m) + _ = _)%nat |- _ => fail
      | _ => pose proof (refs_delete c v m)
      end
  end;
  repeat match goal with
  | H : context [holds _ (<[?v := _]> _ !! ?v)] |- _ =>
      rewrite lookup_insert_eq in H
  | H : context [holds _ (<[_ := _]> _ !! _)] |- _ =>
      rewrite lookup_insert_ne in H by congruence
  | H : context [holds _ (?m !! ?v)], Hv : ?m !! ?v = _ |- _ =>
      rewrite Hv in H
  end;
  unfold holds in *; simpl in *;
  repeat match goal with
  | H : context [decide (?a = ?b)] |- _ =>
      destruct (decide (a = b)); simplify_eq
  end.

(** What the discipline says about the use counts in the context. *)
Ltac count_facts I :=
  repeat match goal with
  | H : counters _ !! ?c = Some ?n |- _ =>
      lazymatch goal with
      | _ : n = Z.of_nat (refs c _) |- _ => fail
      | _ => destruct (inv_count _ I c n H) as [? ?]
      end
  end.

Ltac count_solve I := count_facts I; count_holders; lia.

(** The premise of [inv_alias] when one side is empty. *)
Ltac alias_absurd :=
  match goal with
  | H : _ ∧ _ ∨ _ ∧ _ |- _ =>
      destruct H as [[[? ?] ?]|[[? ?] ?]]; simpl in *; congruence
  end.

(** What the discipline says about the deleted addresses in the context. *)
Ltac trace_facts I :=
  repeat match goal with
  | H : destroyed_object ?p ∈ trace _ |- _ =>
      lazymatch goal with
      | _ : p ∉ objects _ |- _ => fail
      | _ => destruct (inv_destroyed _ I p H) as [? ?]
      end
  | H : freed_counter ?c ∈ trace _ |- _ =>
      lazymatch goal with
      | _ : counters _ !! c = None |- _ => fail
      | _ => destruct (inv_freed _ I c H) as [? ?]
      end
  end.

(** What the discipline says about the live addresses in the context. *)
Ltac next_facts I :=
  repeat match goal with
  | H : ?p ∈ objects _ |- _ =>
      lazymatch goal with
      | _ : (p < next _)%positive |- _ => fail
      | _ => pose proof (inv_next_objects _ I p H)
      end
  | H : counters _ !! ?c = Some _ |- _ =>
      lazymatch goal with
      | _ : (c < next _)%positive |- _ => fail
      | _ => pose proof (inv_next_counters _ I c (mk_is_Some _ _ H))
      end
  | H : is_Some (counters _ !! ?c) |- _ =>
      lazymatch goal with
      | _ : (c < next _)%positive |- _ => fail
      | _ => pose proof (inv_next_counters _ I c H)
      end
  end.

Ltac inv_close I :=
  first
    [ by eauto
    | count_solve I
    | alias_absurd
    | apply lookup_insert_is_Some'; by eauto
    | apply elem_of_union_r; by eauto
    | trace_facts I; next_facts I; lia
    | trace_facts I; next_facts I; split; [|done || lia];
      first [ done
            | apply lookup_insert_None; split; [done|congruence || lia]
            | apply lookup_delete_None; by auto
            | rewrite elem_of_union, elem_of_singleton;
              intros [?|?]; [lia|done] ] ].

Lemma inv_release_shared w v sp c n :
  inv w → instances w !! v = Some sp → m_use_count sp = Some c →
  counters w !! c = Some n → n ≠ 1 →
  inv (mk_world (<[v := null]> (instances w)) (objects w)
                (<[c := n - 1]> (counters w)) (next w) (trace w)).
Proof.
  intros I Hv Hc Hn Hn1. inv_facts I.
  constructor; simpl; intros; map_cases; simpl in *; inv_close I.
Qed.

Lemma inv_release_last w v sp c p :
  inv w → instances w !! v = Some sp → m_use_count sp = Some c →
  counters w !! c = Some 1 → m_object sp = Some p →
  inv (mk_world (<[v := null]> (instances w)) (objects w ∖ {[p]})
                (delete c (counters w)) (next w)
                (trace w ++ [destroyed_object p; freed_counter c])).
Proof.
  intros I Hv Hc Hn Hp. inv_facts I.
  assert (Hsole : ∀ v' sp', instances w !! v' = Some sp' →
                            m_use_count sp' = Some c → v' = v).
  { apply (refs_sole c v sp); [done..|]. count_facts I. lia. }
  assert (Hobj : ∀ v' sp', instances w !! v' = Some sp' →
                           m_object sp' = Some p → v' = v).
  { intros v' sp' Hv' Hp'. apply (Hsole v' sp'); [done|].
    assert (sp' = sp) as -> by (eapply (inv_alias w I); eauto; right;
      split; [by eexists|congruence]).
    done. }
  constructor; simpl.
  - intros; map_cases; inv_close I.
  - intros v0 sp0 c0 ? ?; map_cases; simpl in *.
    apply lookup_delete_is_Some. split; [|by eauto].
    intros <-. assert (v0 = v) by eauto. congruence.
  - intros; map_cases; inv_close I.
  - intros v0 sp0 p0 ? ?; map_cases; simpl in *.
    apply elem_of_difference. split; [by eauto|].
    intros ->%elem_of_singleton. assert (v0 = v) by eauto. congruence.
  - intros; map_cases; inv_close I.
  - intros p0 [? _]%elem_of_difference. by eauto.
  - intros; map_cases; inv_close I.
  - apply NoDup_app. split; [done|]. split.
    + intros e He Hin. map_cases; subst e; trace_facts I;
        [by eauto|congruence].
    + apply NoDup_cons. split; [|apply NoDup_singleton].
      by intros ?%list_elem_of_singleton.
  - intros p0 Hin. map_cases; simplify_eq; trace_facts I.
    + split; [set_solver|done].
    + split; [set_solver|by eauto].
  - intros c0 Hin. map_cases; simplify_eq; trace_facts I.
    + split; [apply lookup_delete_None; by auto|done].
    + split; [apply lookup_delete_None; by auto|].
      apply (inv_next_counters w I). by eexists.
Qed.

Lemma inv_release_last_null w v sp c :
  inv w → instances w !! v = Some sp → m_use_count sp = Some c →
  counters w !! c = Some 1 → m_object sp = None →
  inv (mk_world (<[v := null]> (instances w)) (objects w)
                (delete c (counters w)) (next w)
                (trace w ++ [freed_counter c])).
Proof.
  intros I Hv Hc Hn Hp. inv_facts I.
  assert (Hsole : ∀ v' sp', instances w !! v' = Some sp' →
                            m_use_count sp' = Some c → v' = v).
  { apply (refs_sole c v sp); [done..|]. count_facts I. lia. }
  constructor; simpl.
  - intros; map_cases; inv_close I.
  - intros v0 sp0 c0 ? ?; map_cases; simpl in *.
    apply lookup_delete_is_Some. split; [|by eauto].
    intros <-. assert (v0 = v) by eauto. congruence.
  - intros; map_cases; inv_close I.
  - intros; map_cases; inv_close I.
  - intros; map_cases; inv_close I.
  - done.
  - intros; map_cases; inv_close I.
  - apply NoDup_app. split; [done|]. split; [|apply NoDup_singleton].
    intros e He Hin. map_cases; subst e; trace_facts I. congruence.
  - intros p0 Hin. map_cases; simplify_eq; trace_facts I. done.
  - intros c0 Hin. map_cases; simplify_eq; trace_facts I.
    + split; [apply lookup_delete_None; by auto|done].
    + split; [apply lookup_delete_None; by auto|].
      apply (inv_next_counters w I). by eexists.
Qed.

(** [reset()] on any live instance. *)
Lemma reset_inv w v sp :
  inv w → instances w !! v = Some sp →
  ∃ w', reset v w = Ok (tt, w') ∧ inv w' ∧
    instances w' = <[v := null]> (instances w) ∧
    next w' = next w ∧
    (∀ a, a ∈ objects w → m_object sp ≠ Some a → a ∈ objects w') ∧
    (∀ c n', counters w' !! c = Some n' →
       ∃ n, counters w !! c = Some n ∧ n' ≤ n).
Proof.
  intros I Hv. unfold reset.
  destruct (m_use_count sp) as [c|] eqn:Hc; cycle 1.
  { (* nothing held *)
    rewrite (bind_Ok _ _ w tt w) by (by apply (decrement_none w v sp)).
    rewrite (clear_fields w v sp) by done.
    eexists; split; [done|]. simpl.
    assert (Hnull : sp = null).
    { destruct sp as [p c']. simpl in *. subst c'. unfold null. f_equal.
      destruct p as [p|]; [|done].
      destruct (inv_paired w I v _ Hv) as [? ?]; simpl in *; [by eexists|done]. }
    subst sp. rewrite insert_id by done.
    split; [by destruct w|]. repeat split; eauto.
    intros c n' Hn'. exists n'. split; [done|lia]. }
  destruct (inv_held w I v sp c Hv Hc) as [n Hn].
  destruct (inv_count_value w c n I Hn) as [Hw Hrange].
  destruct (decide (n = 1)) as [->|Hn1]; cycle 1.
  { (* other owners remain *)
    rewrite (bind_Ok _ _ w tt _
               (decrement_shared w v sp c n Hv Hc Hn ltac:(lia))).
    rewrite (clear_fields _ v sp) by done. simpl.
    eexists; split; [done|]. simpl. rewrite Hw.
    split; [by apply (inv_release_shared w v sp c n)|].
    repeat split; auto.
    intros c' n' Hn'. destruct (decide (c' = c)) as [->|Hne].
    - rewrite lookup_insert_eq in Hn'. exists n. split; [done|].
      injection Hn' as <-. lia.
    - rewrite lookup_insert_ne in Hn' by done. exists n'. split; [done|lia]. }
  (* the last owner *)
  assert (Hframe : ∀ c' n', delete c (counters w) !! c' = Some n' →
                     ∃ n, counters w !! c' = Some n ∧ n' ≤ n).
  { intros c' n' [_ Hn']%lookup_delete_Some. exists n'. split; [done|lia]. }
  destruct (m_object sp) as [p|] eqn:Hp.
  - assert (Hlive : p ∈ objects w) by (by eapply (inv_live w I)).
    rewrite (bind_Ok _ _ w tt _
               (decrement_last w v sp c 1 p Hv Hc Hn Hw Hp Hlive)).
    rewrite (clear_fields _ v sp) by done. simpl.
    eexists; split; [done|]. simpl.
    split; [by apply (inv_release_last w v sp c p)|].
    repeat split; auto. intros a Ha Hne. set_solver.
  - rewrite (bind_Ok _ _ w tt _
               (decrement_last_null w v sp c 1 Hv Hc Hn Hw Hp)).
    rewrite (clear_fields _ v sp) by done. simpl.
    eexists; split; [done|]. simpl.
    split; [by apply (inv_release_last_null w v sp c)|].
    repeat split; auto.
Qed.

(** The caller's [new object_type]. *)
Lemma inv_new w :
  inv w →
  inv (mk_world (instances w) ({[next w]} ∪ objects w) (counters w)
                (Pos.succ (next w)) (trace w)).
Proof.
  intros I. inv_facts I.
  constructor; simpl; intros; map_cases; simpl in *; inv_close I.
Qed.

(** [shared_ptr()] on fresh storage. *)
Lemma inv_construct w v :
  inv w → instances w !! v = None →
  inv (mk_world (<[v := null]> (instances w)) (objects w) (counters w)
                (next w) (trace w)).
Proof.
  intros I Hv. inv_facts I.
  constructor; simpl; intros; map_cases; simpl in *; inv_close I.
Qed.

(** The storage of an empty instance goes away. *)
Lemma inv_end w v :
  inv w → instances w !! v = Some null →
  inv (mk_world (delete v (instances w)) (objects w) (counters w)
                (next w) (trace w)).
Proof.
  intros I Hv. inv_facts I.
  constructor; simpl; intros; map_cases; simpl in *; inv_close I.
Qed.

(** An empty instance takes a raw pointer and a fresh use count. *)
Lemma inv_adopt w v p :
  inv w → instances w !! v = Some null → unmanaged w p →
  inv (mk_world (<[v := mk_shared_ptr p (Some (next w))]> (instances w))
                (objects w) (<[next w := 1]> (counters w))
                (Pos.succ (next w)) (trace w)).
Proof.
  intros I Hv Hp. inv_facts I.
  assert (Hfresh : counters w !! next w = None).
  { destruct (counters w !! next w) eqn:Hn; [|done]. next_facts I. lia. }
  assert (Hunheld : ∀ v' sp', instances w !! v' = Some sp' →
                              m_use_count sp' ≠ Some (next w)).
  { intros v' sp' Hv' Hc'. destruct (inv_held w I v' sp' _ Hv' Hc'). congruence. }
  assert (Hunowned : ∀ v' sp' a, instances w !! v' = Some sp' →
                                 p = Some a → m_object sp' ≠ Some a).
  { intros v' sp' a Hv' ->. destruct Hp as [_ Hp]. by apply (Hp v' sp'). }
  pose proof SIZE_MAX_least.
  constructor; simpl.
  - intros c n Hn. map_cases.
    + pose proof (refs_unheld _ _ Hunheld). count_holders. lia.
    + count_solve I.
  - intros v0 sp0 c Hv0 Hc0. apply lookup_insert_is_Some'.
    map_cases; simpl in *; simplify_eq; by eauto.
  - intros; map_cases; simpl in *; inv_close I.
  - intros v0 sp0 p0 Hv0 Hp0. map_cases; simpl in *; [|by eauto].
    subst p. by destruct Hp.
  - intros v1 v2 sp1 sp2 Hv1 Hv2 Hor. map_cases; simpl in *; try done.
    + destruct Hor as [[_ Hor]|[[a Ha] Hor]]; exfalso.
      * exact (Hunheld v1 sp1 Hv1 Hor).
      * exact (Hunowned v1 sp1 a Hv1 ltac:(congruence) Ha).
    + destruct Hor as [[_ Hor]|[[a Ha] Hor]]; exfalso.
      * exact (Hunheld v2 sp2 Hv2 (eq_sym Hor)).
      * exact (Hunowned v2 sp2 a Hv2 Ha ltac:(congruence)).
    + by eauto.
  - intros; map_cases; inv_close I.
  - intros; map_cases; inv_close I.
  - done.
  - intros; map_cases; inv_close I.
  - intros; map_cases; inv_close I.
Qed.

(** An empty instance becomes one more owner of what [other] holds. *)
Lemma inv_share w v other sp c n :
  inv w → instances w !! v = Some null → instances w !! other = Some sp →
  m_use_count sp = Some c → counters w !! c = Some n → n < SIZE_MAX →
  inv (mk_world (<[v := sp]> (instances w)) (objects w)
                (<[c := n + 1]> (counters w)) (next w) (trace w)).
Proof.
  intros I Hv Ho Hc Hn Hmax. inv_facts I.
  constructor; simpl; intros; map_cases; simpl in *; inv_close I.
Qed.

(** An empty instance takes over what [other] holds. *)
Lemma inv_take w v other sp :
  inv w → instances w !! v = Some null → instances w !! other = Some sp →
  v ≠ other →
  inv (mk_world (<[other := null]> (<[v := sp]> (instances w))) (objects w)
                (counters w) (next w) (trace w)).
Proof.
  intros I Hv Ho Hne. inv_facts I.
  constructor; simpl; intros; map_cases; simpl in *; inv_close I.
Qed.

(** *** What the member functions do once the old reference is released *)

Lemma eta_shared_ptr sp : mk_shared_ptr (m_object sp) (m_use_count sp) = sp.
Proof. by destruct sp. Qed.

Ltac after_decrement H :=
  let Hi := fresh "Hi" in
  let Hl := fresh "Hl" in
  destruct (decrement_instances _ _ _ H) as (Hi & _ & Hl);
  rewrite <- Hi in Hl; destruct Hl as [? Hl];
  rewrite (bind_Ok _ _ _ _ _ H).

Lemma reset_after w v w0 :
  decrement_use_count v w = Ok (tt, w0) →
  reset v w = Ok (tt, mk_world (<[v := null]> (instances w0)) (objects w0)
                               (counters w0) (next w0) (trace w0)).
Proof. intros H. unfold reset. after_decrement H. by eapply clear_fields. Qed.

Lemma reset_decrement w v w1 :
  reset v w = Ok (tt, w1) →
  ∃ w0, decrement_use_count v w = Ok (tt, w0) ∧
    w1 = mk_world (<[v := null]> (instances w0)) (objects w0) (counters w0)
                  (next w0) (trace w0).
Proof.
  intros H. destruct (decrement_use_count v w) as [[[] w0]|f] eqn:Hd.
  - exists w0. split; [done|]. rewrite (reset_after w v w0 Hd) in H. congruence.
  - unfold reset in H. by rewrite (bind_Undefined _ _ _ _ Hd) in H.
Qed.

Lemma destroy_after w v w0 :
  decrement_use_count v w = Ok (tt, w0) →
  destroy v w = Ok (tt, mk_world (delete v (instances w0)) (objects w0)
                                 (counters w0) (next w0) (trace w0)).
Proof. intros H. unfold destroy. after_decrement H. unfold_prims. by lookups. Qed.

Lemma reset_ptr_after w v p w0 :
  decrement_use_count v w = Ok (tt, w0) →
  reset_ptr v p w
  = Ok (tt, mk_world (<[v := mk_shared_ptr p (Some (next w0))]> (instances w0))
                     (objects w0) (<[next w0 := wrap 1]> (counters w0))
                     (Pos.succ (next w0)) (trace w0)).
Proof. intros H. unfold reset_ptr. after_decrement H. unfold_prims. by lookups. Qed.

Lemma move_assign_after w v other sp w0 :
  decrement_use_count v w = Ok (tt, w0) →
  instances w0 !! other = Some sp → v ≠ other →
  move_assign v other w
  = Ok (tt, mk_world (<[other := null]> (<[v := sp]> (instances w0)))
                     (objects w0) (counters w0) (next w0) (trace w0)).
Proof.
  intros H Ho Hne. unfold move_assign. after_decrement H. unfold_prims.
  lookups. by rewrite eta_shared_ptr.
Qed.

Lemma move_assign_self_after w v w0 :
  decrement_use_count v w = Ok (tt, w0) →
  move_assign v v w
  = Ok (tt, mk_world (<[v := null]> (instances w0)) (objects w0)
                     (counters w0) (next w0) (trace w0)).
Proof. intros H. unfold move_assign. after_decrement H. unfold_prims. by lookups. Qed.

Lemma copy_assign_after w v other sp w0 :
  decrement_use_count v w = Ok (tt, w0) →
  instances w0 !! other = Some sp → v ≠ other →
  copy_assign v other w
  = match m_use_count sp with
    | None =>
        Ok (tt, mk_world (<[v := sp]> (instances w0)) (objects w0) (counters w0)
                         (next w0) (trace w0))
    | Some c =>
        match counters w0 !! c with
        | Some n =>
            Ok (tt, mk_world (<[v := sp]> (instances w0)) (objects w0)
                             (<[c := wrap (n + 1)]> (counters w0))
                             (next w0) (trace w0))
        | None => Undefined use_after_free
        end
    end.
Proof.
  intros H Ho Hne. unfold copy_assign. after_decrement H.
  unfold increment_use_count. unfold_prims. lookups. rewrite eta_shared_ptr.
  destruct (m_use_count sp) as [c|]; [|done].
  destruct (counters w0 !! c) as [n|] eqn:Hn; by lookups.
Qed.

(** *** Objects with a destructor of their own *)

(** With a destructor that touches no smart pointer, the member functions
    of [SharedT] are those of [Shared]. *)
Lemma delete_object_inert destructor p w :
  SharedT.inert destructor →
  SharedT.delete_object destructor p w = delete_object p w.
Proof.
  intros Hd. unfold SharedT.delete_object. destruct p as [a|]; [|done].
  unfold_comp. rewrite Hd. unfold delete_object.
  by destruct (decide (a ∈ objects w)).
Qed.

Lemma decrement_inert destructor v w :
  SharedT.inert destructor →
  SharedT.decrement_use_count destructor v w = decrement_use_count v w.
Proof.
  intros Hd. unfold SharedT.decrement_use_count, decrement_use_count.
  unfold_comp.
  destruct (load_use_count v w) as [[[c|] w1]|]; [|done..].
  destruct (read_size_t c w1) as [[n w2]|]; [|done].
  destruct (write_size_t c (n - 1) w2) as [[[] w3]|]; [|done].
  destruct (wrap (n - 1) =? 0); [|done].
  destruct (load_object v w3) as [[p w4]|]; [|done].
  by rewrite delete_object_inert.
Qed.

Lemma copy_assign_inert destructor v other w :
  SharedT.inert destructor →
  SharedT.copy_assign destructor v other w = copy_assign v other w.
Proof.
  intros Hd. unfold SharedT.copy_assign, copy_assign. unfold_comp.
  by rewrite decrement_inert.
Qed.

Lemma move_assign_inert destructor v other w :
  SharedT.inert destructor →
  SharedT.move_assign destructor v other w = move_assign v other w.
Proof.
  intros Hd. unfold SharedT.move_assign, move_assign. unfold_comp.
  by rewrite decrement_inert.
Qed.

Lemma reset_inert destructor v w :
  SharedT.inert destructor → SharedT.reset destructor v w = reset v w.
Proof.
  intros Hd. unfold SharedT.reset, reset. unfold_comp.
  by rewrite decrement_inert.
Qed.

Lemma exec_inert destructor o w :
  SharedT.inert destructor → SharedT.exec destructor o w = exec o w.
Proof.
  intros Hd. destruct o; simpl; try done.
  - unfold SharedT.destroy, destroy. unfold_comp. by rewrite decrement_inert.
  - by apply reset_inert.
  - unfold SharedT.reset_ptr, reset_ptr. unfold_comp. by rewrite decrement_inert.
  - by apply copy_assign_inert.
  - by apply move_assign_inert.
Qed.

(** An instance that is not the last owner releases without a [delete]:
    no destructor runs. *)
Lemma decrement_shared_any destructor w v sp c n :
  instances w !! v = Some sp → m_use_count sp = Some c →
  counters w !! c = Some n → wrap (n - 1) ≠ 0 →
  SharedT.decrement_use_count destructor v w
  = Ok (tt, mk_world (instances w) (objects w)
                     (<[c := wrap (n - 1)]> (counters w)) (next w) (trace w)).
Proof.
  intros Hv Hc Hn Hz. unfold SharedT.decrement_use_count. unfold_prims. lookups.
  apply Z.eqb_neq in Hz. by rewrite Hz.
Qed.

Lemma load_use_count_Ok w v c w' :
  load_use_count v w = Ok (c, w') →
  w' = w ∧ ∃ sp, instances w !! v = Some sp ∧ m_use_count sp = c.
Proof.
  unfold_prims. destruct (instances w !! v) as [sp|]; [|done].
  intros [= <- <-]. eauto.
Qed.

Lemma load_object_Ok w v p w' :
  load_object v w = Ok (p, w') →
  w' = w ∧ ∃ sp, instances w !! v = Some sp ∧ m_object sp = p.
Proof.
  unfold_prims. destruct (instances w !! v) as [sp|]; [|done].
  intros [= <- <-]. eauto.
Qed.

Lemma read_size_t_Ok w c n w' : read_size_t c w = Ok (n, w') → w' = w.
Proof.
  unfold read_size_t. destruct (counters w !! c); [|done]. by intros [= _ <-].
Qed.

Lemma write_size_t_instances w c n w' :
  write_size_t c n w = Ok (tt, w') → instances w' = instances w.
Proof.
  unfold write_size_t. destruct (counters w !! c); [|done]. by intros [= <-].
Qed.

Lemma delete_size_t_instances w c w' :
  delete_size_t c w = Ok (tt, w') → instances w' = instances w.
Proof.
  unfold delete_size_t. destruct c as [a|]; [|by intros [= <-]].
  destruct (counters w !! a); [|done]. by intros [= <-].
Qed.

(** A release that returns has found [this] alive after [delete m_object]:
    it reads [m_use_count] from it once more. *)
Lemma decrement_keeps_this destructor w v w0 :
  SharedT.decrement_use_count destructor v w = Ok (tt, w0) →
  is_Some (instances w0 !! v).
Proof.
  unfold SharedT.decrement_use_count. unfold_comp.
  destruct (load_use_count v w) as [[c w1]|] eqn:Hl; [|done].
  apply load_use_count_Ok in Hl as (-> & sp & Hv & _).
  destruct c as [c|]; [|intros [= <-]; by eexists].
  destruct (read_size_t c w) as [[n w2]|] eqn:Hr; [|done].
  apply read_size_t_Ok in Hr as ->.
  destruct (write_size_t c (n - 1) w) as [[[] w3]|] eqn:Hw; [|done].
  apply write_size_t_instances in Hw.
  destruct (wrap (n - 1) =? 0); cycle 1.
  { intros [= <-]. rewrite Hw. by eexists. }
  destruct (load_object v w3) as [[p w4]|]; [|done].
  destruct (SharedT.delete_object destructor p w4) as [[[] w5]|]; [|done].
  destruct (load_use_count v w5) as [[c' w6]|] eqn:Hl'; [|done].
  apply load_use_count_Ok in Hl' as (-> & sp' & Hv' & _).
  intros Hf%delete_size_t_instances. rewrite Hf. by eexists.
Qed.

(** What the assignments and [reset()] do once the old reference is
    released. *)
Lemma reset_released destructor w v w0 :
  SharedT.decrement_use_count destructor v w = Ok (tt, w0) →
  SharedT.reset destructor v w
  = Ok (tt, mk_world (<[v := null]> (instances w0)) (objects w0)
                     (counters w0) (next w0) (trace w0)).
Proof.
  intros H. destruct (decrement_keeps_this destructor w v w0 H) as [x Hv].
  unfold SharedT.reset. rewrite (bind_Ok _ _ _ _ _ H).
  by eapply clear_fields.
Qed.

Lemma reset_release destructor w v w1 :
  SharedT.reset destructor v w = Ok (tt, w1) →
  ∃ w0, SharedT.decrement_use_count destructor v w = Ok (tt, w0) ∧
    w1 = mk_world (<[v := null]> (instances w0)) (objects w0) (counters w0)
                  (next w0) (trace w0).
Proof.
  intros H.
  destruct (SharedT.decrement_use_count destructor v w) as [[[] w0]|f] eqn:Hd;
    cycle 1.
  { unfold SharedT.reset in H. by rewrite (bind_Undefined _ _ _ _ Hd) in H. }
  exists w0. split; [done|].
  rewrite (reset_released destructor w v w0 Hd) in H. congruence.
Qed.

Lemma move_assign_released destructor w v other sp w0 :
  SharedT.decrement_use_count destructor v w = Ok (tt, w0) →
  instances w0 !! other = Some sp → v ≠ other →
  SharedT.move_assign destructor v other w
  = Ok (tt, mk_world (<[other := null]> (<[v := sp]> (instances w0)))
                     (objects w0) (counters w0) (next w0) (trace w0)).
Proof.
  intros H Ho Hne.
  destruct (decrement_keeps_this destructor w v w0 H) as [x Hv].
  unfold SharedT.move_assign. rewrite (bind_Ok _ _ _ _ _ H). unfold_prims.
  lookups. by rewrite eta_shared_ptr.
Qed.

Lemma copy_assign_released destructor w v other sp w0 :
  SharedT.decrement_use_count destructor v w = Ok (tt, w0) →
  instances w0 !! other = Some sp → v ≠ other →
  SharedT.copy_assign destructor v other w
  = match m_use_count sp with
    | None =>
        Ok (tt, mk_world (<[v := sp]> (instances w0)) (objects w0) (counters w0)
                         (next w0) (trace w0))
    | Some c =>
        match counters w0 !! c with
        | Some n =>
            Ok (tt, mk_world (<[v := sp]> (instances w0)) (objects w0)
                             (<[c := wrap (n + 1)]> (counters w0))
                             (next w0) (trace w0))
        | None => Undefined use_after_free
        end
    end.
Proof.
  intros H Ho Hne.
  destruct (decrement_keeps_this destructor w v w0 H) as [x Hv].
  unfold SharedT.copy_assign. rewrite (bind_Ok _ _ _ _ _ H).
  unfold increment_use_count. unfold_prims. lookups. rewrite eta_shared_ptr.
  destruct (m_use_count sp) as [c|]; [|done].
  destruct (counters w0 !! c) as [n|] eqn:Hn; by lookups.
Qed.


(** *** What the constructors do on fresh storage *)

Lemma construct_fresh w v :
  instances w !! v = None →
  construct v w = Ok (tt, mk_world (<[v := null]> (instances w)) (objects w)
                                   (counters w) (next w) (trace w)).
Proof. intros Hv. unfold construct. unfold_prims. by lookups. Qed.

Lemma construct_ptr_fresh w v p :
  instances w !! v = None →
  construct_ptr v p w
  = Ok (tt, mk_world (<[v := mk_shared_ptr p (Some (next w))]> (instances w))
                     (objects w) (<[next w := 1]> (counters w))
                     (Pos.succ (next w)) (trace w)).
Proof.
  intros Hv. unfold construct_ptr. unfold_prims. lookups. by rewrite wrap_1.
Qed.

Lemma copy_construct_fresh w v other sp :
  instances w !! v = None → instances w !! other = Some sp →
  copy_construct v other w
  = match m_use_count sp with
    | None =>
        Ok (tt, mk_world (<[v := sp]> (instances w)) (objects w) (counters w)
                         (next w) (trace w))
    | Some c =>
        match counters w !! c with
        | Some n =>
            Ok (tt, mk_world (<[v := sp]> (instances w)) (objects w)
                             (<[c := wrap (n + 1)]> (counters w))
                             (next w) (trace w))
        | None => Undefined use_after_free
        end
    end.
Proof.
  intros Hv Ho. unfold copy_construct, increment_use_count. unfold_prims.
  lookups. rewrite eta_shared_ptr.
  destruct (m_use_count sp) as [c|]; [|done].
  destruct (counters w !! c) as [n|] eqn:Hn; by lookups.
Qed.

Lemma move_construct_fresh w v other sp :
  instances w !! v = None → instances w !! other = Some sp →
  move_construct v other w
  = Ok (tt, mk_world (<[other := null]> (<[v := sp]> (instances w)))
                     (objects w) (counters w) (next w) (trace w)).
Proof.
  intros Hv Ho. assert (v ≠ other) by congruence.
  unfold move_construct. unfold_prims. lookups. by rewrite eta_shared_ptr.
Qed.

(** *** Every operation in contract is defined and keeps the discipline *)

Lemma unmanaged_put w v sp p :
  unmanaged w p → (∀ a, p = Some a → m_object sp ≠ Some a) →
  unmanaged (mk_world (<[v := sp]> (instances w)) (objects w) (counters w)
                      (next w) (trace w)) p.
Proof.
  destruct p as [a|]; [|done]. intros [Ha Hall] Hsp. split; [done|]. simpl.
  apply map_Forall_insert_2; [by apply Hsp|done].
Qed.

Lemma step_construct_ptr w v p :
  inv w → instances w !! v = None → unmanaged w p →
  ∃ w', construct_ptr v p w = Ok (tt, w') ∧ inv w'.
Proof.
  intros I Hv Hp. rewrite construct_ptr_fresh by done.
  eexists; split; [done|].
  pose proof (inv_adopt _ v p (inv_construct w v I Hv)) as Ha. simpl in Ha.
  rewrite insert_insert_eq in Ha. apply Ha; [by rewrite lookup_insert_eq|].
  by apply unmanaged_put.
Qed.

Lemma step_make_shared w v :
  inv w → instances w !! v = None →
  ∃ w', make_shared v w = Ok (tt, w') ∧ inv w'.
Proof.
  intros I Hv. unfold make_shared.
  erewrite bind_Ok by (unfold new_object; reflexivity).
  apply step_construct_ptr; [by apply inv_new|done|].
  split; simpl; [set_solver|].
  intros v' sp' Hv' Hp'. pose proof (inv_live w I v' sp' _ Hv' Hp') as Hl.
  pose proof (inv_next_objects w I _ Hl). lia.
Qed.

Lemma step_copy_construct w v other :
  inv w → instances w !! v = None → count_is (λ n, n < SIZE_MAX) w other →
  ∃ w', copy_construct v other w = Ok (tt, w') ∧ inv w'.
Proof.
  intros I Hv Hc. unfold count_is in Hc.
  destruct (instances w !! other) as [sp|] eqn:Ho; [|done].
  rewrite (copy_construct_fresh w v other sp) by done.
  pose proof (inv_construct w v I Hv) as I1.
  destruct (m_use_count sp) as [c|] eqn:Hsp.
  - destruct (counters w !! c) as [n|] eqn:Hn; [|done].
    eexists; split; [done|].
    destruct (inv_count w I c n Hn) as [_ ?].
    rewrite wrap_small by lia.
    pose proof (inv_share _ v other sp c n I1) as Hs. simpl in Hs.
    rewrite insert_insert_eq in Hs. apply Hs; try done.
    + by rewrite lookup_insert_eq.
    + rewrite lookup_insert_ne by congruence. done.
  - eexists; split; [done|].
    assert (sp = null) as ->; [|done].
    destruct sp as [p c]. simpl in *. subst c. unfold null. f_equal.
    destruct p as [p|]; [|done].
    destruct (inv_paired w I other _ Ho) as [? ?]; simpl in *; [by eexists|done].
Qed.

Lemma step_move_construct w v other :
  inv w → instances w !! v = None → is_Some (instances w !! other) →
  ∃ w', move_construct v other w = Ok (tt, w') ∧ inv w'.
Proof.
  intros I Hv [sp Ho]. rewrite (move_construct_fresh w v other sp) by done.
  eexists; split; [done|].
  pose proof (inv_take _ v other sp (inv_construct w v I Hv)) as Ht.
  simpl in Ht. rewrite insert_insert_eq in Ht. apply Ht.
  - by rewrite lookup_insert_eq.
  - rewrite lookup_insert_ne by congruence. done.
  - congruence.
Qed.

Lemma step_destroy w v :
  inv w → is_Some (instances w !! v) →
  ∃ w', destroy v w = Ok (tt, w') ∧ inv w'.
Proof.
  intros I [sp Hv].
  destruct (reset_inv w v sp I Hv) as (w1 & Hr & I1 & _).
  destruct (reset_decrement w v w1 Hr) as (w0 & Hd & ->).
  rewrite (destroy_after w v w0 Hd). eexists; split; [done|].
  pose proof (inv_end _ v I1) as He. simpl in He.
  rewrite delete_insert_eq in He. apply He. by rewrite lookup_insert_eq.
Qed.

Lemma step_reset_ptr w v p :
  inv w → is_Some (instances w !! v) → unmanaged w p →
  ∃ w', reset_ptr v p w = Ok (tt, w') ∧ inv w'.
Proof.
  intros I [sp Hv] Hp.
  destruct (reset_inv w v sp I Hv) as (w1 & Hr & I1 & Hi & _ & Hobj & _).
  destruct (reset_decrement w v w1 Hr) as (w0 & Hd & ->).
  rewrite (reset_ptr_after w v p w0 Hd), wrap_1. eexists; split; [done|].
  pose proof (inv_adopt _ v p I1) as Ha. simpl in *.
  rewrite insert_insert_eq in Ha. apply Ha; [by rewrite lookup_insert_eq|].
  destruct p as [a|]; [|done]. destruct Hp as [Ha1 Ha2]. split; simpl.
  - apply Hobj; [done|]. by apply (Ha2 v sp).
  - rewrite Hi. apply map_Forall_insert_2; [done|]. done.
Qed.

Lemma step_move_assign w v other :
  inv w → is_Some (instances w !! v) → is_Some (instances w !! other) →
  ∃ w', move_assign v other w = Ok (tt, w') ∧ inv w'.
Proof.
  intros I [sp Hv] [spo Ho].
  destruct (reset_inv w v sp I Hv) as (w1 & Hr & I1 & Hi & _).
  destruct (reset_decrement w v w1 Hr) as (w0 & Hd & ->).
  destruct (decide (v = other)) as [<-|Hne].
  - rewrite (move_assign_self_after w v w0 Hd). by eexists.
  - simpl in Hi.
    assert (Ho0 : instances w0 !! other = Some spo).
    { destruct (decrement_instances _ _ _ Hd) as (-> & _). done. }
    rewrite (move_assign_after w v other spo w0 Hd Ho0 Hne).
    eexists; split; [done|].
    pose proof (inv_take _ v other spo I1) as Ht. simpl in Ht.
    rewrite insert_insert_eq in Ht. apply Ht; [by rewrite lookup_insert_eq| |done].
    by rewrite lookup_insert_ne.
Qed.

Lemma inv_no_count w v sp :
  inv w → instances w !! v = Some sp → m_use_count sp = None → sp = null.
Proof.
  intros I Hv Hc. destruct sp as [p c]. simpl in *. subst c. unfold null.
  f_equal. destruct p as [p|]; [|done].
  destruct (inv_paired w I v _ Hv) as [? ?]; simpl in *; [by eexists|done].
Qed.

Lemma copy_assign_self w v sp :
  inv w → instances w !! v = Some sp → count_is (λ n, n ≠ 1) w v →
  copy_assign v v w = Ok (tt, w).
Proof.
  intros I Hv Hc. unfold count_is in Hc. rewrite Hv in Hc.
  unfold copy_assign, increment_use_count.
  destruct (m_use_count sp) as [c|] eqn:Hsp.
  - destruct (counters w !! c) as [n|] eqn:Hn; [|done].
    destruct (inv_count_value w c n I Hn) as [Hw Hrange].
    rewrite (bind_Ok _ _ w tt _
               (decrement_shared w v sp c n Hv Hsp Hn ltac:(lia))).
    unfold_prims. lookups. rewrite <- Hsp, eta_shared_ptr.
    rewrite Hw, wrap_small by lia.
    replace (n - 1 + 1) with n by lia.
    rewrite !insert_id by done. by destruct w.
  - rewrite (bind_Ok _ _ w tt _ (decrement_none w v sp Hv Hsp)).
    unfold_prims. lookups. rewrite <- Hsp, eta_shared_ptr.
    rewrite insert_id by done. by destruct w.
Qed.

Lemma step_copy_assign w v other :
  inv w → is_Some (instances w !! v) →
  count_is (λ n, n < SIZE_MAX) w other →
  (v = other → count_is (λ n, n ≠ 1) w v) →
  ∃ w', copy_assign v other w = Ok (tt, w') ∧ inv w'.
Proof.
  intros I [sp Hv] Hmax Hself.
  destruct (decide (v = other)) as [<-|Hne].
  { exists w. split; [|done]. by apply (copy_assign_self w v sp); auto. }
  unfold count_is in Hmax.
  destruct (instances w !! other) as [spo|] eqn:Ho; [|done].
  destruct (reset_inv w v sp I Hv) as (w1 & Hr & I1 & Hi & _ & _ & Hcnt).
  destruct (reset_decrement w v w1 Hr) as (w0 & Hd & ->). simpl in *.
  assert (Ho0 : instances w0 !! other = Some spo).
  { destruct (decrement_instances _ _ _ Hd) as (-> & _). done. }
  rewrite (copy_assign_after w v other spo w0 Hd Ho0 Hne).
  assert (Ho1 : <[v := null]> (instances w0) !! other = Some spo)
    by (by rewrite lookup_insert_ne).
  destruct (m_use_count spo) as [c|] eqn:Hspo.
  - destruct (inv_held _ I1 other spo c Ho1 Hspo) as [n1 Hn1]. simpl in Hn1.
    rewrite Hn1. eexists; split; [done|].
    destruct (Hcnt c n1 Hn1) as (n & Hn & Hle). rewrite Hn in Hmax.
    destruct (inv_count _ I1 c n1 Hn1) as [_ ?].
    rewrite wrap_small by lia.
    pose proof (inv_share _ v other spo c n1 I1) as Hs. simpl in Hs.
    rewrite insert_insert_eq in Hs.
    apply Hs; [by rewrite lookup_insert_eq|done..|lia].
  - eexists; split; [done|].
    rewrite (inv_no_count w other spo I Ho Hspo). done.
Qed.

(** Progress and preservation in one statement. *)
Lemma exec_inv w o :
  inv w → contract w o → ∃ w', exec o w = Ok (tt, w') ∧ inv w'.
Proof.
  intros I Hc. destruct o as [|v|v p|v|v other|v other|v|v|v p|v other|v other];
    simpl in *.
  - eexists; split; [reflexivity|]. by apply inv_new.
  - rewrite construct_fresh by done. eexists; split; [done|].
    by apply inv_construct.
  - destruct Hc. by apply step_construct_ptr.
  - by apply step_make_shared.
  - destruct Hc. by apply step_copy_construct.
  - destruct Hc. by apply step_move_construct.
  - by apply step_destroy.
  - destruct Hc as [sp Hv].
    destruct (reset_inv w v sp I Hv) as (w' & ? & ? & _). by exists w'.
  - destruct Hc. by apply step_reset_ptr.
  - destruct Hc as (? & ? & ?). by apply step_copy_assign.
  - destruct Hc. by apply step_move_assign.
Qed.

Lemma reachable_inv w : reachable w → inv w.
Proof.
  induction 1 as [|w o w' _ IH Hc He]; [apply inv_init|].
  destruct (exec_inv w o IH Hc) as (w'' & He' & I'). congruence.
Qed.

(** A program whose contract holds as it runs is defined to the end. *)
Lemma contracts_run os w :
  reachable w → contracts os w →
  ∃ w', run os w = Ok (tt, w') ∧ reachable w'.
Proof.
  revert w. induction os as [|o os IH]; intros w R Hc; simpl in *.
  - by exists w.
  - destruct Hc as [Hc Hrest].
    destruct (exec o w) as [[[] w1]|] eqn:He; [|done].
    assert (R1 : reachable w1) by (by eapply reachable_step).
    destruct (IH w1 R1 Hrest) as (w' & Hr & R').
    exists w'. split; [|done]. by rewrite (bind_Ok _ _ _ _ _ He).
Qed.

Lemma contracts_reachable os w' :
  contracts os init → run os init = Ok (tt, w') → reachable w'.
Proof.
  intros Hc Hr.
  destruct (contracts_run os init reachable_init Hc) as (w'' & Hr' & R).
  congruence.
Qed.

(** *** The observers *)

(** C6. [use_count()] returns the current value of the use count the
    instance holds, whatever the state of its object pointer, and 0 when it
    holds none; it changes nothing. *)
Theorem use_count_value w v sp :
  instances w !! v = Some sp →
  (∀ c n, m_use_count sp = Some c → counters w !! c = Some n →
          use_count v w = Ok (n, w)) ∧
  (m_use_count sp = None → use_count v w = Ok (0, w)).
Proof.
  intros Hv. split.
  - intros c n Hc Hn. unfold use_count. unfold_prims. by lookups.
  - intros Hc. unfold use_count. unfold_prims. by lookups.
Qed.

(** [unique()] on an instance that holds a use count. *)
Lemma unique_value w v sp c n :
  instances w !! v = Some sp → m_use_count sp = Some c →
  counters w !! c = Some n →
  unique v w = Ok (bool_decide (n = 1), w).
Proof.
  intros Hv Hc Hn. unfold unique. unfold_prims. lookups.
  destruct (Z.eqb_spec n 1).
  - by rewrite bool_decide_eq_true_2.
  - by rewrite bool_decide_eq_false_2.
Qed.

Lemma unique_none w v sp :
  instances w !! v = Some sp → m_use_count sp = None →
  unique v w = Ok (false, w).
Proof. intros Hv Hc. unfold unique. unfold_prims. by lookups. Qed.

Lemma operator_bool_value w v sp :
  instances w !! v = Some sp →
  operator_bool v w = Ok (bool_decide (m_object sp ≠ None), w).
Proof. intros Hv. unfold operator_bool. unfold_prims. by lookups. Qed.

(** C7. [unique()] is true exactly when the instance holds a use count
    whose value is 1.  It is true right after construction from a raw
    pointer, false on both instances once a copy is made, and true again
    on the remaining owner once that copy is destroyed. *)
Theorem unique_iff_count_one w a b p :
  instances w !! a = None → instances w !! b = None → a ≠ b →
  (∀ v sp, instances w !! v = Some sp →
     (value (unique v w) = Ok true ↔
      ∃ c, m_use_count sp = Some c ∧ counters w !! c = Some 1)) ∧
  ∃ w1 w2 w3,
    construct_ptr a p w = Ok (tt, w1) ∧ value (unique a w1) = Ok true ∧
    copy_construct b a w1 = Ok (tt, w2) ∧
    value (unique a w2) = Ok false ∧ value (unique b w2) = Ok false ∧
    destroy b w2 = Ok (tt, w3) ∧ value (unique a w3) = Ok true.
Proof.
  intros Ha Hb Hab. pose proof SIZE_MAX_least as Hmax. split.
  { intros v sp Hv. destruct (m_use_count sp) as [c|] eqn:Hc.
    - destruct (counters w !! c) as [n|] eqn:Hn.
      + rewrite (unique_value w v sp c n) by done. simpl. split.
        * intros [= Hd%bool_decide_eq_true]. exists c. by subst.
        * intros (c' & [= <-] & Hone). assert (n = 1) as -> by congruence.
          done.
      + unfold unique. unfold_prims. lookups. split; [done|].
        intros (c' & [= <-] & ?). congruence.
    - rewrite (unique_none w v sp) by done. simpl. split; [done|].
      by intros (c' & ? & _). }
  set (spa := mk_shared_ptr p (Some (next w))).
  set (w1 := mk_world (<[a := spa]> (instances w)) (objects w)
                      (<[next w := 1]> (counters w)) (Pos.succ (next w))
                      (trace w)).
  set (w2 := mk_world (<[b := spa]> (instances w1)) (objects w1)
                      (<[next w := 2]> (counters w1)) (next w1) (trace w1)).
  set (w3 := mk_world (delete b (instances w2)) (objects w2)
                      (<[next w := 1]> (counters w2)) (next w2) (trace w2)).
  assert (H1 : construct_ptr a p w = Ok (tt, w1))
    by (by apply construct_ptr_fresh).
  assert (H2 : copy_construct b a w1 = Ok (tt, w2)).
  { rewrite (copy_construct_fresh w1 b a spa); subst w1 w2; simpl; [|by lookups..].
    lookups. by rewrite wrap_small by lia. }
  assert (H3 : destroy b w2 = Ok (tt, w3)).
  { rewrite (destroy_after w2 b
               (mk_world (instances w2) (objects w2)
                         (<[next w := 1]> (counters w2)) (next w2) (trace w2)));
      [done|].
    rewrite (decrement_shared w2 b spa (next w) 2); subst w1 w2 w3; simpl;
      rewrite ?wrap_small by lia; by lookups. }
  exists w1, w2, w3.
  split; [done|]. split.
  { rewrite (unique_value w1 a spa (next w) 1); subst w1; by lookups. }
  split; [done|]. split.
  { rewrite (unique_value w2 a spa (next w) 2); subst w1 w2; by lookups. }
  split.
  { rewrite (unique_value w2 b spa (next w) 2); subst w1 w2; by lookups. }
  split; [done|].
  rewrite (unique_value w3 a spa (next w) 1); subst w1 w2 w3; by lookups.
Qed.

(** C9. Constructing from a null raw pointer still allocates a use count
    set to 1: the instance converts to [false], yet [use_count()] is 1
    and [unique()] is true. *)
Theorem construct_from_nullptr w v :
  instances w !! v = None →
  ∃ w', construct_ptr v None w = Ok (tt, w') ∧
    instances w' !! v = Some (mk_shared_ptr None (Some (next w))) ∧
    counters w' !! next w = Some 1 ∧
    value (operator_bool v w') = Ok false ∧
    value (use_count v w') = Ok 1 ∧
    value (unique v w') = Ok true.
Proof.
  intros Hv.
  set (sp := mk_shared_ptr None (Some (next w))).
  set (w' := mk_world (<[v := sp]> (instances w)) (objects w)
                      (<[next w := 1]> (counters w)) (Pos.succ (next w))
                      (trace w)).
  assert (Hv' : instances w' !! v = Some sp) by apply lookup_insert_eq.
  assert (Hn : counters w' !! next w = Some 1) by apply lookup_insert_eq.
  exists w'. split; [by apply construct_ptr_fresh|].
  split; [done|]. split; [done|].
  split; [by rewrite (operator_bool_value w' v sp)|].
  split.
  - destruct (use_count_value w' v sp Hv') as [Hu _].
    by rewrite (Hu (next w) 1).
  - by rewrite (unique_value w' v sp (next w) 1).
Qed.

(** *** Empty sources, moves and self-assignment *)

(** X1. In a world a program in contract can reach, [use_count()] is the
    number of live instances that hold the use count of [v]. *)
Lemma use_count_counts_owners w v sp c :
  reachable w → instances w !! v = Some sp → m_use_count sp = Some c →
  value (use_count v w) = Ok (Z.of_nat (refs c (instances w))).
Proof.
  intros R Hv Hc. pose proof (reachable_inv w R) as I.
  destruct (inv_held w I v sp c Hv Hc) as [n Hn].
  destruct (inv_count w I c n Hn) as [<- _].
  destruct (use_count_value w v sp Hv) as [Hu _]. by rewrite (Hu c n).
Qed.


(** C3, as the code has it.  In every world a program in contract can
    reach, an instance that holds an object holds a use count, and the
    instances that hold the same object hold the same use count.  (The
    converse fails for an instance made from a null raw pointer.) *)
Theorem object_has_shared_count w v sp :
  reachable w → instances w !! v = Some sp →
  (is_Some (m_object sp) → is_Some (m_use_count sp)) ∧
  (∀ v' sp', instances w !! v' = Some sp' →
     is_Some (m_object sp) → m_object sp' = m_object sp →
     m_use_count sp' = m_use_count sp).
Proof.
  intros R Hv. pose proof (reachable_inv w R) as I. split.
  - by apply (inv_paired w I v).
  - intros v' sp' Hv' Hobj Heq.
    rewrite (inv_alias w I v v' sp sp' Hv Hv'); [done|]. by right.
Qed.

Lemma move_construct_fields w v other w' sp :
  instances w !! v = None → instances w !! other = Some sp →
  move_construct v other w = Ok (tt, w') →
  instances w' !! other = Some null ∧ instances w' !! v = Some sp ∧
  counters w' = counters w ∧ trace w' = trace w.
Proof.
  intros Hv Ho. rewrite (move_construct_fresh w v other sp) by done.
  intros [= <-]. simpl. assert (v ≠ other) by congruence. by lookups.
Qed.

Lemma move_assign_fields w v other w' sp :
  instances w !! other = Some sp →
  move_assign v other w = Ok (tt, w') →
  instances w' !! other = Some null ∧
  (v ≠ other → instances w' !! v = Some sp).
Proof.
  intros Ho Hm.
  destruct (decrement_use_count v w) as [[[] w0]|f] eqn:Hd; cycle 1.
  { unfold move_assign in Hm. by rewrite (bind_Undefined _ _ _ _ Hd) in Hm. }
  assert (Ho0 : instances w0 !! other = Some sp).
  { destruct (decrement_instances _ _ _ Hd) as (-> & _). done. }
  destruct (decide (v = other)) as [<-|Hne].
  - rewrite (move_assign_self_after w v w0 Hd) in Hm. injection Hm as <-.
    simpl. by lookups.
  - rewrite (move_assign_after w v other sp w0 Hd Ho0 Hne) in Hm.
    injection Hm as <-. simpl. split; [by lookups|]. intros _. by lookups.
Qed.

(** C4, as the code has it.  On objects whose destructor touches no smart
    pointer, every operation in contract is defined, and in the world it
    leaves nothing has been deleted twice and what has been deleted is
    gone; a move leaves its source empty and, between two instances, its
    destination holding what the source held. *)
Theorem release_runs_once destructor w o :
  SharedT.inert destructor →
  reachable w → contract w o →
  ∃ w', SharedT.exec destructor o w = Ok (tt, w') ∧
    NoDup (trace w') ∧
    (∀ c, freed_counter c ∈ trace w' → counters w' !! c = None) ∧
    (∀ p, destroyed_object p ∈ trace w' → p ∉ objects w') ∧
    match o with
    | MoveConstruct v other | MoveAssign v other =>
        instances w' !! other = Some null ∧
        (v ≠ other → instances w' !! v = instances w !! other)
    | _ => True
    end.
Proof.
  intros Hin R Hc. pose proof (reachable_inv w R) as I.
  rewrite (exec_inert destructor o w Hin).
  destruct (exec_inv w o I Hc) as (w' & He & I').
  exists w'. split; [done|]. split; [by apply (inv_trace w' I')|].
  split; [intros c Hin'; by destruct (inv_freed w' I' c Hin')|].
  split; [intros p Hin'; by destruct (inv_destroyed w' I' p Hin')|].
  destruct o as [|v|v p|v|v other|v other|v|v|v p|v other|v other];
    try done; simpl in *.
  - destruct Hc as [Hv [sp Ho]].
    destruct (move_construct_fields w v other w' sp Hv Ho He) as (? & ? & _).
    split; [done|]. intros _. congruence.
  - destruct Hc as [_ [sp Ho]].
    destruct (move_assign_fields w v other w' sp Ho He) as (? & Hdst).
    split; [done|]. intros Hne. rewrite Ho. by apply Hdst.
Qed.

(** [decrement_use_count] touches no use count but the one of [v]. *)
Lemma decrement_other_counters w v sp w0 c :
  instances w !! v = Some sp → decrement_use_count v w = Ok (tt, w0) →
  m_use_count sp ≠ Some c → counters w0 !! c = counters w !! c.
Proof.
  intros Hv H Hne.
  destruct (m_use_count sp) as [cv|] eqn:Hc; cycle 1.
  { rewrite (decrement_none w v sp) in H by done. by injection H as <-. }
  assert (cv ≠ c) by congruence.
  destruct (counters w !! cv) as [n|] eqn:Hn; cycle 1.
  { by rewrite (decrement_dangling w v sp cv) in H. }
  destruct (decide (wrap (n - 1) = 0)) as [Hz|Hz]; cycle 1.
  { rewrite (decrement_shared w v sp cv n) in H by done. injection H as <-.
    simpl. by rewrite lookup_insert_ne. }
  destruct (m_object sp) as [p|] eqn:Hp; cycle 1.
  { rewrite (decrement_last_null w v sp cv n) in H by done. injection H as <-.
    simpl. by rewrite lookup_delete_ne. }
  destruct (decide (p ∈ objects w)).
  - rewrite (decrement_last w v sp cv n p) in H by done. injection H as <-.
    simpl. by rewrite lookup_delete_ne.
  - by rewrite (decrement_last_dangling w v sp cv n p) in H.
Qed.

(** Two instances that hold the same use count make it at least 2. *)
Lemma inv_count_two w v1 v2 sp1 sp2 c n :
  inv w → v1 ≠ v2 →
  instances w !! v1 = Some sp1 → instances w !! v2 = Some sp2 →
  m_use_count sp1 = Some c → m_use_count sp2 = Some c →
  counters w !! c = Some n → 2 ≤ n.
Proof.
  intros I Hne H1 H2 Hc1 Hc2 Hn.
  destruct (inv_count w I c n Hn) as [-> _].
  pose proof (refs_delete c v1 (instances w)) as Hd. rewrite H1 in Hd.
  simpl in Hd. rewrite decide_True in Hd by done.
  assert (1 ≤ refs c (delete v1 (instances w)))%nat; [|lia].
  apply (refs_positive c v2 sp2); [|done]. by rewrite lookup_delete_ne.
Qed.

(** Move assignment between two instances: the source ends empty, and the
    use count it held keeps its value unless the destination held that very
    use count, in which case it has one owner less. *)
Lemma move_assign_count w v other spv spo :
  inv w → v ≠ other →
  instances w !! v = Some spv → instances w !! other = Some spo →
  is_Some (m_object spo) →
  ∃ w' c n, move_assign v other w = Ok (tt, w') ∧
    value (operator_bool other w') = Ok false ∧
    m_use_count spo = Some c ∧ counters w !! c = Some n ∧
    counters w' !! c
    = Some (if decide (m_use_count spv = Some c) then n - 1 else n).
Proof.
  intros I Hne Hv Ho Hobj.
  destruct (inv_paired w I other spo Ho Hobj) as [c Hc].
  destruct (inv_held w I other spo c Ho Hc) as [n Hn].
  destruct (reset_inv w v spv I Hv) as (w1 & Hr & _).
  destruct (reset_decrement w v w1 Hr) as (w0 & Hd & ->).
  assert (Ho0 : instances w0 !! other = Some spo).
  { destruct (decrement_instances _ _ _ Hd) as (-> & _). done. }
  rewrite (move_assign_after w v other spo w0 Hd Ho0 Hne).
  eexists _, c, n. split; [done|]. split.
  { rewrite (operator_bool_value _ other null); [done|]. simpl.
    by rewrite lookup_insert_eq. }
  split; [done|]. split; [done|]. simpl.
  destruct (decide (m_use_count spv = Some c)) as [Hsame|Hdiff].
  - pose proof (inv_count_two w v other spv spo c n I Hne Hv Ho Hsame Hc Hn).
    destruct (inv_count_value w c n I Hn) as [Hw ?].
    rewrite (decrement_shared w v spv c n) in Hd by (done || lia).
    injection Hd as <-. simpl. by rewrite lookup_insert_eq, Hw.
  - by rewrite (decrement_other_counters w v spv w0 c Hv Hd Hdiff).
Qed.

(** Copy assignment of a sole owner to itself: the first statement frees
    the use count, the last one increments it. *)
Lemma copy_assign_self_sole w v sp c :
  inv w → instances w !! v = Some sp → m_use_count sp = Some c →
  counters w !! c = Some 1 →
  (∃ w0, decrement_use_count v w = Ok (tt, w0) ∧
     instances w0 !! v = Some sp ∧ counters w0 !! c = None ∧
     (∀ p, m_object sp = Some p → p ∉ objects w0)) ∧
  copy_assign v v w = Undefined use_after_free.
Proof.
  intros I Hv Hc Hn.
  assert (Hw : wrap (1 - 1) = 0) by (apply wrap_small; pose proof SIZE_MAX_least; lia).
  assert (∃ w0, decrement_use_count v w = Ok (tt, w0) ∧
     instances w0 = instances w ∧ counters w0 !! c = None ∧
     (∀ p, m_object sp = Some p → p ∉ objects w0)) as (w0 & Hd & Hi & Hn0 & Hp0).
  { destruct (m_object sp) as [p|] eqn:Hp.
    - assert (Hlive : p ∈ objects w) by (by eapply (inv_live w I)).
      eexists. split; [by apply (decrement_last w v sp c 1 p)|]. simpl.
      split; [done|]. split; [by rewrite lookup_delete_eq|].
      intros ? [= <-]. set_solver.
    - eexists. split; [by apply (decrement_last_null w v sp c 1)|]. simpl.
      split; [done|]. split; [by rewrite lookup_delete_eq|]. done. }
  split.
  - exists w0. by rewrite Hi.
  - unfold copy_assign. rewrite (bind_Ok _ _ _ _ _ Hd).
    rewrite <- Hi in Hv. unfold increment_use_count. unfold_prims. by lookups.
Qed.

(** C1, where the code breaks it.  Take a world a program in contract can
    reach and an instance whose [use_count()] is 1: it is the only live
    instance that holds its use count.  Copy-assigning it to itself releases
    the use count and the object in the first statement, although the
    instance stays alive and goes on pointing at both, and the last
    statement then increments the freed use count: the behaviour is
    undefined. *)
Theorem self_copy_assign_sole_owner w v sp :
  reachable w → instances w !! v = Some sp →
  value (use_count v w) = Ok 1 →
  ∃ c, m_use_count sp = Some c ∧ refs c (instances w) = 1%nat ∧
    (∃ w0, decrement_use_count v w = Ok (tt, w0) ∧
       instances w0 !! v = Some sp ∧ counters w0 !! c = None ∧
       (∀ p, m_object sp = Some p → p ∉ objects w0)) ∧
    copy_assign v v w = Undefined use_after_free.
Proof.
  intros R Hv Hu. pose proof (reachable_inv w R) as I.
  destruct (use_count_value w v sp Hv) as [Hsome Hnone].
  destruct (m_use_count sp) as [c|] eqn:Hc; cycle 1.
  { by rewrite Hnone in Hu. }
  destruct (inv_held w I v sp c Hv Hc) as [n Hn].
  rewrite (Hsome c n eq_refl Hn) in Hu. simpl in Hu. injection Hu as ->.
  exists c. split; [done|]. split.
  - destruct (inv_count w I c 1 Hn) as [Hr _]. lia.
  - by apply copy_assign_self_sole.
Qed.

(** Move assignment of an instance to itself is [reset()]. *)
Lemma move_assign_self_reset w v : move_assign v v w = reset v w.
Proof.
  destruct (decrement_use_count v w) as [[[] w0]|f] eqn:Hd.
  - by rewrite (move_assign_self_after w v w0 Hd), (reset_after w v w0 Hd).
  - unfold move_assign, reset. by rewrite !(bind_Undefined _ _ _ _ Hd).
Qed.

Lemma make_shared_fresh w v :
  instances w !! v = None →
  make_shared v w
  = Ok (tt, mk_world
              (<[v := mk_shared_ptr (Some (next w)) (Some (Pos.succ (next w)))]>
                 (instances w))
              ({[next w]} ∪ objects w)
              (<[Pos.succ (next w) := 1]> (counters w))
              (Pos.succ (Pos.succ (next w))) (trace w)).
Proof.
  intros Hv. unfold make_shared.
  erewrite bind_Ok by (unfold new_object; reflexivity).
  by rewrite construct_ptr_fresh.
Qed.

(** ** Facts about unique_ptr.hpp *)

Ltac unfold_unique :=
  unfold Unique.move_assign, Unique.move_construct, Unique.reset,
    Unique.reset_ptr, Unique.destroy, Unique.operator_bool, Unique.get,
    Unique.construct, Unique.construct_ptr, Unique.make_unique,
    Unique.store_object, Unique.load_object, Unique.put,
    Unique.begin_lifetime, Unique.end_lifetime, Unique.new_object;
  unfold_comp.

(** [delete] of a pointer that is null or points to a live object. *)
Lemma unique_delete_object w p :
  (∀ a, p = Some a → a ∈ Unique.objects w) →
  Unique.delete_object p w
  = Ok (tt, Unique.mk_world (Unique.instances w) (Unique.objects w ∖ pointee p)
                            (Unique.next w) (Unique.trace w ++ destruction p)).
Proof.
  intros Hp. unfold Unique.delete_object. destruct p as [a|]; simpl.
  - by rewrite decide_True by auto.
  - rewrite app_nil_r, difference_empty_L. by destruct w.
Qed.

Lemma unique_operator_bool w v up :
  Unique.instances w !! v = Some up →
  Unique.operator_bool v w = Ok (bool_decide (Unique.m_object up ≠ None), w).
Proof. intros Hv. unfold_unique. by lookups. Qed.

Lemma unique_move_construct_fresh w v other up :
  Unique.instances w !! v = None → Unique.instances w !! other = Some up →
  Unique.move_construct v other w
  = Ok (tt, Unique.mk_world
              (<[other := Unique.mk_unique_ptr None]>
                 (<[v := up]> (Unique.instances w)))
              (Unique.objects w) (Unique.next w) (Unique.trace w)).
Proof.
  intros Hv Ho. assert (v ≠ other) by congruence.
  unfold_unique. lookups. by destruct up.
Qed.

Lemma unique_move_assign_distinct w this other p up :
  this ≠ other →
  Unique.instances w !! this = Some (Unique.mk_unique_ptr p) →
  Unique.instances w !! other = Some up →
  (∀ a, p = Some a → a ∈ Unique.objects w) →
  Unique.move_assign this other w
  = Ok (tt, Unique.mk_world
              (<[other := Unique.mk_unique_ptr None]>
                 (<[this := up]> (Unique.instances w)))
              (Unique.objects w ∖ pointee p) (Unique.next w)
              (Unique.trace w ++ destruction p)).
Proof.
  intros Hne Hv Ho Hp. unfold Unique.move_assign.
  erewrite bind_Ok by (unfold_unique; by lookups). simpl.
  erewrite bind_Ok by (by apply unique_delete_object).
  unfold_unique. lookups. by destruct up.
Qed.

(** Move assignment of an instance to itself is [reset()]. *)
Lemma unique_move_assign_self_reset w v :
  Unique.move_assign v v w = Unique.reset v w.
Proof.
  unfold Unique.move_assign, Unique.reset.
  destruct (Unique.instances w !! v) as [up|] eqn:Hv; cycle 1.
  { unfold_unique. by lookups. }
  unfold_unique. unfold Unique.delete_object. lookups.
  destruct (Unique.m_object up) as [a|]; simpl; [|by lookups].
  destruct (decide (a ∈ Unique.objects w)); by lookups.
Qed.

(** *** Objects with a destructor of their own *)

Lemma unique_delete_object_inert destructor p w :
  UniqueT.inert destructor →
  UniqueT.delete_object destructor p w = Unique.delete_object p w.
Proof.
  intros Hd. unfold UniqueT.delete_object. destruct p as [a|]; [|done].
  unfold_comp. rewrite Hd. unfold Unique.delete_object.
  by destruct (decide (a ∈ Unique.objects w)).
Qed.

Lemma unique_move_assign_inert destructor v other w :
  UniqueT.inert destructor →
  UniqueT.move_assign destructor v other w = Unique.move_assign v other w.
Proof.
  intros Hd. unfold UniqueT.move_assign, Unique.move_assign. unfold_comp.
  destruct (Unique.load_object v w) as [[p w1]|]; [|done].
  by rewrite unique_delete_object_inert.
Qed.

Lemma unique_exec_inert destructor o w :
  UniqueT.inert destructor → UniqueT.exec destructor o w = Unique.exec o w.
Proof.
  intros Hd. destruct o as [| | | | |v|v|v q|v other]; simpl; try done.
  - unfold UniqueT.destroy, Unique.destroy. unfold_comp.
    destruct (Unique.load_object v w) as [[p w1]|]; [|done].
    by rewrite unique_delete_object_inert.
  - unfold UniqueT.reset, Unique.reset. unfold_comp.
    destruct (Unique.load_object v w) as [[p w1]|]; [|done].
    by rewrite unique_delete_object_inert.
  - unfold UniqueT.reset_ptr, Unique.reset_ptr. unfold_comp.
    destruct (Unique.load_object v w) as [[p w1]|]; [|done].
    by rewrite unique_delete_object_inert.
  - by apply unique_move_assign_inert.
Qed.

(** Whatever the destructor does, a [delete] that returns was given a live
    object or [nullptr], and the object is gone when it returns. *)
Lemma unique_delete_object_gone destructor p w w1 :
  UniqueT.delete_object destructor p w = Ok (tt, w1) →
  (∀ a, p = Some a →
     a ∈ Unique.objects w ∧ (a ∉ Unique.objects w1) ∧
     ∃ t, Unique.trace w1 = t ++ [destroyed_object a]) ∧
  (p = None → w1 = w).
Proof.
  unfold UniqueT.delete_object. destruct p as [a|]; cycle 1.
  { intros [= <-]. by split. }
  destruct (decide (a ∈ Unique.objects w)) as [Ha|Ha]; [|done].
  unfold_comp. destruct (destructor a w) as [[[] w2]|]; [|done].
  unfold Unique.delete_object.
  destruct (decide (a ∈ Unique.objects w2)); [|done].
  intros [= <-]. split; [|done]. intros ? [= <-]. simpl.
  split; [done|]. split; [set_solver|]. by eexists.
Qed.

(** What the move assignment does once the old object is deleted, when the
    destructor has left both instances alive. *)
Lemma unique_move_assign_released destructor w w1 this other p up :
  this ≠ other →
  Unique.instances w !! this = Some (Unique.mk_unique_ptr p) →
  UniqueT.delete_object destructor p w = Ok (tt, w1) →
  is_Some (Unique.instances w1 !! this) →
  Unique.instances w1 !! other = Some up →
  UniqueT.move_assign destructor this other w
  = Ok (tt, Unique.mk_world
              (<[other := Unique.mk_unique_ptr None]>
                 (<[this := up]> (Unique.instances w1)))
              (Unique.objects w1) (Unique.next w1) (Unique.trace w1)).
Proof.
  intros Hne Hv Hd [x Hv1] Ho. unfold UniqueT.move_assign.
  erewrite bind_Ok by (unfold_unique; by lookups). simpl.
  rewrite (bind_Ok _ _ _ _ _ Hd).
  unfold_unique. lookups. by destruct up.
Qed.

(** C8, as the code has it.  Move assignment between two distinct
    [unique_ptr] instances first deletes the object the destination owns,
    destructor included, and only then reads the source.  Whenever that
    [delete] is defined and leaves both instances alive, the object is gone
    before anything is transferred, the destination then takes the pointer
    of the source, and the source is left empty.  With a destructor that
    touches no smart pointer this is so whenever the destination owns a
    live object or none, and the [delete] changes nothing else. *)
Theorem move_assign_destroys_then_transfers w this other p :
  this ≠ other →
  Unique.instances w !! this = Some (Unique.mk_unique_ptr p) →
  (∀ destructor w1 q,
     UniqueT.delete_object destructor p w = Ok (tt, w1) →
     is_Some (Unique.instances w1 !! this) →
     Unique.instances w1 !! other = Some (Unique.mk_unique_ptr q) →
     ∃ w',
       (old ← Unique.load_object this; UniqueT.delete_object destructor old) w
       = Ok (tt, w1) ∧
       (∀ a, p = Some a →
          a ∈ Unique.objects w ∧ (a ∉ Unique.objects w1) ∧
          ∃ t, Unique.trace w1 = t ++ [destroyed_object a]) ∧
       (p = None → w1 = w) ∧
       (r ← Unique.load_object other; Unique.store_object this r;;
        Unique.store_object other None) w1 = Ok (tt, w') ∧
       UniqueT.move_assign destructor this other w = Ok (tt, w') ∧
       Unique.instances w'
       = <[other := Unique.mk_unique_ptr None]>
           (<[this := Unique.mk_unique_ptr q]> (Unique.instances w1)) ∧
       Unique.objects w' = Unique.objects w1 ∧
       Unique.trace w' = Unique.trace w1 ∧
       value (Unique.get this w') = Ok q ∧
       value (Unique.operator_bool other w') = Ok false) ∧
  (∀ destructor q,
     UniqueT.inert destructor →
     Unique.instances w !! other = Some (Unique.mk_unique_ptr q) →
     (∀ a, p = Some a → a ∈ Unique.objects w) →
     ∃ w1 w',
       (old ← Unique.load_object this; UniqueT.delete_object destructor old) w
       = Ok (tt, w1) ∧
       Unique.instances w1 = Unique.instances w ∧
       Unique.objects w1 = Unique.objects w ∖ pointee p ∧
       Unique.trace w1 = Unique.trace w ++ destruction p ∧
       (r ← Unique.load_object other; Unique.store_object this r;;
        Unique.store_object other None) w1 = Ok (tt, w') ∧
       UniqueT.move_assign destructor this other w = Ok (tt, w') ∧
       Unique.instances w'
       = <[other := Unique.mk_unique_ptr None]>
           (<[this := Unique.mk_unique_ptr q]> (Unique.instances w)) ∧
       Unique.objects w' = Unique.objects w1 ∧
       Unique.trace w' = Unique.trace w1 ∧
       value (Unique.get this w') = Ok q ∧
       value (Unique.operator_bool other w') = Ok false).
Proof.
  intros Hne Hv. split.
  - intros destructor w1 q Hd [x Hv1] Ho.
    destruct (unique_delete_object_gone destructor p w w1 Hd) as [Hgone Hnull].
    eexists. split.
    { erewrite bind_Ok by (unfold_unique; by lookups). done. }
    split; [done|]. split; [done|]. split.
    { unfold_unique. by lookups. }
    split.
    { by rewrite (unique_move_assign_released destructor w w1 this other p
                    (Unique.mk_unique_ptr q)) by (done || by eexists). }
    simpl. split; [done|]. split; [done|]. split; [done|]. split.
    + unfold_unique. by lookups.
    + rewrite (unique_operator_bool _ other (Unique.mk_unique_ptr None));
        [done|]. simpl. by rewrite lookup_insert_eq.
  - intros destructor q Hin Ho Hp.
    eexists _, _. split.
    { erewrite bind_Ok by (unfold_unique; by lookups). simpl.
      rewrite unique_delete_object_inert by done.
      by apply unique_delete_object. }
    simpl. split; [done|]. split; [done|]. split; [done|]. split.
    { unfold_unique. by lookups. }
    split.
    { rewrite unique_move_assign_inert by done.
      by rewrite (unique_move_assign_distinct w this other p
                    (Unique.mk_unique_ptr q)). }
    simpl. split; [done|]. split; [done|]. split; [done|]. split.
    + unfold_unique. by lookups.
    + rewrite (unique_operator_bool _ other (Unique.mk_unique_ptr None));
        [done|]. simpl. by rewrite lookup_insert_eq.
Qed.

(** C2, where the code breaks it.  No assignment operator looks for
    [this == &other].  Move-assigning an instance to itself is [reset()],
    for [shared_ptr] and for [unique_ptr] alike: a sole owner destroys its
    object and ends up empty.  Copy-assigning a sole [shared_ptr] to itself
    is undefined: the use count is freed and then incremented. *)
Theorem self_assignment_is_not_a_no_op :
  (∀ w v, move_assign v v w = reset v w) ∧
  (∀ w v, Unique.move_assign v v w = Unique.reset v w) ∧
  (make_shared "a";; copy_assign "a" "a" : M unit) init
  = Undefined use_after_free ∧
  value ((make_shared "a";; move_assign "a" "a";; use_count "a" : M Z) init)
  = Ok 0 ∧
  value ((Unique.make_unique "a";; Unique.move_assign "a" "a";;
          Unique.operator_bool "a" : Unique.M bool) Unique.init) = Ok false ∧
  (Unique.trace <$>
     final ((Unique.make_unique "a";; Unique.move_assign "a" "a"
             : Unique.M unit) Unique.init)) = Some [destroyed_object 1%positive].
Proof.
  split; [apply move_assign_self_reset|].
  split; [apply unique_move_assign_self_reset|].
  assert (Hfresh : instances init !! "a" = None) by done.
  pose proof (make_shared_fresh init "a" Hfresh) as Hm.
  destruct (step_make_shared init "a" inv_init Hfresh) as (w1 & Hm1 & I1).
  rewrite Hm in Hm1. injection Hm1 as Hw1. simpl in Hw1.
  assert (Ha : instances w1 !! "a"
               = Some (mk_shared_ptr (Some 1%positive) (Some 2%positive)))
    by (subst w1; apply lookup_insert_eq).
  assert (Hn : counters w1 !! 2%positive = Some 1)
    by (subst w1; apply lookup_insert_eq).
  split.
  { rewrite (bind_Ok _ _ _ _ _ Hm). simpl. rewrite Hw1.
    by destruct (copy_assign_self_sole w1 "a" _ 2%positive I1 Ha eq_refl Hn). }
  split; [|split; vm_compute; reflexivity].
  rewrite (bind_Ok _ _ _ _ _ Hm). simpl. rewrite Hw1.
  assert (Hw : wrap (1 - 1) = 0)
    by (apply wrap_small; pose proof SIZE_MAX_least; lia).
  assert (Hlive : 1%positive ∈ objects w1) by (subst w1; simpl; set_solver).
  pose proof (decrement_last w1 "a" _ 2%positive 1 1%positive
                Ha eq_refl Hn Hw eq_refl Hlive) as Hd.
  erewrite bind_Ok by (rewrite move_assign_self_reset; by apply reset_after).
  simpl. erewrite (proj2 (use_count_value _ "a" null _)); [done..|].
  Unshelve. all: simpl; by rewrite ?lookup_insert_eq.
Qed.

(** C5, as the code has it.  Moving from an instance that holds an object
    leaves it empty.  A move constructor deletes nothing, and the one of
    [shared_ptr] leaves every use count as it was.  A move assignment
    between two instances first releases what the destination holds, and
    the destructor of an object it deletes runs before the source is read:
    whenever that release is defined and leaves the source alive, and for
    [unique_ptr] the destination too, the source ends empty and the
    transfer itself alters no use count.  The
    release does: when the destination held the use count of the source,
    that use count has one owner less.  With a destructor that touches no
    smart pointer the release is defined, for [unique_ptr] when the
    destination owns a live object or none and for [shared_ptr] in every
    world a program in contract can reach, and it alters no other use
    count. *)
Theorem move_leaves_source_empty :
  (∀ w v other up,
     Unique.instances w !! v = None →
     Unique.instances w !! other = Some up → is_Some (Unique.m_object up) →
     ∃ w', Unique.move_construct v other w = Ok (tt, w') ∧
       value (Unique.operator_bool other w') = Ok false) ∧
  (∀ destructor w w1 v other p up,
     v ≠ other →
     Unique.instances w !! v = Some (Unique.mk_unique_ptr p) →
     UniqueT.delete_object destructor p w = Ok (tt, w1) →
     is_Some (Unique.instances w1 !! v) →
     Unique.instances w1 !! other = Some up → is_Some (Unique.m_object up) →
     ∃ w', UniqueT.move_assign destructor v other w = Ok (tt, w') ∧
       value (Unique.operator_bool other w') = Ok false) ∧
  (∀ destructor w v other p up,
     UniqueT.inert destructor → v ≠ other →
     Unique.instances w !! v = Some (Unique.mk_unique_ptr p) →
     (∀ a, p = Some a → a ∈ Unique.objects w) →
     Unique.instances w !! other = Some up → is_Some (Unique.m_object up) →
     ∃ w', UniqueT.move_assign destructor v other w = Ok (tt, w') ∧
       value (Unique.operator_bool other w') = Ok false) ∧
  (∀ w v other sp,
     instances w !! v = None →
     instances w !! other = Some sp → is_Some (m_object sp) →
     ∃ w', move_construct v other w = Ok (tt, w') ∧
       value (operator_bool other w') = Ok false ∧
       counters w' = counters w) ∧
  (∀ destructor w w0 v other spo,
     v ≠ other →
     SharedT.decrement_use_count destructor v w = Ok (tt, w0) →
     instances w0 !! other = Some spo → is_Some (m_object spo) →
     ∃ w', SharedT.move_assign destructor v other w = Ok (tt, w') ∧
       value (operator_bool other w') = Ok false ∧
       instances w' !! v = Some spo ∧
       counters w' = counters w0) ∧
  (∀ destructor w v other spv spo c n,
     v ≠ other →
     instances w !! v = Some spv → instances w !! other = Some spo →
     is_Some (m_object spo) →
     m_use_count spv = Some c → m_use_count spo = Some c →
     counters w !! c = Some n → 2 ≤ n ≤ SIZE_MAX →
     ∃ w', SharedT.move_assign destructor v other w = Ok (tt, w') ∧
       value (operator_bool other w') = Ok false ∧
       counters w' = <[c := n - 1]> (counters w)) ∧
  (∀ destructor w v other spv spo,
     SharedT.inert destructor →
     reachable w → v ≠ other →
     instances w !! v = Some spv →
     instances w !! other = Some spo → is_Some (m_object spo) →
     ∃ w' c n, SharedT.move_assign destructor v other w = Ok (tt, w') ∧
       value (operator_bool other w') = Ok false ∧
       m_use_count spo = Some c ∧ counters w !! c = Some n ∧
       counters w' !! c
       = Some (if decide (m_use_count spv = Some c) then n - 1 else n)).
Proof.
  split; [|split; [|split; [|split; [|split; [|split]]]]].
  - intros w v other up Hv Ho _.
    rewrite (unique_move_construct_fresh w v other up) by done.
    eexists; split; [done|].
    rewrite (unique_operator_bool _ other (Unique.mk_unique_ptr None));
      [done|]. simpl. by rewrite lookup_insert_eq.
  - intros destructor w w1 v other p up Hne Hv Hd Hv1 Ho _.
    rewrite (unique_move_assign_released destructor w w1 v other p up)
      by done.
    eexists; split; [done|].
    rewrite (unique_operator_bool _ other (Unique.mk_unique_ptr None));
      [done|]. simpl. by rewrite lookup_insert_eq.
  - intros destructor w v other p up Hin Hne Hv Hp Ho _.
    rewrite unique_move_assign_inert by done.
    rewrite (unique_move_assign_distinct w v other p up) by done.
    eexists; split; [done|].
    rewrite (unique_operator_bool _ other (Unique.mk_unique_ptr None));
      [done|]. simpl. by rewrite lookup_insert_eq.
  - intros w v other sp Hv Ho _.
    rewrite (move_construct_fresh w v other sp) by done.
    eexists; split; [done|]. split; [|done].
    rewrite (operator_bool_value _ other null); [done|]. simpl.
    by rewrite lookup_insert_eq.
  - intros destructor w w0 v other spo Hne Hd Ho0 _.
    rewrite (move_assign_released destructor w v other spo w0) by done.
    eexists; split; [done|]. simpl. split.
    { rewrite (operator_bool_value _ other null); [done|]. simpl.
      by rewrite lookup_insert_eq. }
    split; [|done]. by lookups.
  - intros destructor w v other spv spo c n Hne Hv Ho _ Hcv Hco Hn Hrange.
    assert (Hw : wrap (n - 1) = n - 1) by (apply wrap_small; lia).
    pose proof (decrement_shared_any destructor w v spv c n Hv Hcv Hn
                  ltac:(lia)) as Hd.
    rewrite (move_assign_released destructor w v other spo _ Hd) by done.
    eexists; split; [done|]. simpl. split; [|by rewrite Hw].
    rewrite (operator_bool_value _ other null); [done|]. simpl.
    by rewrite lookup_insert_eq.
  - intros destructor w v other spv spo Hin R Hne Hv Ho Hobj.
    destruct (move_assign_count w v other spv spo (reachable_inv w R)
                Hne Hv Ho Hobj) as (w' & c & n & Hm & Hrest).
    exists w', c, n. split; [|done]. by rewrite move_assign_inert.
Qed.

(** ** Exclusive ownership in unique_ptr.hpp *)

Lemma unique_inv_init : Unique.inv Unique.init.
Proof.
  constructor; simpl; intros; rewrite ?lookup_empty in *;
    try done; try set_solver.
  apply NoDup_nil_2.
Qed.

Lemma elem_of_pointee a p : a ∈ pointee p ↔ p = Some a.
Proof. destruct p as [a'|]; simpl; set_solver. Qed.

Lemma elem_of_destruction e p :
  e ∈ destruction p ↔ ∃ a, p = Some a ∧ e = destroyed_object a.
Proof.
  destruct p as [a'|]; simpl.
  - rewrite list_elem_of_singleton. naive_solver.
  - split; [by intros ?%elem_of_nil|naive_solver].
Qed.

Lemma NoDup_destruction p : NoDup (destruction p).
Proof. destruct p; simpl; [apply NoDup_singleton|apply NoDup_nil_2]. Qed.

(** The free store after [delete p] of a pointer an instance owns. *)
Lemma unique_inv_store w v p :
  Unique.inv w → Unique.instances w !! v = Some (Unique.mk_unique_ptr p) →
  (∀ a, a ∈ Unique.objects w ∖ pointee p → (a < Unique.next w)%positive) ∧
  NoDup (Unique.trace w ++ destruction p) ∧
  (∀ e, e ∈ Unique.trace w ++ destruction p →
     ∃ a, e = destroyed_object a ∧ (a ∉ Unique.objects w ∖ pointee p) ∧
          (a < Unique.next w)%positive).
Proof.
  intros I Hv.
  pose proof (Unique.inv_live _ I) as Hlive.
  pose proof (Unique.inv_next _ I) as Hnext.
  pose proof (Unique.inv_destroyed _ I) as Hdes.
  split; [|split].
  - intros a [Ha _]%elem_of_difference. by apply Hnext.
  - apply NoDup_app. split; [apply (Unique.inv_trace _ I)|].
    split; [|apply NoDup_destruction].
    intros e He (a & -> & ->)%elem_of_destruction.
    destruct (Hdes _ He) as (a' & [= <-] & Hgone & _).
    apply Hgone. by apply (Hlive v _ a Hv).
  - intros e [He|(a & -> & ->)%elem_of_destruction]%elem_of_app.
    + destruct (Hdes _ He) as (a & -> & Hgone & Hlt). exists a.
      split; [done|]. split; [|done]. by intros [? _]%elem_of_difference.
    + exists a. split; [done|]. split.
      * intros [_ Hn]%elem_of_difference. apply Hn. by apply elem_of_pointee.
      * apply Hnext. by apply (Hlive v _ a Hv).
Qed.

(** Deleting what one instance owns and giving it a fresh raw pointer. *)
Lemma unique_inv_replace w v p q :
  Unique.inv w → Unique.instances w !! v = Some (Unique.mk_unique_ptr p) →
  Unique.unmanaged w q →
  Unique.inv (Unique.mk_world
                (<[v := Unique.mk_unique_ptr q]> (Unique.instances w))
                (Unique.objects w ∖ pointee p) (Unique.next w)
                (Unique.trace w ++ destruction p)).
Proof.
  intros I Hv Hq.
  pose proof (Unique.inv_live _ I) as Hlive.
  pose proof (Unique.inv_exclusive _ I) as Hex.
  destruct (unique_inv_store w v p I Hv) as (Hnext & Hnd & Hdes).
  assert (Hfresh : ∀ v' up' a, Unique.instances w !! v' = Some up' →
                     q = Some a → Unique.m_object up' ≠ Some a).
  { intros v' up' a Hv' ->. destruct Hq as [_ Hq]. by apply (Hq v' up'). }
  constructor; simpl; [| |done..].
  - intros v0 up0 p0 H0 Hp0. apply elem_of_difference.
    map_cases; simpl in *.
    + subst q. destruct Hq as [Hq _]. split; [done|].
      intros ->%elem_of_pointee. by eapply (Hfresh v).
    + split; [by eauto|]. intros ->%elem_of_pointee.
      assert (v = v0) by (by eapply (Hex v v0)). done.
  - intros v1 v2 up1 up2 p0 H1 H2 Hp1 Hp2. map_cases; simpl in *; try done.
    + subst q. exfalso. eapply Hfresh; by eauto.
    + subst q. exfalso. eapply Hfresh; by eauto.
    + by eauto.
Qed.

Lemma unique_inv_destroy w v p :
  Unique.inv w → Unique.instances w !! v = Some (Unique.mk_unique_ptr p) →
  Unique.inv (Unique.mk_world (delete v (Unique.instances w))
                (Unique.objects w ∖ pointee p) (Unique.next w)
                (Unique.trace w ++ destruction p)).
Proof.
  intros I Hv.
  pose proof (Unique.inv_live _ I) as Hlive.
  pose proof (Unique.inv_exclusive _ I) as Hex.
  destruct (unique_inv_store w v p I Hv) as (Hnext & Hnd & Hdes).
  constructor; simpl; [| |done..].
  - intros v0 up0 p0 H0 Hp0. apply elem_of_difference. map_cases.
    split; [by eauto|]. intros ->%elem_of_pointee.
    assert (v = v0) by (by eapply (Hex v v0)). done.
  - intros v1 v2 up1 up2 p0 H1 H2 Hp1 Hp2. map_cases. by eauto.
Qed.

(** Handing what [other] owns to [v], whose own object is deleted. *)
Lemma unique_inv_transfer w v other p up :
  Unique.inv w → v ≠ other →
  Unique.instances w !! v = Some (Unique.mk_unique_ptr p) →
  Unique.instances w !! other = Some up →
  Unique.inv (Unique.mk_world
                (<[other := Unique.mk_unique_ptr None]>
                   (<[v := up]> (Unique.instances w)))
                (Unique.objects w ∖ pointee p) (Unique.next w)
                (Unique.trace w ++ destruction p)).
Proof.
  intros I Hne Hv Ho.
  pose proof (Unique.inv_live _ I) as Hlive.
  pose proof (Unique.inv_exclusive _ I) as Hex.
  destruct (unique_inv_store w v p I Hv) as (Hnext & Hnd & Hdes).
  assert (Hkeep : ∀ v0 up0 p0, v0 ≠ v →
            Unique.instances w !! v0 = Some up0 →
            Unique.m_object up0 = Some p0 →
            p0 ∈ Unique.objects w ∖ pointee p).
  { intros v0 up0 p0 Hv0 H0 Hp0. apply elem_of_difference.
    split; [by eauto|]. intros ->%elem_of_pointee.
    assert (v = v0) by (by eapply (Hex v v0)). done. }
  constructor; simpl; [| |done..].
  - intros v0 up0 p0 H0 Hp0.
    destruct (decide (v0 = other)) as [->|N0].
    { rewrite lookup_insert_eq in H0. by injection H0 as <-. }
    rewrite lookup_insert_ne in H0 by done.
    destruct (decide (v0 = v)) as [->|M0].
    + rewrite lookup_insert_eq in H0. injection H0 as <-.
      by eapply (Hkeep other).
    + rewrite lookup_insert_ne in H0 by done. by eapply (Hkeep v0).
  - intros v1 v2 up1 up2 p0 H1 H2 Hp1 Hp2.
    destruct (decide (v1 = other)) as [->|N1].
    { rewrite lookup_insert_eq in H1. by injection H1 as <-. }
    destruct (decide (v2 = other)) as [->|N2].
    { rewrite lookup_insert_eq in H2. by injection H2 as <-. }
    rewrite lookup_insert_ne in H1, H2 by done.
    destruct (decide (v1 = v)) as [->|M1]; destruct (decide (v2 = v)) as [->|M2];
      [done| | |].
    + rewrite lookup_insert_eq in H1. injection H1 as <-.
      rewrite lookup_insert_ne in H2 by done.
      destruct N2. symmetry. by eapply (Hex other v2).
    + rewrite lookup_insert_eq in H2. injection H2 as <-.
      rewrite lookup_insert_ne in H1 by done.
      destruct N1. by eapply (Hex v1 other).
    + rewrite lookup_insert_ne in H1, H2 by done. by eauto.
Qed.

Lemma unique_inv_new w :
  Unique.inv w →
  Unique.inv (Unique.mk_world (Unique.instances w)
                ({[Unique.next w]} ∪ Unique.objects w)
                (Pos.succ (Unique.next w)) (Unique.trace w)).
Proof.
  intros I.
  pose proof (Unique.inv_live _ I) as Hlive.
  pose proof (Unique.inv_next _ I) as Hnext.
  pose proof (Unique.inv_destroyed _ I) as Hdes.
  constructor; simpl.
  - intros v up p Hv Hp. apply elem_of_union_r. by eauto.
  - apply (Unique.inv_exclusive _ I).
  - intros p [->%elem_of_singleton|Hp]%elem_of_union; [lia|].
    pose proof (Hnext p Hp). lia.
  - apply (Unique.inv_trace _ I).
  - intros e He. destruct (Hdes e He) as (a & -> & Hgone & Hlt).
    exists a. split; [done|]. split; [|lia].
    intros [->%elem_of_singleton|?]%elem_of_union; [lia|done].
Qed.

Lemma unique_inv_construct w v p :
  Unique.inv w → Unique.instances w !! v = None → Unique.unmanaged w p →
  Unique.inv (Unique.mk_world
                (<[v := Unique.mk_unique_ptr p]> (Unique.instances w))
                (Unique.objects w) (Unique.next w) (Unique.trace w)).
Proof.
  intros I Hv Hp.
  pose proof (Unique.inv_live _ I) as Hlive.
  pose proof (Unique.inv_exclusive _ I) as Hex.
  assert (Hfresh : ∀ v' up' a, Unique.instances w !! v' = Some up' →
                     p = Some a → Unique.m_object up' ≠ Some a).
  { intros v' up' a Hv' ->. destruct Hp as [_ Hp]. by apply (Hp v' up'). }
  constructor; simpl;
    [| |apply (Unique.inv_next _ I)|apply (Unique.inv_trace _ I)
     |apply (Unique.inv_destroyed _ I)].
  - intros v0 up0 p0 H0 Hp0. map_cases; simpl in *; [|by eauto].
    subst p. by destruct Hp.
  - intros v1 v2 up1 up2 p0 H1 H2 Hp1 Hp2. map_cases; simpl in *; try done.
    + subst p. exfalso. eapply Hfresh; by eauto.
    + subst p. exfalso. eapply Hfresh; by eauto.
    + by eauto.
Qed.

(** *** What the member functions of [unique_ptr] do *)

Lemma unique_load w v up :
  Unique.instances w !! v = Some up →
  Unique.load_object v w = Ok (Unique.m_object up, w).
Proof. intros Hv. unfold_unique. by lookups. Qed.

Lemma unique_reset_ptr_result w v p q :
  Unique.instances w !! v = Some (Unique.mk_unique_ptr p) →
  (∀ a, p = Some a → a ∈ Unique.objects w) →
  Unique.reset_ptr v q w
  = Ok (tt, Unique.mk_world
              (<[v := Unique.mk_unique_ptr q]> (Unique.instances w))
              (Unique.objects w ∖ pointee p) (Unique.next w)
              (Unique.trace w ++ destruction p)).
Proof.
  intros Hv Hp. unfold Unique.reset_ptr.
  rewrite (bind_Ok _ _ _ _ _ (unique_load w v _ Hv)). simpl.
  rewrite (bind_Ok _ _ _ _ _ (unique_delete_object w p Hp)).
  unfold_unique. by lookups.
Qed.

Lemma unique_reset_result w v p :
  Unique.instances w !! v = Some (Unique.mk_unique_ptr p) →
  (∀ a, p = Some a → a ∈ Unique.objects w) →
  Unique.reset v w
  = Ok (tt, Unique.mk_world
              (<[v := Unique.mk_unique_ptr None]> (Unique.instances w))
              (Unique.objects w ∖ pointee p) (Unique.next w)
              (Unique.trace w ++ destruction p)).
Proof.
  intros Hv Hp. unfold Unique.reset.
  rewrite (bind_Ok _ _ _ _ _ (unique_load w v _ Hv)). simpl.
  rewrite (bind_Ok _ _ _ _ _ (unique_delete_object w p Hp)).
  unfold_unique. by lookups.
Qed.

Lemma unique_destroy_result w v p :
  Unique.instances w !! v = Some (Unique.mk_unique_ptr p) →
  (∀ a, p = Some a → a ∈ Unique.objects w) →
  Unique.destroy v w
  = Ok (tt, Unique.mk_world (delete v (Unique.instances w))
              (Unique.objects w ∖ pointee p) (Unique.next w)
              (Unique.trace w ++ destruction p)).
Proof.
  intros Hv Hp. unfold Unique.destroy.
  rewrite (bind_Ok _ _ _ _ _ (unique_load w v _ Hv)). simpl.
  rewrite (bind_Ok _ _ _ _ _ (unique_delete_object w p Hp)).
  unfold_unique. by lookups.
Qed.

(** Deleting a pointer to an object that is not live is undefined,
    whichever member function does it. *)
Lemma unique_delete_dangling w v a :
  Unique.instances w !! v = Some (Unique.mk_unique_ptr (Some a)) →
  a ∉ Unique.objects w →
  Unique.destroy v w = Undefined double_free ∧
  Unique.reset v w = Undefined double_free ∧
  (∀ q, Unique.reset_ptr v q w = Undefined double_free) ∧
  (∀ other, Unique.move_assign v other w = Undefined double_free).
Proof.
  intros Hv Ha.
  assert (Hd : Unique.delete_object (Some a) w = Undefined double_free).
  { unfold Unique.delete_object. by rewrite decide_False. }
  repeat split; intros;
    unfold Unique.destroy, Unique.reset, Unique.reset_ptr, Unique.move_assign;
    rewrite (bind_Ok _ _ _ _ _ (unique_load w v _ Hv)); simpl;
    by rewrite (bind_Undefined _ _ _ _ Hd).
Qed.

Lemma unique_construct_ptr_fresh w v p :
  Unique.instances w !! v = None →
  Unique.construct_ptr v p w
  = Ok (tt, Unique.mk_world
              (<[v := Unique.mk_unique_ptr p]> (Unique.instances w))
              (Unique.objects w) (Unique.next w) (Unique.trace w)).
Proof. intros Hv. unfold_unique. by lookups. Qed.

Lemma unique_eta up : Unique.mk_unique_ptr (Unique.m_object up) = up.
Proof. by destruct up. Qed.

Lemma unique_unmanaged_fresh w :
  Unique.inv w →
  Unique.unmanaged
    (Unique.mk_world (Unique.instances w)
       ({[Unique.next w]} ∪ Unique.objects w)
       (Pos.succ (Unique.next w)) (Unique.trace w))
    (Some (Unique.next w)).
Proof.
  intros I. split; simpl; [set_solver|].
  intros v up Hv Hp. pose proof (Unique.inv_live w I v up _ Hv Hp) as Hl.
  pose proof (Unique.inv_next w I _ Hl). lia.
Qed.

(** Every operation in contract is defined and keeps exclusive ownership. *)
Lemma unique_exec_inv w o :
  Unique.inv w → Unique.contract w o →
  ∃ w', Unique.exec o w = Ok (tt, w') ∧ Unique.inv w'.
Proof.
  intros I Hc.
  assert (Hlive : ∀ v p, Unique.instances w !! v = Some (Unique.mk_unique_ptr p) →
                         ∀ a, p = Some a → a ∈ Unique.objects w).
  { intros v p Hv a ->. by apply (Unique.inv_live w I v _ a Hv). }
  destruct o as [|v|v p|v|v other|v|v|v p|v other]; simpl in *.
  - eexists; split; [reflexivity|]. by apply unique_inv_new.
  - unfold Unique.construct. fold (Unique.construct_ptr v None).
    rewrite unique_construct_ptr_fresh by done.
    eexists; split; [done|]. by apply unique_inv_construct.
  - destruct Hc. rewrite unique_construct_ptr_fresh by done.
    eexists; split; [done|]. by apply unique_inv_construct.
  - unfold Unique.make_unique.
    erewrite bind_Ok by (unfold Unique.new_object; reflexivity).
    rewrite unique_construct_ptr_fresh by done.
    eexists; split; [done|].
    apply (unique_inv_construct _ v (Some (Unique.next w)));
      [by apply unique_inv_new|done|by apply unique_unmanaged_fresh].
  - destruct Hc as [Hv [up Ho]].
    rewrite (unique_move_construct_fresh w v other up) by done.
    eexists; split; [done|].
    assert (Hne : v ≠ other) by congruence.
    pose proof (unique_inv_transfer _ v other None up
                  (unique_inv_construct w v None I Hv Logic.I) Hne) as Ht.
    simpl in Ht. rewrite insert_insert_eq, difference_empty_L, app_nil_r in Ht.
    apply Ht; [by rewrite lookup_insert_eq|by rewrite lookup_insert_ne].
  - destruct Hc as [[p] Hv].
    rewrite (unique_destroy_result w v p) by eauto.
    eexists; split; [done|]. by apply unique_inv_destroy.
  - destruct Hc as [[p] Hv].
    rewrite (unique_reset_result w v p) by eauto.
    eexists; split; [done|]. by apply unique_inv_replace.
  - destruct Hc as [[[q] Hv] Hp].
    rewrite (unique_reset_ptr_result w v q p) by eauto.
    eexists; split; [done|]. by apply unique_inv_replace.
  - destruct Hc as [[[p] Hv] [up Ho]].
    destruct (decide (v = other)) as [<-|Hne].
    + rewrite unique_move_assign_self_reset.
      rewrite (unique_reset_result w v p) by eauto.
      eexists; split; [done|]. by apply unique_inv_replace.
    + rewrite (unique_move_assign_distinct w v other p up) by eauto.
      eexists; split; [done|]. by apply unique_inv_transfer.
Qed.

Lemma unique_reachable_inv w : Unique.reachable w → Unique.inv w.
Proof.
  induction 1 as [|w o w' _ IH Hc He]; [apply unique_inv_init|].
  destruct (unique_exec_inv w o IH Hc) as (w'' & He' & I'). congruence.
Qed.

Lemma unique_contracts_run os w :
  Unique.reachable w → Unique.contracts os w →
  ∃ w', Unique.run os w = Ok (tt, w') ∧ Unique.reachable w'.
Proof.
  revert w. induction os as [|o os IH]; intros w R Hc; simpl in *.
  - by exists w.
  - destruct Hc as [Hc Hrest].
    destruct (Unique.exec o w) as [[[] w1]|] eqn:He; [|done].
    assert (R1 : Unique.reachable w1) by (by eapply Unique.reachable_step).
    destruct (IH w1 R1 Hrest) as (w' & Hr & R').
    exists w'. split; [|done]. by rewrite (bind_Ok _ _ _ _ _ He).
Qed.

(** ** Further properties of shared_ptr.hpp *)

Lemma operator_bool_true w v :
  value (operator_bool v w) = Ok true →
  ∃ sp p, instances w !! v = Some sp ∧ m_object sp = Some p.
Proof.
  destruct (instances w !! v) as [sp|] eqn:Hv.
  - rewrite (operator_bool_value w v sp Hv). simpl.
    intros [= Hb%bool_decide_eq_true]. exists sp.
    destruct (m_object sp) as [p|]; [by exists p|done].
  - unfold operator_bool. unfold_prims. by lookups.
Qed.

Lemma operator_star_value w v sp :
  instances w !! v = Some sp →
  operator_star v w = Ok (dereference (objects w) (m_object sp), w).
Proof. intros Hv. unfold operator_star, live_objects. unfold_prims. by lookups. Qed.

Lemma get_value w v sp :
  instances w !! v = Some sp → get v w = Ok (m_object sp, w).
Proof. intros Hv. unfold get. unfold_prims. by lookups. Qed.

(** X2. In a world a program in contract can reach, an instance that
    converts to [true] holds the address of a live object that has never
    been destroyed: that is what [get()] and [operator->] return. *)
Theorem held_object_is_live w v :
  reachable w → value (operator_bool v w) = Ok true →
  ∃ p, value (get v w) = Ok (Some p) ∧
    value (operator_arrow v w) = Ok (Some p) ∧
    p ∈ objects w ∧ destroyed_object p ∉ trace w.
Proof.
  intros R Hb. pose proof (reachable_inv w R) as I.
  destruct (operator_bool_true w v Hb) as (sp & p & Hv & Hp).
  assert (Hlive : p ∈ objects w) by (by eapply (inv_live w I)).
  exists p. split; [by rewrite (get_value w v sp), Hp|].
  split; [unfold operator_arrow; fold (get v); by rewrite (get_value w v sp), Hp|].
  split; [done|]. intros Hin. by destruct (inv_destroyed w I p Hin).
Qed.


Lemma use_count_of w v sp :
  instances w !! v = Some sp →
  value (use_count v w)
  = match m_use_count sp with
    | Some c =>
        match counters w !! c with
        | Some n => Ok n
        | None => Undefined use_after_free
        end
    | None => Ok 0
    end.
Proof.
  intros Hv. unfold use_count. unfold_prims. lookups.
  destruct (m_use_count sp) as [c|]; [|done].
  by destruct (counters w !! c).
Qed.

(** X4. Destroying an instance for which [unique()] is false deletes
    nothing: the objects and the trace stay as they are, and [use_count()]
    drops by one on exactly the instances that share its use count. *)
Theorem destroy_shared_owner w v sp :
  reachable w → instances w !! v = Some sp →
  value (unique v w) = Ok false →
  ∃ w', destroy v w = Ok (tt, w') ∧
    instances w' = delete v (instances w) ∧
    objects w' = objects w ∧ trace w' = trace w ∧
    ∀ v' sp' n, v' ≠ v → instances w !! v' = Some sp' →
      value (use_count v' w) = Ok n →
      value (use_count v' w')
      = Ok (if decide (is_Some (m_use_count sp') ∧
                       m_use_count sp' = m_use_count sp)
            then n - 1 else n).
Proof.
  intros R Hv Hu. pose proof (reachable_inv w R) as I.
  destruct (m_use_count sp) as [c|] eqn:Hc; cycle 1.
  { rewrite (destroy_after w v w (decrement_none w v sp Hv Hc)).
    eexists; split; [done|]. simpl. repeat split; try done.
    intros v' sp' n Hne Hv' Hn.
    rewrite (use_count_of _ v' sp') by (simpl; by rewrite lookup_delete_ne).
    simpl. rewrite <- (use_count_of w v' sp' Hv'), Hn.
    rewrite decide_False; [done|]. intros [[? ?] ?]. congruence. }
  destruct (inv_held w I v sp c Hv Hc) as [n0 Hn0].
  rewrite (unique_value w v sp c n0) in Hu by done. simpl in Hu.
  injection Hu as Hu%bool_decide_eq_false.
  destruct (inv_count_value w c n0 I Hn0) as [Hw Hrange].
  rewrite (destroy_after w v _
             (decrement_shared w v sp c n0 Hv Hc Hn0 ltac:(lia))).
  eexists; split; [done|]. simpl. repeat split; try done.
  intros v' sp' n Hne Hv' Hn.
  rewrite (use_count_of _ v' sp') by (simpl; by rewrite lookup_delete_ne).
  rewrite (use_count_of w v' sp' Hv') in Hn. simpl.
  destruct (m_use_count sp') as [c'|] eqn:Hc'.
  - destruct (decide (c' = c)) as [->|Hcc].
    + rewrite lookup_insert_eq, Hw. rewrite Hn0 in Hn. injection Hn as <-.
      rewrite decide_True; [done|]. split; [by eexists|done].
    + rewrite lookup_insert_ne by done.
      rewrite decide_False; [done|]. intros [_ ?]. congruence.
  - rewrite decide_False; [done|]. by intros [[? ?] _].
Qed.

(** X5. Copy-constructing from an instance whose use count has room for
    one more owner and destroying the copy right away leaves the world
    exactly as it was. *)
Theorem copy_then_destroy w a b :
  reachable w → instances w !! b = None →
  count_is (λ n, n < SIZE_MAX) w a →
  (copy_construct b a;; destroy b) w = Ok (tt, w).
Proof.
  intros R Hb Hmax. pose proof (reachable_inv w R) as I.
  unfold count_is in Hmax.
  destruct (instances w !! a) as [sp|] eqn:Ha; [|done].
  assert (Hback : delete b (<[b := sp]> (instances w)) = instances w)
    by (by rewrite delete_insert_eq, delete_id).
  destruct (m_use_count sp) as [c|] eqn:Hc.
  - destruct (counters w !! c) as [n|] eqn:Hn; [|done].
    destruct (inv_count w I c n Hn) as [_ Hrange].
    erewrite bind_Ok; cycle 1.
    { rewrite (copy_construct_fresh w b a sp Hb Ha), Hc, Hn.
      by rewrite wrap_small by lia. }
    erewrite destroy_after; cycle 1.
    { apply (decrement_shared _ b sp c (n + 1)); simpl;
        rewrite ?lookup_insert_eq; try done.
      rewrite wrap_small by lia. lia. }
    simpl. rewrite Hback, insert_insert_eq, wrap_small by lia.
    replace (n + 1 - 1) with n by lia.
    rewrite insert_id by done. by destruct w.
  - erewrite bind_Ok; cycle 1.
    { by rewrite (copy_construct_fresh w b a sp Hb Ha), Hc. }
    erewrite destroy_after; cycle 1.
    { apply (decrement_none _ b sp); simpl; by rewrite ?lookup_insert_eq. }
    simpl. rewrite Hback. by destruct w.
Qed.

(** X6. Move-constructing [b] from [a] and then destroying [a] only moves
    the fields from one storage to the other: no use count changes and
    nothing is deleted. *)
Theorem move_then_destroy_source w a b sp :
  instances w !! b = None → instances w !! a = Some sp →
  (move_construct b a;; destroy a) w
  = Ok (tt, mk_world (<[b := sp]> (delete a (instances w))) (objects w)
                     (counters w) (next w) (trace w)).
Proof.
  intros Hb Ha. assert (Hne : b ≠ a) by congruence.
  rewrite (bind_Ok _ _ _ _ _ (move_construct_fresh w b a sp Hb Ha)).
  erewrite destroy_after; cycle 1.
  { apply (decrement_none _ a null); simpl; by rewrite ?lookup_insert_eq. }
  simpl. by rewrite delete_insert_eq, delete_insert_ne.
Qed.

Lemma reset_empties w v :
  instances w !! v = Some null → reset v w = Ok (tt, w).
Proof.
  intros Hv. rewrite (reset_after w v w) by (by apply (decrement_none w v null)).
  rewrite insert_id by done. by destruct w.
Qed.

Lemma decrement_after_reset w0 v :
  decrement_use_count v
    (mk_world (<[v := null]> (instances w0)) (objects w0) (counters w0)
              (next w0) (trace w0))
  = Ok (tt, mk_world (<[v := null]> (instances w0)) (objects w0) (counters w0)
                     (next w0) (trace w0)).
Proof. apply (decrement_none _ v null); simpl; by rewrite ?lookup_insert_eq. Qed.

Lemma reset_undefined w v f :
  decrement_use_count v w = Undefined f → reset v w = Undefined f.
Proof. intros Hd. unfold reset. by rewrite (bind_Undefined _ _ _ _ Hd). Qed.

(** X7. What every releasing member function does between two instances is
    [reset()] followed by that same function: the copy assignment, the move
    assignment, [reset(pointer)] and the destructor never look at the old
    fields of [this] again once the old reference is released. *)
Theorem release_then_acquire w v other p :
  v ≠ other →
  copy_assign v other w = (reset v;; copy_assign v other) w ∧
  move_assign v other w = (reset v;; move_assign v other) w ∧
  reset_ptr v p w = (reset v;; reset_ptr v p) w ∧
  destroy v w = (reset v;; destroy v) w.
Proof.
  intros Hne.
  destruct (decrement_use_count v w) as [[[] w0]|f] eqn:Hd; cycle 1.
  { rewrite !(bind_Undefined _ _ _ _ (reset_undefined w v f Hd)).
    unfold copy_assign, move_assign, reset_ptr, destroy.
    by rewrite !(bind_Undefined _ _ _ _ Hd). }
  pose proof (decrement_after_reset w0 v) as Hd1.
  rewrite !(bind_Ok _ _ _ _ _ (reset_after w v w0 Hd)).
  split; [|split; [|split]].
  - destruct (instances w0 !! other) as [sp|] eqn:Ho.
    + rewrite (copy_assign_after w v other sp w0 Hd Ho Hne).
      rewrite (copy_assign_after _ v other sp _ Hd1)
        by (simpl; by rewrite ?lookup_insert_ne).
      simpl. by rewrite insert_insert_eq.
    + unfold copy_assign. rewrite (bind_Ok _ _ _ _ _ Hd), (bind_Ok _ _ _ _ _ Hd1).
      unfold_prims. by lookups.
  - destruct (instances w0 !! other) as [sp|] eqn:Ho.
    + rewrite (move_assign_after w v other sp w0 Hd Ho Hne).
      rewrite (move_assign_after _ v other sp _ Hd1)
        by (simpl; by rewrite ?lookup_insert_ne).
      simpl. by rewrite insert_insert_eq.
    + unfold move_assign. rewrite (bind_Ok _ _ _ _ _ Hd), (bind_Ok _ _ _ _ _ Hd1).
      unfold_prims. by lookups.
  - rewrite (reset_ptr_after w v p w0 Hd), (reset_ptr_after _ v p _ Hd1).
    simpl. by rewrite insert_insert_eq.
  - rewrite (destroy_after w v w0 Hd), (destroy_after _ v _ Hd1).
    simpl. by rewrite delete_insert_eq.
Qed.

(** X8. [reset()] twice is [reset()] once, for both pointer types and in
    every world, the undefined cases included. *)
Theorem reset_idempotent :
  (∀ w v, (reset v;; reset v) w = reset v w) ∧
  (∀ w v, (Unique.reset v;; Unique.reset v) w = Unique.reset v w).
Proof.
  split.
  - intros w v.
    destruct (decrement_use_count v w) as [[[] w0]|f] eqn:Hd.
    + rewrite (bind_Ok _ _ _ _ _ (reset_after w v w0 Hd)).
      rewrite (reset_after w v w0 Hd).
      apply reset_empties. simpl. by rewrite lookup_insert_eq.
    + pose proof (reset_undefined w v f Hd) as Hr.
      by rewrite (bind_Undefined _ _ _ _ Hr), Hr.
  - intros w v.
    destruct (Unique.instances w !! v) as [[p]|] eqn:Hv; cycle 1.
    { unfold_unique. by lookups. }
    destruct p as [a|]; [destruct (decide (a ∈ Unique.objects w)) as [Ha|Ha]|].
    + assert (Hp : ∀ a', Some a = Some a' → a' ∈ Unique.objects w)
        by (by intros ? [= <-]).
      rewrite (bind_Ok _ _ _ _ _ (unique_reset_result w v _ Hv Hp)).
      rewrite (unique_reset_result w v _ Hv Hp).
      rewrite (unique_reset_result _ v None);
        simpl; rewrite ?lookup_insert_eq; try done.
      by rewrite insert_insert_eq, difference_empty_L, app_nil_r.
    + destruct (unique_delete_dangling w v a Hv Ha) as (_ & Hr & _).
      by rewrite (bind_Undefined _ _ _ _ Hr), Hr.
    + assert (Hp : ∀ a', None = Some a' → a' ∈ Unique.objects w) by done.
      rewrite (bind_Ok _ _ _ _ _ (unique_reset_result w v _ Hv Hp)).
      rewrite (unique_reset_result w v _ Hv Hp).
      rewrite (unique_reset_result _ v None);
        simpl; rewrite ?lookup_insert_eq; try done.
      by rewrite insert_insert_eq, !difference_empty_L, !app_nil_r.
Qed.

(** X9. Copy-assigning between two instances that already share a use
    count changes nothing. *)
Theorem copy_assign_between_aliases w v other sp sp' c :
  reachable w → v ≠ other →
  instances w !! v = Some sp → instances w !! other = Some sp' →
  m_use_count sp = Some c → m_use_count sp' = Some c →
  copy_assign v other w = Ok (tt, w).
Proof.
  intros R Hne Hv Ho Hc Hc'. pose proof (reachable_inv w R) as I.
  destruct (inv_held w I v sp c Hv Hc) as [n Hn].
  pose proof (inv_count_two w v other sp sp' c n I Hne Hv Ho Hc Hc' Hn).
  destruct (inv_count_value w c n I Hn) as [Hw Hrange].
  assert (sp = sp') as <-.
  { apply (inv_alias w I v other); [done..|]. left.
    split; [by eexists|congruence]. }
  pose proof (decrement_shared w v sp c n Hv Hc Hn ltac:(lia)) as Hd.
  rewrite (copy_assign_after w v other sp _ Hd) by done.
  simpl. rewrite Hc, lookup_insert_eq, Hw, insert_insert_eq.
  rewrite wrap_small by lia. replace (n - 1 + 1) with n by lia.
  rewrite !insert_id by done. by destruct w.
Qed.

(** X10. Copy assignment between two instances releases exactly what
    [reset()] would release, then makes [this] one more owner of what
    [other] holds: whenever [reset()] on the destination is defined and
    leaves the source alive, holding a use count with room for one more
    owner, both report that count plus one.  With a destructor that touches
    no smart pointer this is so in every world a program in contract can
    reach, between instances that do not share a use count. *)
Theorem copy_assign_shares destructor w v other spo c n :
  v ≠ other → m_use_count spo = Some c →
  (∀ w1,
     SharedT.reset destructor v w = Ok (tt, w1) →
     instances w1 !! other = Some spo →
     counters w1 !! c = Some n → 0 ≤ n < SIZE_MAX →
     ∃ w', SharedT.copy_assign destructor v other w = Ok (tt, w') ∧
       instances w' = <[v := spo]> (instances w1) ∧
       objects w' = objects w1 ∧ trace w' = trace w1 ∧
       counters w' = <[c := n + 1]> (counters w1) ∧
       value (use_count v w') = Ok (n + 1) ∧
       value (use_count other w') = Ok (n + 1)) ∧
  (∀ spv,
     SharedT.inert destructor → reachable w →
     instances w !! v = Some spv → instances w !! other = Some spo →
     m_use_count spv ≠ Some c →
     counters w !! c = Some n → n < SIZE_MAX →
     ∃ w1 w', SharedT.reset destructor v w = Ok (tt, w1) ∧
       SharedT.copy_assign destructor v other w = Ok (tt, w') ∧
       instances w' = <[v := spo]> (instances w) ∧
       objects w' = objects w1 ∧ trace w' = trace w1 ∧
       counters w' = <[c := n + 1]> (counters w1) ∧
       value (use_count v w') = Ok (n + 1) ∧
       value (use_count other w') = Ok (n + 1)).
Proof.
  intros Hne Hc.
  assert (Hobs : ∀ w', instances w' !! v = Some spo →
            instances w' !! other = Some spo →
            counters w' !! c = Some (n + 1) →
            value (use_count v w') = Ok (n + 1) ∧
            value (use_count other w') = Ok (n + 1)).
  { intros w' Hv' Ho' Hn'. split.
    - rewrite (use_count_of _ v spo) by done. simpl. by rewrite Hc, Hn'.
    - rewrite (use_count_of _ other spo) by done. simpl. by rewrite Hc, Hn'. }
  split.
  - intros w1 Hr Ho1 Hn1 Hrange.
    destruct (reset_release destructor w v w1 Hr) as (w0 & Hd & ->).
    simpl in *. rewrite lookup_insert_ne in Ho1 by done.
    rewrite (copy_assign_released destructor w v other spo w0 Hd Ho1 Hne).
    rewrite Hc, Hn1, wrap_small by lia.
    eexists; split; [done|]. simpl.
    split; [by rewrite insert_insert_eq|]. do 3 (split; [done|]).
    apply Hobs; simpl; by lookups.
  - intros spv Hin R Hv Ho Hdiff Hn Hmax. pose proof (reachable_inv w R) as I.
    rewrite reset_inert, copy_assign_inert by done.
    destruct (reset_inv w v spv I Hv) as (w1 & Hr & _).
    destruct (reset_decrement w v w1 Hr) as (w0 & Hd & ->).
    destruct (decrement_instances _ _ _ Hd) as (Hi & _).
    assert (Ho0 : instances w0 !! other = Some spo) by (by rewrite Hi).
    assert (Hn0 : counters w0 !! c = Some n)
      by (by rewrite (decrement_other_counters w v spv w0 c Hv Hd Hdiff)).
    destruct (inv_count w I c n Hn) as [_ Hrange].
    eexists _, _. split; [done|].
    rewrite (copy_assign_after w v other spo w0 Hd Ho0 Hne), Hc, Hn0.
    rewrite wrap_small by lia. split; [done|]. simpl.
    split; [by rewrite Hi|]. split; [done|]. split; [done|]. split; [done|].
    apply Hobs; simpl; by lookups.
Qed.

(** X11. [make_shared] in a world a program in contract can reach gives a
    sole owner of an object that was not there before, and disturbs no
    other instance, no other use count and no object. *)
Theorem make_shared_sole_owner w v :
  reachable w → instances w !! v = None →
  ∃ w', make_shared v w = Ok (tt, w') ∧
    (next w ∉ objects w) ∧ counters w !! Pos.succ (next w) = None ∧
    value (get v w') = Ok (Some (next w)) ∧
    value (use_count v w') = Ok 1 ∧ value (unique v w') = Ok true ∧
    (∀ v', v' ≠ v → instances w' !! v' = instances w !! v') ∧
    (∀ c, c ≠ Pos.succ (next w) → counters w' !! c = counters w !! c) ∧
    objects w' = {[next w]} ∪ objects w ∧ trace w' = trace w.
Proof.
  intros R Hv. pose proof (reachable_inv w R) as I.
  rewrite (make_shared_fresh w v Hv). eexists; split; [done|]. simpl.
  split.
  { intros Hin. pose proof (inv_next_objects w I _ Hin). lia. }
  split.
  { destruct (counters w !! Pos.succ (next w)) eqn:Hn; [|done].
    pose proof (inv_next_counters w I _ (mk_is_Some _ _ Hn)). lia. }
  set (sp := mk_shared_ptr (Some (next w)) (Some (Pos.succ (next w)))).
  split.
  { by rewrite (get_value _ v sp) by (simpl; by rewrite lookup_insert_eq). }
  split.
  { rewrite (use_count_of _ v sp) by (simpl; by rewrite lookup_insert_eq).
    simpl. by rewrite lookup_insert_eq. }
  split.
  { rewrite (unique_value _ v sp (Pos.succ (next w)) 1);
      simpl; by rewrite ?lookup_insert_eq. }
  split; [intros v' Hne; by rewrite lookup_insert_ne|].
  split; [intros c Hne; by rewrite lookup_insert_ne|]. done.
Qed.

(** X12. Nothing stops two instances from being constructed from the same
    raw pointer.  Each gets a use count of its own, and destroying both
    deletes the object twice. *)
Theorem double_wrapping_double_frees w v1 v2 p :
  v1 ≠ v2 → instances w !! v1 = None → instances w !! v2 = None →
  p ∈ objects w →
  (construct_ptr v1 (Some p);; construct_ptr v2 (Some p);;
   destroy v1;; destroy v2) w = Undefined double_free.
Proof.
  intros Hne H1 H2 Hp.
  assert (Hw : wrap (1 - 1) = 0)
    by (apply wrap_small; pose proof SIZE_MAX_least; lia).
  assert (Hnn : next w ≠ Pos.succ (next w)) by lia.
  rewrite (bind_Ok _ _ _ _ _ (construct_ptr_fresh w v1 (Some p) H1)).
  erewrite bind_Ok; cycle 1.
  { apply construct_ptr_fresh. simpl. by rewrite lookup_insert_ne. }
  simpl. erewrite bind_Ok; cycle 1.
  { apply destroy_after.
    apply (decrement_last _ v1 (mk_shared_ptr (Some p) (Some (next w)))
             (next w) 1 p); simpl; try done.
    - rewrite lookup_insert_ne by done. by rewrite lookup_insert_eq.
    - rewrite lookup_insert_ne by done. by rewrite lookup_insert_eq. }
  simpl. unfold destroy. apply bind_Undefined.
  apply (decrement_last_dangling _ v2
           (mk_shared_ptr (Some p) (Some (Pos.succ (next w))))
           (Pos.succ (next w)) 1 p); simpl; try done.
  - rewrite lookup_delete_ne by done. by rewrite lookup_insert_eq.
  - rewrite lookup_delete_ne by done. by rewrite lookup_insert_eq.
  - set_solver.
Qed.

(** X14. [reset(pointer)] does not look for the pointer the instance
    already holds: a sole owner reset to its own object deletes the object
    and then holds the dead object, with a fresh use count of 1, so that
    destroying it is undefined. *)
Theorem reset_to_own_pointer w v sp p :
  reachable w → instances w !! v = Some sp → m_object sp = Some p →
  value (unique v w) = Ok true →
  ∃ w', reset_ptr v (Some p) w = Ok (tt, w') ∧
    value (operator_bool v w') = Ok true ∧
    value (unique v w') = Ok true ∧
    value (get v w') = Ok (Some p) ∧ (p ∉ objects w') ∧
    destroy v w' = Undefined double_free.
Proof.
  intros R Hv Hp Hu. pose proof (reachable_inv w R) as I.
  destruct (m_use_count sp) as [c|] eqn:Hc; cycle 1.
  { by rewrite (unique_none w v sp) in Hu. }
  destruct (inv_held w I v sp c Hv Hc) as [n Hn].
  rewrite (unique_value w v sp c n) in Hu by done. simpl in Hu.
  injection Hu as Hu%bool_decide_eq_true. subst n.
  assert (Hw : wrap (1 - 1) = 0)
    by (apply wrap_small; pose proof SIZE_MAX_least; lia).
  assert (Hlive : p ∈ objects w) by (by eapply (inv_live w I)).
  rewrite (reset_ptr_after w v (Some p) _
             (decrement_last w v sp c 1 p Hv Hc Hn Hw Hp Hlive)).
  eexists; split; [done|]. simpl. rewrite wrap_1.
  set (sp' := mk_shared_ptr (Some p) (Some (next w))).
  split.
  { by rewrite (operator_bool_value _ v sp')
      by (simpl; by rewrite lookup_insert_eq). }
  split.
  { rewrite (unique_value _ v sp' (next w) 1);
      simpl; by rewrite ?lookup_insert_eq. }
  split.
  { by rewrite (get_value _ v sp') by (simpl; by rewrite lookup_insert_eq). }
  split; [set_solver|].
  unfold destroy. apply bind_Undefined.
  apply (decrement_last_dangling _ v sp' (next w) 1 p);
    simpl; rewrite ?lookup_insert_eq; try done. set_solver.
Qed.

Lemma refs_holder c (m : gmap var shared_ptr) :
  (1 ≤ refs c m)%nat → ∃ v sp, m !! v = Some sp ∧ m_use_count sp = Some c.
Proof.
  intros Hr.
  assert (Hne : size (filter (λ kv : var * shared_ptr,
                                m_use_count kv.2 = Some c) m) ≠ 0%nat)
    by (unfold refs in Hr; lia).
  apply map_size_ne_0_lookup in Hne as [v [sp Hsp]].
  apply map_lookup_filter_Some in Hsp as [Hv Hc]. by exists v, sp.
Qed.

(** X15. No use count leaks: in a world a program in contract can reach,
    every live use count is held by a live instance, so that once every
    instance has been destroyed no use count is left. *)
Theorem no_use_count_leak w :
  reachable w →
  (∀ c n, counters w !! c = Some n →
     ∃ v sp, instances w !! v = Some sp ∧ m_use_count sp = Some c) ∧
  (instances w = ∅ → counters w = ∅).
Proof.
  intros R. pose proof (reachable_inv w R) as I.
  assert (Hheld : ∀ c n, counters w !! c = Some n →
            ∃ v sp, instances w !! v = Some sp ∧ m_use_count sp = Some c).
  { intros c n Hn. destruct (inv_count w I c n Hn) as [Hr ?].
    apply refs_holder. lia. }
  split; [done|]. intros Hempty. apply map_eq. intros c.
  rewrite lookup_empty. destruct (counters w !! c) as [n|] eqn:Hn; [|done].
  destruct (Hheld c n Hn) as (v & sp & Hv & _).
  by rewrite Hempty, lookup_empty in Hv.
Qed.

(** X16. An object made by [make_shared] lives exactly as long as its sole
    owner: destroying the owner right away leaves the instances, the objects
    and the use counts as they were, and the object and its use count have
    each been deleted once. *)
Theorem make_shared_then_destroy w v :
  reachable w → instances w !! v = None →
  (make_shared v;; destroy v) w
  = Ok (tt, mk_world (instances w) (objects w) (counters w)
              (Pos.succ (Pos.succ (next w)))
              (trace w ++ [destroyed_object (next w);
                           freed_counter (Pos.succ (next w))])).
Proof.
  intros R Hv. pose proof (reachable_inv w R) as I.
  assert (Hw : wrap (1 - 1) = 0)
    by (apply wrap_small; pose proof SIZE_MAX_least; lia).
  assert (Hfo : next w ∉ objects w).
  { intros Hin. pose proof (inv_next_objects w I _ Hin). lia. }
  assert (Hfc : counters w !! Pos.succ (next w) = None).
  { destruct (counters w !! Pos.succ (next w)) eqn:Hn; [|done].
    pose proof (inv_next_counters w I _ (mk_is_Some _ _ Hn)). lia. }
  rewrite (bind_Ok _ _ _ _ _ (make_shared_fresh w v Hv)).
  erewrite destroy_after; cycle 1.
  { apply (decrement_last _ v
             (mk_shared_ptr (Some (next w)) (Some (Pos.succ (next w))))
             (Pos.succ (next w)) 1 (next w));
      simpl; rewrite ?lookup_insert_eq; try done. set_solver. }
  simpl. do 2 f_equal. f_equal.
  - by rewrite delete_insert_eq, delete_id.
  - set_solver.
  - by rewrite delete_insert_eq, delete_id.
Qed.

(** X13. [reset(pointer)] with a fresh raw pointer releases exactly what
    [reset()] would release and makes [this] the sole owner of the new
    object, which that release has not touched. *)
Theorem reset_ptr_adopts w v p :
  reachable w → is_Some (instances w !! v) → unmanaged w (Some p) →
  ∃ w1 w', reset v w = Ok (tt, w1) ∧ reset_ptr v (Some p) w = Ok (tt, w') ∧
    objects w' = objects w1 ∧ trace w' = trace w1 ∧
    value (get v w') = Ok (Some p) ∧ p ∈ objects w' ∧
    value (use_count v w') = Ok 1 ∧ value (unique v w') = Ok true.
Proof.
  intros R [sp Hv] [Hp Hfree]. pose proof (reachable_inv w R) as I.
  destruct (reset_inv w v sp I Hv) as (w1 & Hr & _ & _ & _ & Hobj & _).
  destruct (reset_decrement w v w1 Hr) as (w0 & Hd & ->). simpl in *.
  eexists _, _. split; [done|].
  rewrite (reset_ptr_after w v (Some p) w0 Hd), wrap_1.
  split; [done|]. simpl. split; [done|]. split; [done|].
  set (sp' := mk_shared_ptr (Some p) (Some (next w0))).
  split.
  { by rewrite (get_value _ v sp') by (simpl; by rewrite lookup_insert_eq). }
  split; [apply Hobj; [done|]; by apply (Hfree v sp)|].
  split.
  { rewrite (use_count_of _ v sp') by (simpl; by rewrite lookup_insert_eq).
    simpl. by rewrite lookup_insert_eq. }
  rewrite (unique_value _ v sp' (next w0) 1); simpl; by rewrite ?lookup_insert_eq.
Qed.

(** X23. When the assignments of [shared_ptr] are defined, whatever the
    destructor of the managed object does.  Both release the reference of
    [this] first and read [other] next.  The move assignment returns
    exactly when the release returns and has left [other] alive; the copy
    assignment, when moreover the use count [other] holds, if any, is still
    live.  An [other] whose lifetime the release has ended makes both
    undefined. *)
Theorem assignment_defined destructor w v other :
  ((∃ w', SharedT.move_assign destructor v other w = Ok (tt, w')) ↔
   ∃ w0, SharedT.decrement_use_count destructor v w = Ok (tt, w0) ∧
     is_Some (instances w0 !! other)) ∧
  ((∃ w', SharedT.copy_assign destructor v other w = Ok (tt, w')) ↔
   ∃ w0 sp, SharedT.decrement_use_count destructor v w = Ok (tt, w0) ∧
     instances w0 !! other = Some sp ∧
     ∀ c, m_use_count sp = Some c → is_Some (counters w0 !! c)) ∧
  (∀ w0, SharedT.decrement_use_count destructor v w = Ok (tt, w0) →
     instances w0 !! other = None →
     SharedT.move_assign destructor v other w = Undefined dead_instance ∧
     SharedT.copy_assign destructor v other w = Undefined dead_instance).
Proof.
  destruct (SharedT.decrement_use_count destructor v w) as [[[] w0]|f] eqn:Hd;
    cycle 1.
  { unfold SharedT.move_assign, SharedT.copy_assign.
    rewrite !(bind_Undefined _ _ _ _ Hd).
    split; [|split]; [split; [by intros [? ?]|by intros (? & ? & _)]
                     |split; [by intros [? ?]|by intros (? & ? & ? & _)]
                     |done]. }
  destruct (decrement_keeps_this destructor w v w0 Hd) as [x Hv].
  assert (Hdead : instances w0 !! other = None →
            SharedT.move_assign destructor v other w = Undefined dead_instance ∧
            SharedT.copy_assign destructor v other w = Undefined dead_instance).
  { intros Ho. unfold SharedT.move_assign, SharedT.copy_assign.
    rewrite !(bind_Ok _ _ _ _ _ Hd). unfold_prims. by lookups. }
  split; [|split].
  - destruct (instances w0 !! other) as [sp|] eqn:Ho.
    + split; [intros _; exists w0; split; [done|by eexists]|]. intros _.
      destruct (decide (v = other)) as [->|Hne].
      * unfold SharedT.move_assign. rewrite (bind_Ok _ _ _ _ _ Hd).
        unfold_prims. lookups. by eexists.
      * rewrite (move_assign_released destructor w v other sp w0) by done.
        by eexists.
    + destruct (Hdead eq_refl) as [Hm _]. rewrite Hm. split.
      * by intros [? ?].
      * intros (w1 & [= <-] & Hs). rewrite Ho in Hs. by destruct Hs.
  - destruct (instances w0 !! other) as [sp|] eqn:Ho; cycle 1.
    { destruct (Hdead eq_refl) as [_ Hc]. rewrite Hc. split.
      - by intros [? ?].
      - intros (w1 & sp & [= <-] & Hs & _). congruence. }
    assert (Hc : SharedT.copy_assign destructor v other w
                 = match m_use_count sp with
                   | None =>
                       Ok (tt, mk_world (<[v := sp]> (instances w0)) (objects w0)
                                        (counters w0) (next w0) (trace w0))
                   | Some c =>
                       match counters w0 !! c with
                       | Some n =>
                           Ok (tt, mk_world (<[v := sp]> (instances w0))
                                            (objects w0)
                                            (<[c := wrap (n + 1)]> (counters w0))
                                            (next w0) (trace w0))
                       | None => Undefined use_after_free
                       end
                   end).
    { destruct (decide (v = other)) as [->|Hne].
      - unfold SharedT.copy_assign. rewrite (bind_Ok _ _ _ _ _ Hd).
        unfold increment_use_count. unfold_prims. lookups.
        rewrite eta_shared_ptr.
        destruct (m_use_count sp) as [c|]; [|done].
        destruct (counters w0 !! c) as [n|] eqn:Hn; by lookups.
      - by apply copy_assign_released. }
    rewrite Hc. split.
    + intros [w' Hw']. exists w0, sp. split; [done|]. split; [done|].
      intros c Hsp. rewrite Hsp in Hw'.
      destruct (counters w0 !! c); [by eexists|done].
    + intros (w1 & sp' & [= <-] & Hs & Hlive).
      rewrite Ho in Hs. injection Hs as <-.
      destruct (m_use_count sp) as [c|]; [|by eexists].
      destruct (Hlive c eq_refl) as [n Hn]. rewrite Hn. by eexists.
  - intros w1 [= <-]. apply Hdead.
Qed.

(** ** Further properties of unique_ptr.hpp *)

Lemma unique_get_some w v p :
  value (Unique.get v w) = Ok (Some p) →
  ∃ up, Unique.instances w !! v = Some up ∧ Unique.m_object up = Some p.
Proof.
  unfold Unique.get.
  destruct (Unique.instances w !! v) as [up|] eqn:Hv.
  - rewrite (unique_load w v up Hv). simpl. intros [= Hp]. by exists up.
  - unfold_unique. by lookups.
Qed.

Lemma unique_operator_star w v up :
  Unique.instances w !! v = Some up →
  Unique.operator_star v w
  = Ok (dereference (Unique.objects w) (Unique.m_object up), w).
Proof.
  intros Hv. unfold Unique.operator_star, Unique.live_objects.
  unfold_unique. by lookups.
Qed.

(** X17. Exclusive ownership.  On objects whose destructor touches no
    smart pointer, every [unique_ptr] operation in contract is defined, and
    in the world it leaves no object has been destroyed twice, no two
    instances hold the same object, and a non-null pointer an instance
    holds points to a live object. *)
Theorem unique_ownership_is_exclusive destructor w o :
  UniqueT.inert destructor →
  Unique.reachable w → Unique.contract w o →
  ∃ w', UniqueT.exec destructor o w = Ok (tt, w') ∧
    NoDup (Unique.trace w') ∧
    (∀ v1 v2 p, value (Unique.get v1 w') = Ok (Some p) →
       value (Unique.get v2 w') = Ok (Some p) → v1 = v2) ∧
    (∀ v p, value (Unique.get v w') = Ok (Some p) →
       p ∈ Unique.objects w' ∧ destroyed_object p ∉ Unique.trace w').
Proof.
  intros Hin R Hc. pose proof (unique_reachable_inv w R) as I.
  rewrite (unique_exec_inert destructor o w Hin).
  destruct (unique_exec_inv w o I Hc) as (w' & He & I').
  exists w'. split; [done|]. split; [apply (Unique.inv_trace w' I')|].
  split.
  - intros v1 v2 p (up1 & H1 & Hp1)%unique_get_some
                   (up2 & H2 & Hp2)%unique_get_some.
    by apply (Unique.inv_exclusive w' I' v1 v2 up1 up2 p).
  - intros v p (up & Hv & Hp)%unique_get_some.
    pose proof (Unique.inv_live w' I' v up p Hv Hp) as Hlive. split.
    + done.
    + intros Hin'.
      destruct (Unique.inv_destroyed w' I' _ Hin') as (a & [= <-] & Hgone & _).
      done.
Qed.

(** X22. In a world a program in contract can reach, dereferencing an
    instance that converts to [true] is defined, for both pointer types:
    [operator*] denotes the live object whose address [get()] and
    [operator->] return. *)
Theorem dereference_is_defined :
  (∀ w v, reachable w → value (operator_bool v w) = Ok true →
     ∃ p, value (operator_star v w) = Ok (object_at p) ∧
       value (get v w) = Ok (Some p)) ∧
  (∀ w v, Unique.reachable w →
     value (Unique.operator_bool v w) = Ok true →
     ∃ p, value (Unique.operator_star v w) = Ok (object_at p) ∧
       value (Unique.operator_arrow v w) = Ok (Some p) ∧
       value (Unique.get v w) = Ok (Some p)).
Proof.
  split.
  - intros w v R Hb. pose proof (reachable_inv w R) as I.
    destruct (operator_bool_true w v Hb) as (sp & p & Hv & Hp).
    assert (Hlive : p ∈ objects w) by (by eapply (inv_live w I)).
    exists p. split; [|by rewrite (get_value w v sp), Hp].
    rewrite (operator_star_value w v sp), Hp by done. simpl.
    by rewrite decide_True.
  - intros w v R Hb. pose proof (unique_reachable_inv w R) as I.
    destruct (Unique.instances w !! v) as [[p]|] eqn:Hv; cycle 1.
    { revert Hb. unfold_unique. by lookups. }
    rewrite (unique_operator_bool w v _ Hv) in Hb. simpl in Hb.
    injection Hb as Hb%bool_decide_eq_true.
    destruct p as [p|]; [|done].
    pose proof (Unique.inv_live w I v _ p Hv eq_refl) as Hlive.
    exists p. unfold Unique.operator_arrow, Unique.get.
    rewrite (unique_load w v _ Hv). simpl. split; [|done].
    rewrite (unique_operator_star w v _ Hv). simpl. by rewrite decide_True.
Qed.

(** X18. Move-constructing [b] from [a] and then destroying [a] only moves
    the pointer from one storage to the other: nothing is deleted. *)
Theorem unique_move_then_destroy_source w a b up :
  Unique.instances w !! b = None → Unique.instances w !! a = Some up →
  (Unique.move_construct b a;; Unique.destroy a) w
  = Ok (tt, Unique.mk_world (<[b := up]> (delete a (Unique.instances w)))
              (Unique.objects w) (Unique.next w) (Unique.trace w)).
Proof.
  intros Hb Ha. assert (Hne : b ≠ a) by congruence.
  rewrite (bind_Ok _ _ _ _ _ (unique_move_construct_fresh w b a up Hb Ha)).
  rewrite (unique_destroy_result _ a None);
    simpl; rewrite ?lookup_insert_eq; try done.
  by rewrite delete_insert_eq, delete_insert_ne, difference_empty_L, app_nil_r.
Qed.

(** X19. Nothing stops two [unique_ptr] instances from being constructed
    from the same raw pointer, and destroying both deletes the object
    twice. *)
Theorem unique_double_wrapping_double_frees w v1 v2 p :
  v1 ≠ v2 →
  Unique.instances w !! v1 = None → Unique.instances w !! v2 = None →
  p ∈ Unique.objects w →
  (Unique.construct_ptr v1 (Some p);; Unique.construct_ptr v2 (Some p);;
   Unique.destroy v1;; Unique.destroy v2) w = Undefined double_free.
Proof.
  intros Hne H1 H2 Hp.
  rewrite (bind_Ok _ _ _ _ _ (unique_construct_ptr_fresh w v1 (Some p) H1)).
  erewrite bind_Ok; cycle 1.
  { apply unique_construct_ptr_fresh. simpl. by rewrite lookup_insert_ne. }
  simpl. erewrite bind_Ok; cycle 1.
  { apply (unique_destroy_result _ v1 (Some p)); simpl.
    - rewrite lookup_insert_ne by done. by rewrite lookup_insert_eq.
    - by intros ? [= <-]. }
  simpl.
  apply (unique_delete_dangling _ v2 p); simpl.
  - rewrite lookup_delete_ne by done. by rewrite lookup_insert_eq.
  - set_solver.
Qed.

(** X20. [reset(pointer)] does not look for the pointer the instance
    already owns: reset to its own live object, the instance deletes it and
    then holds the dead object, so that every later release is
    undefined. *)
Theorem unique_reset_to_own_pointer w v p :
  Unique.instances w !! v = Some (Unique.mk_unique_ptr (Some p)) →
  p ∈ Unique.objects w →
  ∃ w', Unique.reset_ptr v (Some p) w = Ok (tt, w') ∧
    value (Unique.get v w') = Ok (Some p) ∧ (p ∉ Unique.objects w') ∧
    Unique.destroy v w' = Undefined double_free ∧
    Unique.reset v w' = Undefined double_free.
Proof.
  intros Hv Hp.
  rewrite (unique_reset_ptr_result w v (Some p) (Some p) Hv)
    by (by intros ? [= <-]).
  eexists; split; [done|]. simpl.
  set (w' := Unique.mk_world _ _ _ _).
  assert (Hv' : Unique.instances w' !! v
                = Some (Unique.mk_unique_ptr (Some p)))
    by (subst w'; simpl; by rewrite lookup_insert_eq).
  assert (Hdead : p ∉ Unique.objects w') by (subst w'; simpl; set_solver).
  split; [unfold Unique.get; by rewrite (unique_load w' v _ Hv')|].
  split; [done|].
  destruct (unique_delete_dangling w' v p Hv' Hdead) as (Hd & Hr & _).
  done.
Qed.

(** X21. An object made by [make_unique] lives exactly as long as its
    owner: destroying the owner right away leaves the instances and the
    objects as they were, and the object has been destroyed once. *)
Theorem make_unique_then_destroy w v :
  Unique.reachable w → Unique.instances w !! v = None →
  (Unique.make_unique v;; Unique.destroy v) w
  = Ok (tt, Unique.mk_world (Unique.instances w) (Unique.objects w)
              (Pos.succ (Unique.next w))
              (Unique.trace w ++ [destroyed_object (Unique.next w)])).
Proof.
  intros R Hv. pose proof (unique_reachable_inv w R) as I.
  assert (Hfo : Unique.next w ∉ Unique.objects w).
  { intros Hin. pose proof (Unique.inv_next w I _ Hin). lia. }
  erewrite bind_Ok; cycle 1.
  { unfold Unique.make_unique.
    erewrite bind_Ok by (unfold Unique.new_object; reflexivity).
    by apply unique_construct_ptr_fresh. }
  rewrite (unique_destroy_result _ v (Some (Unique.next w))); simpl.
  - do 2 f_equal. f_equal.
    + by rewrite delete_insert_eq, delete_id.
    + set_solver.
  - by rewrite lookup_insert_eq.
  - intros ? [= <-]. set_solver.
Qed.

(** X24. When the move assignment of [unique_ptr] is defined, whatever
    the destructor of the managed object does: exactly when [this] is
    alive, the [delete] of its object returns, and [this] and [other] are
    both alive afterwards.  An [other] whose lifetime that [delete] has
    ended makes it undefined. *)
Theorem unique_assignment_defined destructor w v other :
  ((∃ w', UniqueT.move_assign destructor v other w = Ok (tt, w')) ↔
   ∃ p w1, Unique.instances w !! v = Some (Unique.mk_unique_ptr p) ∧
     UniqueT.delete_object destructor p w = Ok (tt, w1) ∧
     is_Some (Unique.instances w1 !! v) ∧
     is_Some (Unique.instances w1 !! other)) ∧
  (∀ p w1, Unique.instances w !! v = Some (Unique.mk_unique_ptr p) →
     UniqueT.delete_object destructor p w = Ok (tt, w1) →
     Unique.instances w1 !! other = None →
     UniqueT.move_assign destructor v other w = Undefined dead_instance).
Proof.
  destruct (Unique.instances w !! v) as [[p]|] eqn:Hv; cycle 1.
  { split; [|done]. split.
    - intros [w' Hw']. revert Hw'. unfold UniqueT.move_assign.
      unfold_unique. by lookups.
    - by intros (? & ? & ? & _). }
  assert (Hrun : UniqueT.move_assign destructor v other w
                 = (UniqueT.delete_object destructor p;;
                    r ← Unique.load_object other;
                    Unique.store_object v r;;
                    Unique.store_object other None) w).
  { unfold UniqueT.move_assign.
    erewrite bind_Ok by (unfold_unique; by lookups). done. }
  destruct (UniqueT.delete_object destructor p w) as [[[] w1]|f] eqn:Hd;
    cycle 1.
  { rewrite Hrun, (bind_Undefined _ _ _ _ Hd). split.
    - split; [by intros [? ?]|].
      intros (? & ? & [= <-] & ? & _). congruence.
    - intros ? ? [= <-] ?. congruence. }
  rewrite Hrun, (bind_Ok _ _ _ _ _ Hd).
  destruct (Unique.instances w1 !! other) as [up|] eqn:Ho; cycle 1.
  { assert (Hu : (r ← Unique.load_object other;
                  Unique.store_object v r;;
                  Unique.store_object other None) w1 = Undefined dead_instance).
    { unfold_unique. by lookups. }
    rewrite Hu. split; [|done]. split; [by intros [? ?]|].
    intros (p' & w1' & [= <-] & Hd' & _ & Hs).
    rewrite Hd in Hd'. injection Hd' as <-. rewrite Ho in Hs. by destruct Hs. }
  split; cycle 1.
  { intros p' w1' [= <-] Hd' Ho'. rewrite Hd in Hd'. injection Hd' as <-.
    congruence. }
  destruct (Unique.instances w1 !! v) as [x|] eqn:Hv1.
  - split.
    + intros _. exists p, w1. split; [done|]. split; [done|].
      split; by eexists.
    + intros _. destruct (decide (v = other)) as [->|Hne].
      * unfold_unique. lookups. by eexists.
      * unfold_unique. lookups. by eexists.
  - split.
    + intros [w' Hw']. revert Hw'. unfold_unique. by lookups.
    + intros (p' & w1' & [= <-] & Hd' & Hs & _).
      rewrite Hd in Hd'. injection Hd' as <-. rewrite Hv1 in Hs.
      by destruct Hs.
Qed.

End Verification.

(** * The theorems at work on a 16-bit board *)

Section Witnesses.

Import Shared.
Existing Instance avr_size_t.

Lemma reachable_after os :
  contracts os init → final (run os init) = Some (after os) →
  reachable (after os).
Proof.
  intros Hc Hr. apply (contracts_reachable os); [done|].
  unfold after in *. by destruct (run os init) as [[[] w]|].
Qed.

Ltac by_deciding := apply (bool_decide_unpack _); by vm_compute.

Ltac by_running := apply reachable_after; [by_deciding|by vm_compute].

(** [shared_ptr<T> a(new T); a = a;] *)
Lemma self_copy_assign_sole_owner_witness :
  ∃ c, Some 2%positive = Some c ∧
    refs c (instances (after one_owner)) = 1%nat ∧
    (∃ w0, decrement_use_count "a" (after one_owner) = Ok (tt, w0) ∧
       instances w0 !! "a"
       = Some (mk_shared_ptr (Some 1%positive) (Some 2%positive)) ∧
       counters w0 !! c = None ∧
       (∀ p, Some 1%positive = Some p → p ∉ objects w0)) ∧
    copy_assign "a" "a" (after one_owner) = Undefined use_after_free.
Proof.
  apply (self_copy_assign_sole_owner (after one_owner) "a"
           (mk_shared_ptr (Some 1%positive) (Some 2%positive))).
  - by_running.
  - by vm_compute.
  - by vm_compute.
Defined.

(** [shared_ptr<T> a(nullptr);] holds a use count and no object. *)
Lemma counter_without_object :
  reachable (after [ConstructPtr "a" None]) ∧
  instances (after [ConstructPtr "a" None]) !! "a"
  = Some (mk_shared_ptr None (Some 1%positive)) ∧
  ¬ (is_Some (m_use_count (mk_shared_ptr None (Some 1%positive))) ↔
     is_Some (m_object (mk_shared_ptr None (Some 1%positive)))).
Proof.
  split; [by_running|]. split; [by vm_compute|].
  simpl. intros [H _]. by destruct H.
Qed.

(** Two aliases of one object hold the one use count. *)
Lemma object_has_shared_count_witness :
  (is_Some (Some 1%positive) → is_Some (Some 2%positive)) ∧
  (∀ v' sp', instances (after two_aliases) !! v' = Some sp' →
     is_Some (Some 1%positive) → m_object sp' = Some 1%positive →
     m_use_count sp' = Some 2%positive).
Proof.
  apply (object_has_shared_count (after two_aliases) "a"
           (mk_shared_ptr (Some 1%positive) (Some 2%positive))).
  - by_running.
  - by vm_compute.
Defined.

(** [a = std::move(b)] between two owners.  Right after the destination
    [a] has released its reference it still holds the pointers to the
    object just destroyed, and after the move it holds what [b] held: at no
    point is the destination empty. *)
Lemma move_destination_not_empty :
  contracts (two_owners ++ [MoveAssign "a" "b"]) init ∧
  (final ((run two_owners;; decrement_use_count "a" : M unit) init)
   ≫= λ w, instances w !! "a")
  = Some (mk_shared_ptr (Some 1%positive) (Some 2%positive)) ∧
  (trace <$> final ((run two_owners;; decrement_use_count "a" : M unit) init))
  = Some [destroyed_object 1%positive; freed_counter 2%positive] ∧
  value ((run two_owners;; operator_bool "b" : M bool) init) = Ok true ∧
  value ((run (two_owners ++ [MoveAssign "a" "b"]);; operator_bool "a"
          : M bool) init) = Ok true.
Proof. split; [by_deciding|]. repeat split; by vm_compute. Qed.

(** [a = std::move(b)] between two owners is defined and deletes once. *)
Lemma release_runs_once_witness :
  ∃ w', SharedT.exec (λ _, mret tt) (MoveAssign "a" "b") (after two_owners)
        = Ok (tt, w') ∧
    NoDup (trace w') ∧
    (∀ c, freed_counter c ∈ trace w' → counters w' !! c = None) ∧
    (∀ p, destroyed_object p ∈ trace w' → p ∉ objects w') ∧
    instances w' !! "b" = Some null ∧
    ("a" ≠ "b" → instances w' !! "a" = instances (after two_owners) !! "b").
Proof.
  apply (release_runs_once (λ _, mret tt) (after two_owners)
           (MoveAssign "a" "b")).
  - by intros a w.
  - by_running.
  - by_deciding.
Defined.

(** [a = std::move(b)] between two aliases: the use count [b] held goes
    from 2 to 1. *)
Lemma move_assign_alters_count :
  contracts (two_aliases ++ [MoveAssign "a" "b"]) init ∧
  value ((run two_aliases;; operator_bool "b" : M bool) init) = Ok true ∧
  value ((run two_aliases;; use_count "b" : M Z) init) = Ok 2 ∧
  value ((run (two_aliases ++ [MoveAssign "a" "b"]);; use_count "a" : M Z) init)
  = Ok 1.
Proof. split; [by_deciding|]. repeat split; by vm_compute. Qed.

(** The moves, each from an instance that holds an object: between plain
    owners, and into [head], whose node takes its member ["n"] with it. *)
Lemma move_leaves_source_empty_witness :
  (∃ w', Unique.move_construct "c" "b" two_unique = Ok (tt, w') ∧
     value (Unique.operator_bool "b" w') = Ok false) ∧
  (∃ w', UniqueT.move_assign item_destructor "head" "x"
           (Unique.after item_and_owner) = Ok (tt, w') ∧
     value (Unique.operator_bool "x" w') = Ok false) ∧
  (∃ w', UniqueT.move_assign (λ _, mret tt) "a" "b" two_unique = Ok (tt, w') ∧
     value (Unique.operator_bool "b" w') = Ok false) ∧
  (∃ w', move_construct "c" "b" (after two_owners) = Ok (tt, w') ∧
     value (operator_bool "b" w') = Ok false ∧
     counters w' = counters (after two_owners)) ∧
  (∃ w', SharedT.move_assign node_destructor "head" "x" (after node_and_owner)
         = Ok (tt, w') ∧
     value (operator_bool "x" w') = Ok false ∧
     instances w' !! "head"
     = Some (mk_shared_ptr (Some 3%positive) (Some 4%positive)) ∧
     counters w' = counters (node_released (after node_and_owner))) ∧
  (∃ w', SharedT.move_assign node_destructor "a" "b" (after two_aliases)
         = Ok (tt, w') ∧
     value (operator_bool "b" w') = Ok false ∧
     counters w' = <[2%positive := 2 - 1]> (counters (after two_aliases))) ∧
  (∃ w' c n, SharedT.move_assign (λ _, mret tt) "a" "b" (after two_aliases)
             = Ok (tt, w') ∧
     value (operator_bool "b" w') = Ok false ∧
     Some 2%positive = Some c ∧ counters (after two_aliases) !! c = Some n ∧
     counters w' !! c
     = Some (if decide (Some 2%positive = Some c) then n - 1 else n)).
Proof.
  destruct (@move_leaves_source_empty avr_size_t)
    as (U1 & U2 & U3 & S1 & S2 & S3 & S4).
  split; [|split; [|split; [|split; [|split; [|split]]]]].
  - apply (U1 two_unique "c" "b" (Unique.mk_unique_ptr (Some 2%positive)));
      [by vm_compute|by vm_compute|by eexists].
  - apply (U2 item_destructor (Unique.after item_and_owner)
              (item_released (Unique.after item_and_owner)) "head" "x"
              (Some 1%positive) (Unique.mk_unique_ptr (Some 2%positive)));
      [done|by vm_compute|by vm_compute|by_deciding|by vm_compute|by eexists].
  - apply (U3 (λ _, mret tt) two_unique "a" "b" (Some 1%positive)
              (Unique.mk_unique_ptr (Some 2%positive)));
      [by intros a w|done|by vm_compute| |by vm_compute|by eexists].
    intros a [= <-]. by vm_compute.
  - apply (S1 (after two_owners) "c" "b"
              (mk_shared_ptr (Some 3%positive) (Some 4%positive)));
      [by vm_compute|by vm_compute|by eexists].
  - apply (S2 node_destructor (after node_and_owner)
              (node_released (after node_and_owner)) "head" "x"
              (mk_shared_ptr (Some 3%positive) (Some 4%positive)));
      [done|by vm_compute|by vm_compute|by eexists].
  - apply (S3 node_destructor (after two_aliases) "a" "b"
              (mk_shared_ptr (Some 1%positive) (Some 2%positive))
              (mk_shared_ptr (Some 1%positive) (Some 2%positive))
              2%positive 2);
      [done|by vm_compute|by vm_compute|by eexists|done|done|by vm_compute
      |by vm_compute].
  - apply (S4 (λ _, mret tt) (after two_aliases) "a" "b"
              (mk_shared_ptr (Some 1%positive) (Some 2%positive))
              (mk_shared_ptr (Some 1%positive) (Some 2%positive)));
      [by intros a w|by_running|done|by vm_compute|by vm_compute|by eexists].
Defined.

(** [use_count()] on one of two aliases. *)
Lemma use_count_value_witness :
  (∀ c n, Some 2%positive = Some c →
          counters (after two_aliases) !! c = Some n →
          use_count "a" (after two_aliases) = Ok (n, after two_aliases)) ∧
  (Some 2%positive = None →
   use_count "a" (after two_aliases) = Ok (0, after two_aliases)).
Proof.
  apply (use_count_value (after two_aliases) "a"
           (mk_shared_ptr (Some 1%positive) (Some 2%positive))).
  by vm_compute.
Defined.

(** Construct, copy, destroy the copy. *)
Lemma unique_iff_count_one_witness :
  ∃ w1 w2 w3,
    construct_ptr "a" (Some 1%positive) (after [New]) = Ok (tt, w1) ∧
    value (unique "a" w1) = Ok true ∧
    copy_construct "b" "a" w1 = Ok (tt, w2) ∧
    value (unique "a" w2) = Ok false ∧ value (unique "b" w2) = Ok false ∧
    destroy "b" w2 = Ok (tt, w3) ∧ value (unique "a" w3) = Ok true.
Proof.
  apply (unique_iff_count_one (after [New]) "a" "b" (Some 1%positive));
    [by vm_compute|by vm_compute|done].
Defined.

(** [head = std::move(head->next)] on a list of one item.  The source is
    the member of the item the destination owns: [delete m_object] ends
    its lifetime, and the next statement reads it. *)
Lemma move_assign_from_member :
  Unique.contracts one_item Unique.init ∧
  Unique.contract (Unique.after one_item) (Unique.MoveAssign "head" "n") ∧
  "head" ≠ "n" ∧
  UniqueT.delete_object item_destructor (Some 1%positive) (Unique.after one_item)
  = Ok (tt, item_released (Unique.after one_item)) ∧
  Unique.instances (item_released (Unique.after one_item)) !! "n" = None ∧
  UniqueT.move_assign item_destructor "head" "n" (Unique.after one_item)
  = Undefined dead_instance.
Proof. split; [by_deciding|]. split; [by_deciding|]. repeat split; by vm_compute. Qed.

(** [head = std::move(x)] with [x] a variable of its own: the item of
    [head] goes, its member with it, and [head] takes the item of [x]. *)
Lemma move_assign_destroys_then_transfers_witness :
  ∃ w', UniqueT.move_assign item_destructor "head" "x"
          (Unique.after item_and_owner) = Ok (tt, w') ∧
    Unique.instances w' !! "head" = Some (Unique.mk_unique_ptr (Some 2%positive)) ∧
    Unique.instances w' !! "x" = Some (Unique.mk_unique_ptr None) ∧
    Unique.instances w' !! "n" = None ∧
    Unique.objects w' = {[2%positive]} ∧
    Unique.trace w' = [destroyed_object 1%positive].
Proof.
  destruct (proj1 (move_assign_destroys_then_transfers
                     (Unique.after item_and_owner) "head" "x" (Some 1%positive)
                     ltac:(done) ltac:(by vm_compute))
              item_destructor (item_released (Unique.after item_and_owner))
              (Some 2%positive))
    as (w' & _ & _ & _ & _ & Hm & Hi & Ho & Ht & _).
  - by vm_compute.
  - by_deciding.
  - by vm_compute.
  - exists w'. split; [done|]. rewrite Hi, Ho, Ht. by vm_compute.
Defined.

(** [shared_ptr<T> a(nullptr);] in the initial world. *)
Lemma construct_from_nullptr_witness :
  ∃ w', construct_ptr "a" None init = Ok (tt, w') ∧
    instances w' !! "a" = Some (mk_shared_ptr None (Some 1%positive)) ∧
    counters w' !! 1%positive = Some 1 ∧
    value (operator_bool "a" w') = Ok false ∧
    value (use_count "a" w') = Ok 1 ∧
    value (unique "a" w') = Ok true.
Proof. apply (construct_from_nullptr init "a"). by vm_compute. Defined.



(** The scenario of the specification: construct A, copy A into B, destroy
    B, destroy A. *)
Example scenario_use_count :
  value ((run one_owner;; use_count "A0" : M Z) init)
  = Undefined dead_instance ∧
  value ((run one_owner;; use_count "a" : M Z) init) = Ok 1 ∧
  value ((run two_aliases;; use_count "a" : M Z) init) = Ok 2 ∧
  value ((run two_aliases;; use_count "b" : M Z) init) = Ok 2 ∧
  value ((run (two_aliases ++ [Destroy "b"]);; use_count "a" : M Z) init)
  = Ok 1 ∧
  trace (after (two_aliases ++ [Destroy "b"; Destroy "a"]))
  = [destroyed_object 1%positive; freed_counter 2%positive].
Proof. repeat split; by vm_compute. Qed.

(** The scenario of the specification for [unique_ptr]: A owns a widget,
    B is move-constructed from A, B is destroyed, A is destroyed. *)
Example scenario_unique_move :
  value ((Unique.make_unique "A";; Unique.move_construct "B" "A";;
          Unique.operator_bool "A" : Unique.M bool) Unique.init) = Ok false ∧
  value ((Unique.make_unique "A";; Unique.move_construct "B" "A";;
          Unique.operator_bool "B" : Unique.M bool) Unique.init) = Ok true ∧
  (Unique.trace <$>
     final ((Unique.make_unique "A";; Unique.move_construct "B" "A";;
             Unique.destroy "B";; Unique.destroy "A" : Unique.M unit)
              Unique.init)) = Some [destroyed_object 1%positive].
Proof. repeat split; by vm_compute. Qed.

(** ** The further properties at work *)

Lemma unique_reachable_after os :
  Unique.contracts os Unique.init →
  final (Unique.run os Unique.init) = Some (Unique.after os) →
  Unique.reachable (Unique.after os).
Proof.
  intros Hc Hr.
  destruct (unique_contracts_run os Unique.init Unique.reachable_init Hc)
    as (w' & Hrun & R).
  unfold Unique.after in *. by rewrite Hrun in *.
Qed.

Ltac by_running_unique :=
  apply unique_reachable_after; [by_deciding|by vm_compute].

(** [use_count()] on one of two aliases counts both. *)
Lemma use_count_counts_owners_witness :
  value (use_count "a" (after two_aliases))
  = Ok (Z.of_nat (refs 2%positive (instances (after two_aliases)))).
Proof.
  apply (use_count_counts_owners (after two_aliases) "a"
           (mk_shared_ptr (Some 1%positive) (Some 2%positive))).
  - by_running.
  - by vm_compute.
  - done.
Defined.

(** The pointer of a sole owner. *)
Lemma held_object_is_live_witness :
  ∃ p, value (get "a" (after one_owner)) = Ok (Some p) ∧
    value (operator_arrow "a" (after one_owner)) = Ok (Some p) ∧
    p ∈ objects (after one_owner) ∧
    destroyed_object p ∉ trace (after one_owner).
Proof.
  apply (held_object_is_live (after one_owner) "a"); [by_running|by vm_compute].
Defined.


(** Destroying one of two aliases. *)
Lemma destroy_shared_owner_witness :
  ∃ w', destroy "b" (after two_aliases) = Ok (tt, w') ∧
    instances w' = delete "b" (instances (after two_aliases)) ∧
    objects w' = objects (after two_aliases) ∧
    trace w' = trace (after two_aliases) ∧
    ∀ v' sp' n, v' ≠ "b" → instances (after two_aliases) !! v' = Some sp' →
      value (use_count v' (after two_aliases)) = Ok n →
      value (use_count v' w')
      = Ok (if decide (is_Some (m_use_count sp') ∧
                       m_use_count sp' = Some 2%positive)
            then n - 1 else n).
Proof.
  apply (destroy_shared_owner (after two_aliases) "b"
           (mk_shared_ptr (Some 1%positive) (Some 2%positive)));
    [by_running|by vm_compute|by vm_compute].
Defined.

(** [{ shared_ptr<T> b(a); }] *)
Lemma copy_then_destroy_witness :
  (copy_construct "b" "a";; destroy "b" : M unit) (after one_owner)
  = Ok (tt, after one_owner).
Proof.
  apply (copy_then_destroy (after one_owner) "a" "b");
    [by_running|by vm_compute|by_deciding].
Defined.

(** [shared_ptr<T> b(std::move(a));] and the end of [a]. *)
Lemma move_then_destroy_source_witness :
  (move_construct "b" "a";; destroy "a" : M unit) (after one_owner)
  = Ok (tt, mk_world
              (<["b" := mk_shared_ptr (Some 1%positive) (Some 2%positive)]>
                 (delete "a" (instances (after one_owner))))
              (objects (after one_owner)) (counters (after one_owner))
              (next (after one_owner)) (trace (after one_owner))).
Proof.
  apply (move_then_destroy_source (after one_owner) "a" "b");
    by vm_compute.
Defined.

(** [a = b], [a = std::move(b)], [a.reset(nullptr)] and the end of [a]
    between two owners. *)
Lemma release_then_acquire_witness :
  copy_assign "a" "b" (after two_owners)
  = (reset "a";; copy_assign "a" "b") (after two_owners) ∧
  move_assign "a" "b" (after two_owners)
  = (reset "a";; move_assign "a" "b") (after two_owners) ∧
  reset_ptr "a" None (after two_owners)
  = (reset "a";; reset_ptr "a" None) (after two_owners) ∧
  destroy "a" (after two_owners) = (reset "a";; destroy "a") (after two_owners).
Proof. by apply (release_then_acquire (after two_owners) "a" "b" None). Defined.

(** [a = b] between two aliases. *)
Lemma copy_assign_between_aliases_witness :
  copy_assign "a" "b" (after two_aliases) = Ok (tt, after two_aliases).
Proof.
  apply (copy_assign_between_aliases (after two_aliases) "a" "b"
           (mk_shared_ptr (Some 1%positive) (Some 2%positive))
           (mk_shared_ptr (Some 1%positive) (Some 2%positive)) 2%positive);
    [by_running|done|by vm_compute|by vm_compute|done|done].
Defined.

(** [head = x] with [x] a variable of its own: the node of [head] goes,
    its member with it, and both share the node of [x]. *)
Lemma copy_assign_shares_witness :
  ∃ w', SharedT.copy_assign node_destructor "head" "x" (after node_and_owner)
        = Ok (tt, w') ∧
    instances w' !! "head"
    = Some (mk_shared_ptr (Some 3%positive) (Some 4%positive)) ∧
    instances w' !! "n" = None ∧
    objects w' = {[3%positive]} ∧
    trace w' = [destroyed_object 1%positive; freed_counter 2%positive] ∧
    counters w' = {[4%positive := 2]} ∧
    value (use_count "head" w') = Ok 2 ∧
    value (use_count "x" w') = Ok 2.
Proof.
  destruct (proj1 (copy_assign_shares node_destructor (after node_and_owner)
                     "head" "x"
                     (mk_shared_ptr (Some 3%positive) (Some 4%positive))
                     4%positive 1 ltac:(done) ltac:(done))
              (mk_world (<["head" := null]>
                           (instances (node_released (after node_and_owner))))
                        {[3%positive]} {[4%positive := 1]} 5%positive
                        [destroyed_object 1%positive; freed_counter 2%positive]))
    as (w' & Hc & Hi & Ho & Ht & Hn & Hu & Hu').
  - by vm_compute.
  - by vm_compute.
  - by vm_compute.
  - by vm_compute.
  - exists w'. split; [done|]. rewrite Hi, Ho, Ht, Hn.
    split; [by vm_compute|]. split; [by vm_compute|].
    split; [by vm_compute|]. split; [done|]. split; [by vm_compute|done].
Defined.

(** A second [make_shared] next to an owner. *)
Lemma make_shared_sole_owner_witness :
  ∃ w', make_shared "b" (after one_owner) = Ok (tt, w') ∧
    (next (after one_owner) ∉ objects (after one_owner)) ∧
    counters (after one_owner) !! Pos.succ (next (after one_owner)) = None ∧
    value (get "b" w') = Ok (Some (next (after one_owner))) ∧
    value (use_count "b" w') = Ok 1 ∧ value (unique "b" w') = Ok true ∧
    (∀ v', v' ≠ "b" → instances w' !! v' = instances (after one_owner) !! v') ∧
    (∀ c, c ≠ Pos.succ (next (after one_owner)) →
          counters w' !! c = counters (after one_owner) !! c) ∧
    objects w' = {[next (after one_owner)]} ∪ objects (after one_owner) ∧
    trace w' = trace (after one_owner).
Proof.
  apply (make_shared_sole_owner (after one_owner) "b");
    [by_running|by vm_compute].
Defined.

(** [T* p = new T; shared_ptr<T> a(p); shared_ptr<T> b(p);] and the end of
    both. *)
Lemma double_wrapping_double_frees_witness :
  (construct_ptr "a" (Some 1%positive);; construct_ptr "b" (Some 1%positive);;
   destroy "a";; destroy "b" : M unit) (after [New])
  = Undefined double_free.
Proof.
  apply (double_wrapping_double_frees (after [New]) "a" "b" 1%positive);
    [done|by vm_compute|by vm_compute|by vm_compute].
Defined.

(** [a.reset(a.get());] on a sole owner. *)
Lemma reset_to_own_pointer_witness :
  ∃ w', reset_ptr "a" (Some 1%positive) (after one_owner) = Ok (tt, w') ∧
    value (operator_bool "a" w') = Ok true ∧
    value (unique "a" w') = Ok true ∧
    value (get "a" w') = Ok (Some 1%positive) ∧ (1%positive ∉ objects w') ∧
    destroy "a" w' = Undefined double_free.
Proof.
  apply (reset_to_own_pointer (after one_owner) "a"
           (mk_shared_ptr (Some 1%positive) (Some 2%positive)) 1%positive);
    [by_running|by vm_compute|done|by vm_compute].
Defined.

(** The use count of a sole owner is held. *)
Lemma no_use_count_leak_witness :
  (∀ c n, counters (after one_owner) !! c = Some n →
     ∃ v sp, instances (after one_owner) !! v = Some sp ∧
             m_use_count sp = Some c) ∧
  (instances (after one_owner) = ∅ → counters (after one_owner) = ∅).
Proof. apply (no_use_count_leak (after one_owner)). by_running. Defined.

(** [{ auto b = make_shared<T>(); }] next to an owner. *)
Lemma make_shared_then_destroy_witness :
  (make_shared "b";; destroy "b" : M unit) (after one_owner)
  = Ok (tt, mk_world (instances (after one_owner)) (objects (after one_owner))
              (counters (after one_owner))
              (Pos.succ (Pos.succ (next (after one_owner))))
              (trace (after one_owner)
                 ++ [destroyed_object (next (after one_owner));
                     freed_counter (Pos.succ (next (after one_owner)))])).
Proof.
  apply (make_shared_then_destroy (after one_owner) "b");
    [by_running|by vm_compute].
Defined.

(** [T* p = new T; a.reset(p);] on a sole owner. *)
Lemma reset_ptr_adopts_witness :
  ∃ w1 w', reset "a" (after (one_owner ++ [New])) = Ok (tt, w1) ∧
    reset_ptr "a" (Some 3%positive) (after (one_owner ++ [New])) = Ok (tt, w') ∧
    objects w' = objects w1 ∧ trace w' = trace w1 ∧
    value (get "a" w') = Ok (Some 3%positive) ∧ 3%positive ∈ objects w' ∧
    value (use_count "a" w') = Ok 1 ∧ value (unique "a" w') = Ok true.
Proof.
  apply (reset_ptr_adopts (after (one_owner ++ [New])) "a" 3%positive);
    [by_running|by_deciding|by_deciding].
Defined.

(** [a = std::move(b)] between two [unique_ptr] owners. *)
Lemma unique_ownership_is_exclusive_witness :
  ∃ w', UniqueT.exec (λ _, mret tt) (Unique.MoveAssign "a" "b")
          (Unique.after two_unique_owners) = Ok (tt, w') ∧
    NoDup (Unique.trace w') ∧
    (∀ v1 v2 p, value (Unique.get v1 w') = Ok (Some p) →
       value (Unique.get v2 w') = Ok (Some p) → v1 = v2) ∧
    (∀ v p, value (Unique.get v w') = Ok (Some p) →
       p ∈ Unique.objects w' ∧ destroyed_object p ∉ Unique.trace w').
Proof.
  apply (unique_ownership_is_exclusive (λ _, mret tt)
           (Unique.after two_unique_owners) (Unique.MoveAssign "a" "b"));
    [by intros a w|by_running_unique|by_deciding].
Defined.

(** [unique_ptr<T> c(std::move(a));] and the end of [a]. *)
Lemma unique_move_then_destroy_source_witness :
  (Unique.move_construct "c" "a";; Unique.destroy "a" : Unique.M unit) two_unique
  = Ok (tt, Unique.mk_world
              (<["c" := Unique.mk_unique_ptr (Some 1%positive)]>
                 (delete "a" (Unique.instances two_unique)))
              (Unique.objects two_unique) (Unique.next two_unique)
              (Unique.trace two_unique)).
Proof.
  apply (unique_move_then_destroy_source two_unique "a" "c"); by vm_compute.
Defined.

(** [T* p = new T; unique_ptr<T> a(p); unique_ptr<T> b(p);] and the end of
    both. *)
Lemma unique_double_wrapping_double_frees_witness :
  (Unique.construct_ptr "a" (Some 1%positive);;
   Unique.construct_ptr "b" (Some 1%positive);;
   Unique.destroy "a";; Unique.destroy "b" : Unique.M unit)
    (Unique.after [Unique.New])
  = Undefined double_free.
Proof.
  apply (unique_double_wrapping_double_frees (Unique.after [Unique.New])
           "a" "b" 1%positive);
    [done|by vm_compute|by vm_compute|by vm_compute].
Defined.

(** [a.reset(a.get());] on a [unique_ptr] owner. *)
Lemma unique_reset_to_own_pointer_witness :
  ∃ w', Unique.reset_ptr "a" (Some 1%positive) two_unique = Ok (tt, w') ∧
    value (Unique.get "a" w') = Ok (Some 1%positive) ∧
    (1%positive ∉ Unique.objects w') ∧
    Unique.destroy "a" w' = Undefined double_free ∧
    Unique.reset "a" w' = Undefined double_free.
Proof.
  apply (unique_reset_to_own_pointer two_unique "a" 1%positive); by vm_compute.
Defined.

(** [{ auto a = make_unique<T>(); }] *)
Lemma make_unique_then_destroy_witness :
  (Unique.make_unique "a";; Unique.destroy "a" : Unique.M unit) Unique.init
  = Ok (tt, Unique.mk_world (Unique.instances Unique.init)
              (Unique.objects Unique.init) (Pos.succ (Unique.next Unique.init))
              (Unique.trace Unique.init
                 ++ [destroyed_object (Unique.next Unique.init)])).
Proof.
  apply (make_unique_then_destroy Unique.init "a");
    [apply Unique.reachable_init|done].
Defined.

(** Dereferencing a [shared_ptr] owner and a [unique_ptr] owner. *)
Lemma dereference_is_defined_witness :
  (∃ p, value (operator_star "a" (after one_owner)) = Ok (object_at p) ∧
     value (get "a" (after one_owner)) = Ok (Some p)) ∧
  (∃ p, value (Unique.operator_star "a" (Unique.after two_unique_owners))
        = Ok (object_at p) ∧
     value (Unique.operator_arrow "a" (Unique.after two_unique_owners))
     = Ok (Some p) ∧
     value (Unique.get "a" (Unique.after two_unique_owners)) = Ok (Some p)).
Proof.
  destruct (@dereference_is_defined avr_size_t) as [S U]. split.
  - apply (S (after one_owner) "a"); [by_running|by vm_compute].
  - apply (U (Unique.after two_unique_owners) "a");
      [by_running_unique|by vm_compute].
Defined.

(** [head = std::move(head->next)] and [head = head->next] on a list of
    one node: the release of the node ends the lifetime of the source. *)
Lemma assignment_defined_witness :
  SharedT.move_assign node_destructor "head" "n" (after one_node)
  = Undefined dead_instance ∧
  SharedT.copy_assign node_destructor "head" "n" (after one_node)
  = Undefined dead_instance.
Proof.
  apply (proj2 (proj2 (assignment_defined node_destructor (after one_node)
                         "head" "n"))
           (node_released (after one_node))); by vm_compute.
Defined.

(** [head = std::move(x)] with [x] a variable of its own is defined,
    although the item of [head] takes its member with it. *)
Lemma unique_assignment_defined_witness :
  ∃ w', UniqueT.move_assign item_destructor "head" "x"
          (Unique.after item_and_owner) = Ok (tt, w').
Proof.
  apply (proj1 (unique_assignment_defined item_destructor
                  (Unique.after item_and_owner) "head" "x")).
  exists (Some 1%positive), (item_released (Unique.after item_and_owner)).
  split; [by vm_compute|]. split; [by vm_compute|]. split; by_deciding.
Defined.

End Witnesses.
